(** * protolint: the validator and the formatter of .proto sources

    A shallow embedding of [src/lib/validator.ts] ([validate],
    [validateSyntax]) and [src/lib/formatter.ts] ([format],
    [shouldInsertBlankLine]), with the properties the specification states
    about them.

    JavaScript strings are sequences of 16-bit code units; they are lists of
    [N] here.  Regular expressions are kept as syntax trees that follow the
    literals of the source and are run by one backtracking matcher.  Where a
    literal is quoted in a comment, a blank separates a star from a closing
    parenthesis that follows it in the source. *)

From Stdlib Require Import String Ascii.
From Stdlib Require Import List ZArith NArith Lia Bool.
From Stdlib Require Import Sorting.Sorted Sorting.Permutation.
From Stdlib Require Decimal DecimalString.
Import ListNotations.

Set Implicit Arguments.

(* ================================================================== *)
(** ** Strings as code units *)
(* ================================================================== *)

Definition str := list N.

Definition lit (s : string) : str := map N_of_ascii (list_ascii_of_string s).

(** The double quote, the line feed and the em dash of the messages. *)
Definition dq : N := 34%N.
Definition lf : N := 10%N.
Definition emdash : N := 8212%N.

Definition str_eqb (a b : str) : bool :=
  if list_eq_dec N.eq_dec a b then true else false.

Definition is_empty (s : str) : bool :=
  match s with [] => true | _ => false end.

Definition len (s : str) : Z := Z.of_nat (length s).

(** [\s] of a regular expression and the characters [trim] removes: the
    WhiteSpace and LineTerminator productions of ECMAScript. *)
Definition is_ws (c : N) : bool :=
  ((9 <=? c) && (c <=? 13) || (c =? 32) || (c =? 160) || (c =? 5760)
   || (8192 <=? c) && (c <=? 8202) || (c =? 8232) || (c =? 8233)
   || (c =? 8239) || (c =? 8287) || (c =? 12288) || (c =? 65279))%N.

Definition is_digit (c : N) : bool := ((48 <=? c) && (c <=? 57))%N.
Definition is_upper (c : N) : bool := ((65 <=? c) && (c <=? 90))%N.
Definition is_lower (c : N) : bool := ((97 <=? c) && (c <=? 122))%N.

(** [\w] *)
Definition is_word (c : N) : bool :=
  is_upper c || is_lower c || is_digit c || (c =? 95)%N.

(** [.] matches everything but the four line terminators. *)
Definition is_dot (c : N) : bool :=
  negb ((c =? 10) || (c =? 13) || (c =? 8232) || (c =? 8233))%N.

Fixpoint dropWhile (p : N -> bool) (s : str) : str :=
  match s with
  | [] => []
  | c :: s' => if p c then dropWhile p s' else s
  end.

Definition trimStart (s : str) : str := dropWhile is_ws s.
Definition trimEnd (s : str) : str := rev (dropWhile is_ws (rev s)).
Definition trim (s : str) : str := trimStart (trimEnd s).

Fixpoint startsWith (p s : str) : bool :=
  match p, s with
  | [], _ => true
  | a :: p', b :: s' => (a =? b)%N && startsWith p' s'
  | _ :: _, [] => false
  end.

Definition endsWith (p s : str) : bool := startsWith (rev p) (rev s).

Fixpoint includes (p s : str) : bool :=
  startsWith p s || match s with [] => false | _ :: s' => includes p s' end.

(** [s.split("\n")]: never the empty list. *)
Fixpoint split_lf (s : str) : list str :=
  match s with
  | [] => [[]]
  | c :: s' =>
      if (c =? lf)%N then [] :: split_lf s'
      else match split_lf s' with
           | l :: ls => (c :: l) :: ls
           | [] => [[c]]
           end
  end.

(** [a.join("\n")] *)
Fixpoint join_lf (ls : list str) : str :=
  match ls with
  | [] => []
  | [l] => l
  | l :: ls' => l ++ lf :: join_lf ls'
  end.

(** Number of occurrences of one code unit: [(s.match(/c/g) || []).length]. *)
Definition count_char (c : N) (s : str) : nat :=
  length (filter (N.eqb c) s).

(** Decimal rendering of a non-negative integer in a template literal. *)
Definition dec (z : Z) : str :=
  lit (DecimalString.NilZero.string_of_uint (N.to_uint (Z.to_N z))).

(* ================================================================== *)
(** ** Exceptions *)
(* ================================================================== *)

Inductive JsError : Type := TypeError | RangeError.

Inductive Result (A : Type) : Type :=
| Ok (a : A)
| Throw (e : JsError).

Arguments Ok {A} a.
Arguments Throw {A} e.

Definition bind {A B : Type} (m : Result A) (f : A -> Result B) : Result B :=
  match m with
  | Ok a => f a
  | Throw e => Throw e
  end.

Notation "x <- m ;; k" := (bind m (fun x => k))
  (at level 61, m at next level, right associativity).

(** [s.repeat(count)] raises a RangeError on a negative count. *)
Definition js_repeat (s : str) (count : Z) : Result str :=
  if (count <? 0)%Z then Throw RangeError
  else Ok (concat (repeat s (Z.to_nat count))).

(* ================================================================== *)
(** ** Regular expressions *)
(* ================================================================== *)

Inductive re : Type :=
| Eps : re
| Cls : (N -> bool) -> re     (* one code unit of a class *)
| Seq : re -> re -> re
| Alt : re -> re -> re        (* r1|r2, left first *)
| Star : re -> re             (* greedy r* *)
| Grp : nat -> re -> re       (* capturing group number n *)
| Eoi : re.                   (* $ (no m flag: end of input) *)

Definition caps := nat -> option str.
Definition no_caps : caps := fun _ => None.
Definition set_cap (i : nat) (v : str) (c : caps) : caps :=
  fun j => if Nat.eqb i j then Some v else c j.

(** The matcher, in continuation-passing style: [k] receives what is left of
    the input and the captures so far.  An iteration of [Star] that consumes
    nothing is rejected, as ECMAScript does; the counter of the loop is the
    length of the input, which bounds the number of consuming iterations. *)
Fixpoint mt (R : Type) (r : re) (s : str) (c : caps)
    (k : str -> caps -> option R) {struct r} : option R :=
  match r with
  | Eps => k s c
  | Cls p =>
      match s with
      | x :: s' => if p x then k s' c else None
      | [] => None
      end
  | Seq a b => mt a s c (fun s' c' => mt b s' c' k)
  | Alt a b =>
      match mt a s c k with
      | Some x => Some x
      | None => mt b s c k
      end
  | Star a =>
      (fix loop (n : nat) (s : str) (c : caps) {struct n} : option R :=
         match n with
         | O => k s c
         | S n' =>
             match mt a s c (fun s' c' =>
                     if (length s' <? length s)%nat then loop n' s' c'
                     else None) with
             | Some x => Some x
             | None => k s c
             end
         end) (length s) s c
  | Grp i a =>
      mt a s c (fun s' c' =>
        k s' (set_cap i (firstn (length s - length s') s) c'))
  | Eoi =>
      match s with
      | [] => k s c
      | _ :: _ => None
      end
  end.

(** A match: where it starts, where it ends, and its groups. *)
Record Match : Type := mkMatch {
  m_index : nat;
  m_end : nat;
  m_caps : caps
}.

(** A match of [r] that starts at the head of [s]. *)
Definition match_here (r : re) (s : str) : option (nat * caps) :=
  mt r s no_caps (fun s' c' => Some ((length s - length s')%nat, c')).

(** The leftmost match of [r] at or after the head of [s]; [i] is the
    offset of [s] in the whole subject. *)
Fixpoint search_from (r : re) (i : nat) (s : str) : option Match :=
  match match_here r s with
  | Some (n, c) => Some (mkMatch i (i + n) c)
  | None =>
      match s with
      | [] => None
      | _ :: s' => search_from r (S i) s'
      end
  end.

(** A regular expression literal: with or without a leading [^]. *)
Record regex : Type := mkRegex { anchored : bool; body : re }.

Definition exec (rx : regex) (s : str) : option Match :=
  if anchored rx then
    match match_here (body rx) s with
    | Some (n, c) => Some (mkMatch 0 n c)
    | None => None
    end
  else search_from (body rx) 0 s.

Definition test (rx : regex) (s : str) : bool :=
  match exec rx s with Some _ => true | None => false end.

(** [m[i]] read as the string its type says it is.  A group that took no
    part in the match would be [undefined] there, and the first method
    called on it would raise a TypeError: the model raises at the read. *)
Definition group (m : Match) (i : nat) : Result str :=
  match m_caps m i with
  | Some v => Ok v
  | None => Throw TypeError
  end.

(** [m[i]], or the empty string when it is [undefined]. *)
Definition group_or_empty (m : Match) (i : nat) : str :=
  match m_caps m i with
  | Some v => v
  | None => []
  end.

(** [s.replace(rx, rep)] without the g flag: the first match only. *)
Definition replace (rx : regex) (rep : Match -> str) (s : str) : str :=
  match exec rx s with
  | Some m => firstn (m_index m) s ++ rep m ++ skipn (m_end m) s
  | None => s
  end.

(** [s.replace(/r/g, rep)] for a regular expression without anchor: every
    match, left to right, the search resuming where the last match ended (one
    code unit further after an empty match). *)
Fixpoint replace_all_from (r : re) (rep : str) (fuel : nat) (s : str) : str :=
  match fuel with
  | O => s
  | S fuel' =>
      match search_from r 0 s with
      | None => s
      | Some m =>
          if (m_index m <? m_end m)%nat then
            firstn (m_index m) s ++ rep
              ++ replace_all_from r rep fuel' (skipn (m_end m) s)
          else
            match skipn (m_index m) s with
            | [] => firstn (m_index m) s ++ rep
            | x :: s' =>
                firstn (m_index m) s ++ rep ++ x :: replace_all_from r rep fuel' s'
            end
      end
  end.

Definition replace_all (r : re) (rep : str) (s : str) : str :=
  replace_all_from r rep (S (length s)) s.

(** *** Notation for the literals *)

Definition chr (a : ascii) : re := Cls (N.eqb (N_of_ascii a)).
Definition not_chr (n : N) : re := Cls (fun c => negb (N.eqb n c)).
Definition ws : re := Cls is_ws.
Definition word : re := Cls is_word.
Definition digit : re := Cls is_digit.
Definition dot : re := Cls is_dot.
Definition Plus (r : re) : re := Seq r (Star r).
Definition Opt (r : re) : re := Alt r Eps.
Definition seqs (rs : list re) : re := fold_right Seq Eps rs.
Definition kw (s : string) : re :=
  seqs (map (fun a => Cls (N.eqb (N_of_ascii a))) (list_ascii_of_string s)).
Fixpoint alts (rs : list re) : re :=
  match rs with
  | [] => Cls (fun _ => false)
  | [r] => r
  | r :: rs' => Alt r (alts rs')
  end.
Definition at_start (r : re) : regex := mkRegex true r.
Definition anywhere (r : re) : regex := mkRegex false r.

(* ================================================================== *)
(** ** The formatter ([src/lib/formatter.ts]) *)
(* ================================================================== *)

Module Formatter.

(** [/^(message|enum|service|oneof|extend)\s+/] *)
Definition BLOCK_OPENERS : regex :=
  at_start (seqs [Grp 1 (alts [kw "message"; kw "enum"; kw "service";
                               kw "oneof"; kw "extend"]); Plus ws]).

(** [/^rpc\s+.*\{$/] *)
Definition RPC_WITH_BODY : regex :=
  at_start (seqs [kw "rpc"; Plus ws; Star dot; chr "{"; Eoi]).

(** [/^(.+;\s* )(}\s* )$/] *)
Definition SPLIT_RE : regex :=
  at_start (seqs [Grp 1 (seqs [Plus dot; chr ";"; Star ws]);
                  Grp 2 (seqs [chr "}"; Star ws]); Eoi]).

(** [/^syntax\s+/], [/^package\s+/], [/^import\s+/], [/^option\s+/],
    [/^reserved\s+/] *)
Definition keyword_re (k : string) : regex := at_start (seqs [kw k; Plus ws]).

(** [/\s+/] *)
Definition SPACES : regex := anywhere (Plus ws).

(** [/\s+\{$/] *)
Definition SPACES_BRACE_END : regex := anywhere (seqs [Plus ws; chr "{"; Eoi]).

(** [/\(\s+/g] and [/\s+\)/g] *)
Definition PAREN_SPACES : re := seqs [chr "("; Plus ws].
Definition SPACES_PAREN : re := seqs [Plus ws; chr ")"].

(** [/\)\s+returns\s+\(/] *)
Definition RETURNS_RE : regex :=
  anywhere (seqs [chr ")"; Plus ws; kw "returns"; Plus ws; chr "("]).

(** [/\s+;/] *)
Definition SPACES_SEMI : regex := anywhere (seqs [Plus ws; chr ";"]).

(** [/\s*=\s*/] *)
Definition EQUALS_RE : regex := anywhere (seqs [Star ws; chr "="; Star ws]).

(** [(?:optional\s+|repeated\s+|required\s+)?(?:map<[^>]+>|\w+(?:\.\w+)* )],
    the head of the field patterns. *)
Definition FIELD_HEAD : re :=
  seqs [Opt (alts [seqs [kw "optional"; Plus ws];
                   seqs [kw "repeated"; Plus ws];
                   seqs [kw "required"; Plus ws]]);
        alts [seqs [kw "map<"; Plus (not_chr 62); chr ">"];
              seqs [Plus word; Star (seqs [chr "."; Plus word])]]].

(** That head followed by "\s+\w+\s*=", anchored at the start. *)
Definition FIELD_RE : regex :=
  at_start (seqs [FIELD_HEAD; Plus ws; Plus word; Star ws; chr "="]).

(** [/^\w+\s*=\s*-?\d+\s*;/] *)
Definition ENUMVAL_RE : regex :=
  at_start (seqs [Plus word; Star ws; chr "="; Star ws; Opt (chr "-");
                  Plus digit; Star ws; chr ";"]).

(** The [type] of a formatted line: the literals the source assigns. *)
Inductive LineType : Type :=
| syntax | package | import | option_ | comment | block | rpc | field
| enumval | reserved | close | other.

Definition LineType_eqb (a b : LineType) : bool :=
  match a, b with
  | syntax, syntax | package, package | import, import | option_, option_
  | comment, comment | block, block | rpc, rpc | field, field
  | enumval, enumval | reserved, reserved | close, close | other, other => true
  | _, _ => false
  end.

Record Line : Type := mkLine {
  text : str;
  depth : Z;
  type : LineType
}.

(** Pre-processing of one raw line: "something; }" becomes two lines. *)
Definition presplit_line (raw : str) : Result (list str) :=
  let trimmed := trim raw in
  match exec SPLIT_RE trimmed with
  | Some splitMatch =>
      if negb (startsWith (lit "//") trimmed) then
        g1 <- group splitMatch 1 ;;
        g2 <- group splitMatch 2 ;;
        Ok [trim g1; trim g2]
      else Ok [raw]
  | None => Ok [raw]
  end.

Fixpoint presplit (rawLines : list str) : Result (list str) :=
  match rawLines with
  | [] => Ok []
  | raw :: rest =>
      here <- presplit_line raw ;;
      more <- presplit rest ;;
      Ok (here ++ more)
  end.

Definition sp : Match -> str := fun _ => lit " ".

(** Classification and normalisation of a trimmed, non-blank line that is
    neither part of a block comment nor a closing brace. *)
Definition classify (trimmed : str) : str * LineType :=
  let text := trimmed in
  if test (keyword_re "syntax") text then (replace SPACES sp text, syntax)
  else if test (keyword_re "package") text then (replace SPACES sp text, package)
  else if test (keyword_re "import") text then (replace SPACES sp text, import)
  else if test (keyword_re "option") text then (replace SPACES sp text, option_)
  else if startsWith (lit "//") trimmed || startsWith (lit "*") trimmed then
    (text, comment)
  else if test BLOCK_OPENERS text then
    let text := replace BLOCK_OPENERS
                  (fun m => group_or_empty m 1 ++ lit " ") text in
    let text := replace SPACES_BRACE_END (fun _ => lit " {") text in
    (text, block)
  else if startsWith (lit "rpc ") text then
    let text := replace_all PAREN_SPACES (lit "(") text in
    let text := replace_all SPACES_PAREN (lit ")") text in
    let text := replace RETURNS_RE (fun _ => lit ") returns (") text in
    let text := replace SPACES_SEMI (fun _ => lit ";") text in
    (text, rpc)
  else if test FIELD_RE text then
    let text := replace EQUALS_RE (fun _ => lit " = ") text in
    (replace SPACES_SEMI (fun _ => lit ";") text, field)
  else if test ENUMVAL_RE text then
    let text := replace EQUALS_RE (fun _ => lit " = ") text in
    (replace SPACES_SEMI (fun _ => lit ";") text, enumval)
  else if test (keyword_re "reserved") text then (text, reserved)
  else (text, other).

(** The look-ahead of the block opener whose brace is on a later line: skip
    the blank lines; [Some n] when the first non-blank line is a lone "{",
    [n] being the number of lines up to and including it. *)
Fixpoint brace_ahead (rest : list str) : option nat :=
  match rest with
  | [] => None
  | l :: rest' =>
      if is_empty (trim l) then option_map S (brace_ahead rest')
      else if str_eqb (trim l) (lit "{") then Some 1%nat
      else None
  end.

Record State : Type := mkState {
  formatted : list Line;
  cur_depth : Z;
  inBlockComment : bool
}.

Definition init : State := mkState [] 0 false.

(** One iteration of the first loop, on [lines[i]] with the lines after it.
    The second component is the number of following lines the iteration
    consumed by setting [i = nextIdx]. *)
Definition first_pass_line (line : str) (rest : list str) (st : State)
  : State * nat :=
  let line := trimEnd line in
  let trimmed := trim line in
  let depth := cur_depth st in
  if inBlockComment st then
    (mkState (formatted st ++ [mkLine trimmed depth comment]) depth
       (if includes (lit "*/") trimmed then false else true), O)
  else if startsWith (lit "/*") trimmed then
    (mkState (formatted st ++ [mkLine trimmed depth comment]) depth
       (negb (includes (lit "*/") trimmed)), O)
  else if is_empty trimmed then (st, O)
  else if str_eqb trimmed (lit "}") || str_eqb trimmed (lit "};") then
    let depth := Z.max 0 (depth - 1) in
    (mkState (formatted st ++ [mkLine trimmed depth close]) depth false, O)
  else
    let '(text, type) := classify trimmed in
    let '(text, skip) :=
      if test BLOCK_OPENERS text && negb (includes (lit "{") text) then
        match brace_ahead rest with
        | Some n => (text ++ lit " {", n)
        | None => (text, O)
        end
      else (text, O) in
    let opensBlock :=
      (test BLOCK_OPENERS trimmed && endsWith (lit "{") text)
      || test RPC_WITH_BODY text
      || (endsWith (lit "{") text && negb (startsWith (lit "//") text)) in
    (mkState (formatted st ++ [mkLine text depth type])
       (if opensBlock then depth + 1 else depth) false, skip).

(** The first loop.  [skip] counts the lines still to pass over after a
    merge moved the index forward. *)
Fixpoint first_pass (lines : list str) (skip : nat) (st : State) : State :=
  match lines with
  | [] => st
  | line :: rest =>
      match skip with
      | S skip' => first_pass rest skip' st
      | O =>
          let '(st', skip') := first_pass_line line rest st in
          first_pass rest skip' st'
      end
  end.

Definition shouldInsertBlankLine (prev curr : Line) : bool :=
  if LineType_eqb (type prev) close && negb (LineType_eqb (type curr) close)
  then true
  else if (depth prev =? 0)%Z && (depth curr =? 0)%Z then
    if LineType_eqb (type prev) syntax && negb (LineType_eqb (type curr) syntax)
    then true
    else if LineType_eqb (type prev) package
            && negb (LineType_eqb (type curr) package) then true
    else if LineType_eqb (type prev) import
            && negb (LineType_eqb (type curr) import) then true
    else if LineType_eqb (type prev) option_
            && negb (LineType_eqb (type curr) option_) then true
    else if LineType_eqb (type curr) block
            && negb (LineType_eqb (type prev) comment) then true
    else if LineType_eqb (type curr) comment
            && negb (LineType_eqb (type prev) comment)
            && negb (LineType_eqb (type prev) syntax)
            && negb (LineType_eqb (type prev) package)
            && negb (LineType_eqb (type prev) import)
            && negb (LineType_eqb (type prev) option_) then true
    else if (depth curr >? 0)%Z then false
    else false
  else if (depth curr >? 0)%Z then false
  else false.

Definition indent (d : Z) : Result str := js_repeat (lit "  ") d.

(** The second loop: [prev] is [formatted[i - 1]], or [null] at [i = 0]. *)
Fixpoint second_pass (prev : option Line) (lines : list Line)
  : Result (list str) :=
  match lines with
  | [] => Ok []
  | curr :: rest =>
      let blank :=
        match prev with
        | Some p => if shouldInsertBlankLine p curr then [[]] else []
        | None => []
        end in
      ind <- indent (depth curr) ;;
      more <- second_pass (Some curr) rest ;;
      Ok (blank ++ (ind ++ text curr) :: more)
  end.

(** The loop that pops the empty strings at the end of [result], on the
    reversed array. *)
Fixpoint drop_blank (rev_result : list str) : list str :=
  match rev_result with
  | [] :: rest => drop_blank rest
  | _ => rev_result
  end.

Definition pop_blank (result : list str) : list str :=
  rev (drop_blank (rev result)).

(** The lines of the first loop for a source text. *)
Definition lines_of (content : str) : Result (list Line) :=
  lines <- presplit (split_lf content) ;;
  Ok (formatted (first_pass lines 0 init)).

Definition format (content : str) : Result str :=
  formatted <- lines_of content ;;
  result <- second_pass None formatted ;;
  Ok (join_lf (pop_blank result ++ [[]])).

End Formatter.


(* ================================================================== *)
(** ** The validator ([src/lib/validator.ts]) *)
(* ================================================================== *)

Module Validator.

Inductive Severity : Type := SevError | SevWarning | SevInfo.

Definition Severity_eqb (a b : Severity) : bool :=
  match a, b with
  | SevError, SevError | SevWarning, SevWarning | SevInfo, SevInfo => true
  | _, _ => false
  end.

(** The rule identifiers are literals of the source: plain strings. *)
Record Issue : Type := issue {
  line : Z;
  column : Z;
  rule : string;
  message : str;
  severity : Severity
}.

Record ValidationResult : Type := mkResult {
  valid : bool;
  errors : list Issue;
  warnings : list Issue;
  info : list Issue
}.

(** [s] between double quotes. *)
Definition quoted (s : str) : str := dq :: s ++ [dq].

(** [/^[A-Z][A-Za-z0-9]*$/] *)
Definition PASCAL_RE : regex :=
  at_start (seqs [Cls is_upper;
                  Star (Cls (fun c => is_upper c || is_lower c || is_digit c));
                  Eoi]).

(** [/^[a-z][a-z0-9]*(_[a-z0-9]+)*$/] *)
Definition SNAKE_RE : regex :=
  at_start (seqs [Cls is_lower; Star (Cls (fun c => is_lower c || is_digit c));
                  Star (Grp 1 (seqs [chr "_";
                     Plus (Cls (fun c => is_lower c || is_digit c))]));
                  Eoi]).

(** [/^[A-Z][A-Z0-9]*(_[A-Z0-9]+)*$/] *)
Definition UPPER_SNAKE_RE : regex :=
  at_start (seqs [Cls is_upper; Star (Cls (fun c => is_upper c || is_digit c));
                  Star (Grp 1 (seqs [chr "_";
                     Plus (Cls (fun c => is_upper c || is_digit c))]));
                  Eoi]).

(** [(?:optional\s+|repeated\s+|required\s+)?(?:map<[^>]+>|\w+(?:\.\w+)* )] *)
Definition FIELD_HEAD : re := Formatter.FIELD_HEAD.

(* ------------------------------------------------------------------ *)
(** *** [validateSyntax] *)

Module Syntax.

(** [/\/\/.*$/] *)
Definition INLINE_COMMENT : regex :=
  anywhere (seqs [chr "/"; chr "/"; Star dot; Eoi]).

(** [/^(message|enum|oneof|reserved|option|extensions|map<)/] *)
Definition NESTED_DEF : regex :=
  at_start (Grp 1 (alts [kw "message"; kw "enum"; kw "oneof"; kw "reserved";
                         kw "option"; kw "extensions"; kw "map<"])).

(** [FIELD_HEAD] followed by [\s+\w+], anchored at the start. *)
Definition FIELD_DECL : regex :=
  at_start (seqs [FIELD_HEAD; Plus ws; Plus word]).

(** [/=\s*\d+\s*;/], [/=\s*\d+\s*\[/] and [/=\s*\d+\s*$/] *)
Definition NUM_SEMI : regex :=
  anywhere (seqs [chr "="; Star ws; Plus digit; Star ws; chr ";"]).
Definition NUM_BRACKET : regex :=
  anywhere (seqs [chr "="; Star ws; Plus digit; Star ws; chr "["]).
Definition NUM_END : regex :=
  anywhere (seqs [chr "="; Star ws; Plus digit; Star ws; Eoi]).

(** [/^\w+/] *)
Definition WORD_START : regex := at_start (Plus word).

(** [/^\w+\s*=\s*-?\d+\s*;/], [/^\w+\s*=\s*-?\d+\s*\[/] and
    [/^\w+\s*=\s*-?\d+\s*$/] *)
Definition ENUM_NUM (last : re) : regex :=
  at_start (seqs [Plus word; Star ws; chr "="; Star ws; Opt (chr "-");
                  Plus digit; Star ws; last]).

(** [/^(message|enum|service|oneof)\s+(\w* )/] *)
Definition BLOCK_RE : regex :=
  at_start (seqs [Grp 1 (alts [kw "message"; kw "enum"; kw "service";
                               kw "oneof"]);
                  Plus ws; Grp 2 (Star word)]).

(** [/^rpc\s+\w+\s*\([^)]*\)\s+returns\s+\([^)]*\)\s*[;{]/] *)
Definition RPC_RE : regex :=
  at_start (seqs [kw "rpc"; Plus ws; Plus word; Star ws;
                  chr "("; Star (not_chr 41); chr ")"; Plus ws;
                  kw "returns"; Plus ws;
                  chr "("; Star (not_chr 41); chr ")"; Star ws;
                  Cls (fun c => (c =? 59) || (c =? 123))%N]).

(** [/^syntax\s*=\s*QUOTE([^QUOTE]* )QUOTE\s*;/], QUOTE being the double
    quote. *)
Definition SYNTAX_RE : regex :=
  at_start (seqs [kw "syntax"; Star ws; chr "="; Star ws;
                  Cls (N.eqb dq); Grp 1 (Star (not_chr dq)); Cls (N.eqb dq);
                  Star ws; chr ";"]).

(** [/^syntax\s/] and the like: a keyword and one white space. *)
Definition keyword_s (k : string) : regex := at_start (seqs [kw k; ws]).

(** [/^\/[/*]/] *)
Definition COMMENT_START : regex :=
  at_start (seqs [chr "/"; Cls (fun c => (c =? 47) || (c =? 42))%N]).

(** [/^(syntax|package|import|option)\s+/] *)
Definition STATEMENT_RE : regex :=
  at_start (seqs [Grp 1 (alts [kw "syntax"; kw "package"; kw "import";
                               kw "option"]); Plus ws]).

Record Context : Type := mkContext {
  c_type : str;
  c_name : str;
  c_line : Z
}.

Record State : Type := mkState {
  issues : list Issue;
  braceStack : list Context;      (* in array order: the top is the last *)
  expectingBody : bool;
  expectingType : str;
  expectingName : str;
  expectingLine : Z
}.

Definition init : State := mkState [] [] false [] [] 0.

Definition syntax_error (lineNum col : Z) (msg : str) : Issue :=
  issue lineNum col "syntax-error" msg SevError.

(** The type of the top of [braceStack], or the empty string when the
    stack is empty. *)
Definition currentContext_of (stack : list Context) : str :=
  match rev stack with
  | top :: _ => c_type top
  | [] => []
  end.

Definition is_closing (code : str) : bool :=
  str_eqb code (lit "}") || str_eqb code (lit "};").

(** Field declarations inside messages must have [= fieldNumber;]. *)
Definition field_issues (lineNum : Z) (currentContext code : str)
  : list Issue :=
  if str_eqb currentContext (lit "message")
     || str_eqb currentContext (lit "oneof") then
    let isNestedDef := test NESTED_DEF code in
    let isClosingBrace := is_closing code in
    let isFieldDecl := test FIELD_DECL code in
    if isFieldDecl && negb isNestedDef && negb isClosingBrace then
      if negb (test NUM_SEMI code) && negb (test NUM_BRACKET code) then
        if test NUM_END code then
          [syntax_error lineNum 1
             (lit "Field declaration is missing a trailing semicolon.")]
        else
          [syntax_error lineNum 1
             (lit "Field declaration is missing a valid field number.")]
      else []
    else []
  else [].

(** Enum values must have [= number;]. *)
Definition enum_issues (lineNum : Z) (currentContext code : str)
  : list Issue :=
  if str_eqb currentContext (lit "enum") then
    let isClosingBrace := is_closing code in
    let isOption := startsWith (lit "option ") code in
    let isReserved := startsWith (lit "reserved ") code in
    if negb isClosingBrace && negb isOption && negb isReserved
       && test WORD_START code then
      if negb (test (ENUM_NUM (chr ";")) code)
         && negb (test (ENUM_NUM (chr "[")) code) then
        if test (ENUM_NUM Eoi) code then
          [syntax_error lineNum 1
             (lit "Enum value is missing a trailing semicolon.")]
        else
          [syntax_error lineNum 1
             (lit "Enum value is missing a valid number assignment.")]
      else []
    else []
  else [].

(** Detection of the message/enum/service/oneof openings: the new issues
    are appended, the stack and the "expecting" variables updated. *)
Definition detect_block (lineNum : Z) (code : str) (blockMatch : option Match)
    (st : State) : Result State :=
  match blockMatch with
  | Some bm =>
      type <- group bm 1 ;;
      let name := group_or_empty bm 2 in
      let named :=
        if is_empty name then
          [syntax_error lineNum 1 (type ++ lit " declaration is missing a name.")]
        else [] in
      if includes (lit "{") code then
        Ok (mkState (issues st ++ named)
              (braceStack st ++ [mkContext type name lineNum])
              (expectingBody st) (expectingType st) (expectingName st)
              (expectingLine st))
      else
        Ok (mkState (issues st ++ named) (braceStack st) true type name lineNum)
  | None =>
      if expectingBody st then
        if startsWith (lit "{") code || str_eqb code (lit "{") then
          Ok (mkState (issues st)
                (braceStack st ++ [mkContext (expectingType st)
                                     (expectingName st) (expectingLine st)])
                false (expectingType st) (expectingName st) (expectingLine st))
        else
          Ok (mkState
                (issues st ++
                   [syntax_error (expectingLine st) 1
                      (expectingType st ++ lit " " ++ quoted (expectingName st)
                       ++ lit " is missing opening brace " ++ quoted (lit "{"))])
                (braceStack st)
                false (expectingType st) (expectingName st) (expectingLine st))
      else Ok st
  end.

(** [for (let j = 0; j < openCount; j++) if (!blockMatch || j > 0) push(block)] *)
Definition push_open (lineNum : Z) (hasBlockMatch : bool) (openCount : nat)
    (stack : list Context) : list Context :=
  fold_left (fun stk j =>
               if negb hasBlockMatch || (0 <? j)%nat
               then stk ++ [mkContext (lit "block") [] lineNum]
               else stk)
            (seq 0 openCount) stack.

(** [for (let j = 0; j < closeCount; j++)]: pop, or report the brace. *)
Fixpoint pop_close (lineNum : Z) (closeCount : nat)
    (acc : list Issue * list Context) : list Issue * list Context :=
  match closeCount with
  | O => acc
  | S n =>
      let '(iss, stack) := acc in
      pop_close lineNum n
        (match stack with
         | _ :: _ => (iss, removelast stack)
         | [] => (iss ++ [syntax_error lineNum 1
                            (lit "Unexpected closing brace "
                             ++ quoted (lit "}") ++ lit ".")], stack)
         end)
  end.

Definition rpc_issues (lineNum : Z) (currentContext code : str) : list Issue :=
  if str_eqb currentContext (lit "service") && startsWith (lit "rpc ") code then
    if negb (test RPC_RE code) then
      [syntax_error lineNum 1
         (lit "Malformed rpc declaration. Expected: rpc Name(Request) returns (Response);")]
    else []
  else [].

Definition syntax_value_issues (lineNum : Z) (code : str)
  : Result (list Issue) :=
  match exec SYNTAX_RE code with
  | Some syntaxMatch =>
      val <- group syntaxMatch 1 ;;
      if negb (str_eqb val (lit "proto2")) && negb (str_eqb val (lit "proto3"))
      then Ok [syntax_error lineNum 1
                 (lit "Invalid syntax value " ++ quoted val ++ lit ". Must be "
                  ++ quoted (lit "proto2") ++ lit " or "
                  ++ quoted (lit "proto3") ++ lit ".")]
      else Ok []
  | None => Ok []
  end.

(** [s.lastIndexOf(";")], or -1. *)
Fixpoint lastIndexOf_from (c : N) (i : Z) (s : str) : Z :=
  match s with
  | [] => (-1)%Z
  | x :: s' =>
      let r := lastIndexOf_from c (i + 1) s' in
      if (r <? 0)%Z then (if (x =? c)%N then i else (-1)%Z) else r
  end.

Definition lastIndexOf (c : N) (s : str) : Z := lastIndexOf_from c 0 s.

(** [s.substring(a)] and [s.substring(0, b)] for non-negative arguments. *)
Definition substring_from (a : Z) (s : str) : str := skipn (Z.to_nat a) s.
Definition substring_to (b : Z) (s : str) : str := firstn (Z.to_nat b) s.

Definition semi : N := 59%N.

Definition junk_issues (lineNum : Z) (code : str) : list Issue :=
  if includes [semi] code && negb (endsWith [semi] code)
     && negb (includes (lit "{") code) then
    let afterSemicolon := trim (substring_from (lastIndexOf semi code + 1) code) in
    if negb (is_empty afterSemicolon)
       && negb (startsWith (lit "//") afterSemicolon) then
      [syntax_error lineNum (lastIndexOf semi code + 2)
         (lit "Unexpected content " ++ quoted afterSemicolon
          ++ lit " after semicolon.")]
    else []
  else [].

Definition unrecognized_issues (lineNum : Z) (currentContext code : str)
    (expectingBody : bool) : list Issue :=
  if is_empty currentContext && negb expectingBody then
    let isKnown :=
      str_eqb code (lit "}") || str_eqb code (lit "};")
      || test (keyword_s "syntax") code
      || test (keyword_s "package") code
      || test (keyword_s "import") code
      || test (keyword_s "option") code
      || test (keyword_s "message") code
      || test (keyword_s "enum") code
      || test (keyword_s "service") code
      || test (keyword_s "extend") code
      || test COMMENT_START code
      || str_eqb code (lit "{") in
    if negb isKnown then
      [syntax_error lineNum 1
         (lit "Unrecognized statement: "
          ++ quoted (substring_to 40 code
                     ++ (if (len code >? 40)%Z then lit "..." else []))
          ++ lit ".")]
    else []
  else [].

Definition semicolon_issues (lineNum : Z) (code : str) : list Issue :=
  if test STATEMENT_RE code && negb (endsWith [semi] code)
     && negb (includes (lit "{") code) then
    [syntax_error lineNum (len code)
       (lit "Statement is missing a trailing semicolon.")]
  else [].

(** The body of the loop, on [lines[i]] with [lineNum = i + 1]. *)
Definition scan_line (lineNum : Z) (raw : str) (st : State) : Result State :=
  let trimmed := trim raw in
  if is_empty trimmed || startsWith (lit "//") trimmed
     || startsWith (lit "/*") trimmed || startsWith (lit "*") trimmed
  then Ok st
  else
    let code := trim (replace INLINE_COMMENT (fun _ => []) trimmed) in
    if is_empty code then Ok st
    else
      let openCount := count_char 123 code in
      let closeCount := count_char 125 code in
      let currentContext := currentContext_of (braceStack st) in
      let st1 :=
        mkState (issues st ++ field_issues lineNum currentContext code
                 ++ enum_issues lineNum currentContext code)
          (braceStack st) (expectingBody st) (expectingType st)
          (expectingName st) (expectingLine st) in
      let blockMatch := exec BLOCK_RE code in
      st2 <- detect_block lineNum code blockMatch st1 ;;
      let hasBlockMatch :=
        match blockMatch with Some _ => true | None => false end in
      let '(iss3, stack3) :=
        pop_close lineNum closeCount
          (issues st2, push_open lineNum hasBlockMatch openCount (braceStack st2)) in
      syn <- syntax_value_issues lineNum code ;;
      Ok (mkState
            (iss3 ++ rpc_issues lineNum currentContext code
             ++ syn
             ++ junk_issues lineNum code
             ++ unrecognized_issues lineNum currentContext code (expectingBody st2)
             ++ semicolon_issues lineNum code)
            stack3 (expectingBody st2) (expectingType st2) (expectingName st2)
            (expectingLine st2)).

(** The loop over the lines, [lineNum] being the number of the first. *)
Fixpoint scan (lineNum : Z) (lines : list str) (st : State) : Result State :=
  match lines with
  | [] => Ok st
  | raw :: rest =>
      st' <- scan_line lineNum raw st ;;
      scan (lineNum + 1) rest st'
  end.

Definition unclosed_issue (unclosed : Context) : Issue :=
  syntax_error (c_line unclosed) 1
    (lit "Unclosed " ++ c_type unclosed ++ lit " " ++ quoted (c_name unclosed)
     ++ [32%N; emdash; 32%N] ++ lit "missing closing brace "
     ++ quoted (lit "}") ++ lit ".").

Definition validateSyntax (lines : list str) : Result (list Issue) :=
  st <- scan 1 lines init ;;
  Ok (issues st ++ map unclosed_issue (braceStack st)).

End Syntax.

(* ------------------------------------------------------------------ *)
(** *** The style rules and [validate] *)

(** [/^message\s+(\w+)/] and [/^enum\s+(\w+)/] *)
Definition MESSAGE_RE : regex :=
  at_start (seqs [kw "message"; Plus ws; Grp 1 (Plus word)]).
Definition ENUM_RE : regex :=
  at_start (seqs [kw "enum"; Plus ws; Grp 1 (Plus word)]).

(** [/^(\w+)\s*=\s*(\d+)/] *)
Definition VALUE_RE : regex :=
  at_start (seqs [Grp 1 (Plus word); Star ws; chr "="; Star ws;
                  Grp 2 (Plus digit)]).

(** [FIELD_HEAD] followed by [\s+(\w+)\s*=\s*\d+], anchored at the start. *)
Definition FIELD_RE : regex :=
  at_start (seqs [FIELD_HEAD; Plus ws; Grp 1 (Plus word); Star ws; chr "=";
                  Star ws; Plus digit]).

(** [parseInt(digits, 10)] on a string of decimal digits.  The source holds
    the result in a double and only compares it with 0: the exact integer is
    0 exactly when the double is. *)
Definition parseInt (digits : str) : Z :=
  fold_left (fun acc d => (10 * acc + (Z.of_N d - 48))%Z) digits 0%Z.

Record ImportLine : Type := mkImport {
  i_line : Z;
  i_text : str;
  isPublic : bool
}.

Record EnumValue : Type := mkValue {
  v_name : str;
  v_number : Z;
  v_line : Z
}.

Record EnumBlock : Type := mkEnum {
  e_name : str;
  startLine : Z;
  values : list EnumValue
}.

Record State : Type := mkState {
  issues : list Issue;
  hasSyntax : bool;
  hasPackage : bool;
  syntaxLine : Z;
  packageLine : Z;
  firstImportLine : Z;
  lastImportLine : Z;
  importLines : list ImportLine;
  prevLineIsComment : bool;
  enumBlocks : list EnumBlock;
  currentEnum : option EnumBlock;
  braceDepth : Z;
  inService : bool;
  serviceHasComment : bool;
  inEnum : bool
}.

(** The state at the entry of the loop; [issues] already holds the
    trailing-newline warning, if any. *)
Definition init (issues : list Issue) : State :=
  mkState issues false false (-1) (-1) (-1) (-1) [] false [] None 0 false
    false false.

Definition trailing_newline_issues (content : str) (lines : list str)
  : list Issue :=
  if (len content >? 0)%Z && negb (endsWith [lf] content) then
    [issue (Z.of_nat (length lines)) 1 "trailing-newline"
       (lit "File should end with a trailing newline.") SevWarning]
  else [].

Definition max_length_issues (lineNum : Z) (raw : str) : list Issue :=
  if (len raw >? 80)%Z then
    [issue lineNum 81 "max-line-length"
       (lit "Line exceeds 80 characters (" ++ dec (len raw) ++ lit ").")
       SevWarning]
  else [].

(** The name a one-group pattern captures, when the pattern matches. *)
Definition captured (rx : regex) (s : str) : Result (option str) :=
  match exec rx s with
  | Some m => name <- group m 1 ;; Ok (Some name)
  | None => Ok None
  end.

Definition message_name_issues (lineNum : Z) (msgMatch : option str)
  : list Issue :=
  match msgMatch with
  | Some name =>
      if negb (test PASCAL_RE name) then
        [issue lineNum 1 "message-name-pascal-case"
           (lit "Message name " ++ quoted name ++ lit " should be PascalCase.")
           SevError]
      else []
  | None => []
  end.

Definition enum_name_issues (lineNum : Z) (enumMatch : option str)
  : list Issue :=
  match enumMatch with
  | Some name =>
      if negb (test PASCAL_RE name) then
        [issue lineNum 1 "enum-name-pascal-case"
           (lit "Enum name " ++ quoted name ++ lit " should be PascalCase.")
           SevError]
      else []
  | None => []
  end.

(** The value a line adds to the current enum, with its issue. *)
Definition enum_value (lineNum : Z) (trimmed : str)
  : Result (list EnumValue * list Issue) :=
  match exec VALUE_RE trimmed with
  | Some valMatch =>
      vName <- group valMatch 1 ;;
      digits <- group valMatch 2 ;;
      let vNum := parseInt digits in
      Ok ([mkValue vName vNum lineNum],
          if negb (test UPPER_SNAKE_RE vName) then
            [issue lineNum 1 "enum-value-upper-snake-case"
               (lit "Enum value " ++ quoted vName
                ++ lit " should be UPPER_SNAKE_CASE.") SevError]
          else [])
  | None => Ok ([], [])
  end.

(** The check made when the enum closes. *)
Definition first_value_issues (e : EnumBlock) : list Issue :=
  match values e with
  | first :: _ =>
      if negb (v_number first =? 0)%Z
         || negb (endsWith (lit "UNSPECIFIED") (v_name first)) then
        [issue (startLine e) 1 "enum-first-value-unspecified"
           (lit "Enum " ++ quoted (e_name e)
            ++ lit " should have an UNSPECIFIED value as the first entry (= 0).")
           SevError]
      else []
  | [] => []
  end.

Definition field_name_issues (lineNum : Z) (fieldMatch : option str)
    (inEnum : bool) : list Issue :=
  match fieldMatch with
  | Some fName =>
      if negb inEnum then
        if negb (test SNAKE_RE fName) then
          [issue lineNum 1 "field-name-snake-case"
             (lit "Field name " ++ quoted fName ++ lit " should be snake_case.")
             SevError]
        else []
      else []
  | None => []
  end.

(** [for (const ch of trimmed)]: the brace depth and the end of the service. *)
Fixpoint track_braces (trimmed : str) (acc : Z * bool) : Z * bool :=
  match trimmed with
  | [] => acc
  | ch :: rest =>
      let '(braceDepth, inService) := acc in
      let braceDepth := if (ch =? 123)%N then (braceDepth + 1)%Z else braceDepth in
      track_braces rest
        (if (ch =? 125)%N then
           ((braceDepth - 1)%Z,
            if (braceDepth - 1 =? 0)%Z then false else inService)
         else (braceDepth, inService))
  end.

(** The enum part of the loop body: the value of the line, if any, and the
    close of the enum.  The result holds the new issues, [enumBlocks],
    [currentEnum] and [inEnum]. *)
Definition enum_part (lineNum : Z) (trimmed : str) (inEnum : bool)
    (currentEnum : option EnumBlock) (enumBlocks : list EnumBlock)
  : Result (list Issue * list EnumBlock * option EnumBlock * bool) :=
  match inEnum, currentEnum with
  | true, Some e =>
      added <- enum_value lineNum trimmed ;;
      let '(vals, valIssues) := added in
      let e' := mkEnum (e_name e) (startLine e) (values e ++ vals) in
      if includes (lit "}") trimmed then
        Ok (valIssues ++ first_value_issues e', enumBlocks ++ [e'], None, false)
      else Ok (valIssues, enumBlocks, Some e', true)
  | _, _ => Ok ([], enumBlocks, currentEnum, inEnum)
  end.

Definition service_issues (lineNum : Z) (trimmed : str)
    (prevLineIsComment : bool) : list Issue :=
  if startsWith (lit "service ") trimmed then
    if negb prevLineIsComment then
      [issue lineNum 1 "service-comment" (lit "Service should have a comment.")
         SevWarning]
    else []
  else [].

Definition rpc_issues (lineNum : Z) (trimmed : str)
    (inService prevLineIsComment : bool) : list Issue :=
  if inService && startsWith (lit "rpc ") trimmed then
    if negb prevLineIsComment then
      [issue lineNum 1 "rpc-comment" (lit "RPC should have a comment.")
         SevWarning]
    else []
  else [].

(** The body of the loop, on [lines[i]] with [lineNum = i + 1]. *)
Definition check_line (lineNum : Z) (raw : str) (st : State) : Result State :=
  let trimmed := trim raw in
  let isComment :=
    startsWith (lit "//") trimmed || startsWith (lit "/*") trimmed
    || startsWith (lit "*") trimmed in
  let syn := startsWith (lit "syntax") trimmed in
  let pkg := startsWith (lit "package ") trimmed in
  let imp := startsWith (lit "import ") trimmed in
  msgMatch <- captured MESSAGE_RE trimmed ;;
  enumMatch <- captured ENUM_RE trimmed ;;
  (* enum detection *)
  let currentEnum1 :=
    match enumMatch with
    | Some name => Some (mkEnum name lineNum [])
    | None => currentEnum st
    end in
  let inEnum1 :=
    match enumMatch with Some _ => true | None => inEnum st end in
  enumPart <- enum_part lineNum trimmed inEnum1 currentEnum1 (enumBlocks st) ;;
  let '(enumIssues, enumBlocks2, currentEnum2, inEnum2) := enumPart in
  fieldMatch <- captured FIELD_RE trimmed ;;
  (* service and rpc comments *)
  let svc := startsWith (lit "service ") trimmed in
  let inService1 := if svc then true else inService st in
  let '(braceDepth2, inService2) :=
    track_braces trimmed (braceDepth st, inService1) in
  Ok (mkState
        (issues st ++ max_length_issues lineNum raw
         ++ (message_name_issues lineNum msgMatch
             ++ enum_name_issues lineNum enumMatch)
         ++ enumIssues
         ++ (field_name_issues lineNum fieldMatch inEnum2
             ++ service_issues lineNum trimmed (prevLineIsComment st)
             ++ rpc_issues lineNum trimmed inService1 (prevLineIsComment st)))
        (if syn then true else hasSyntax st)
        (if pkg then true else hasPackage st)
        (if syn then lineNum else syntaxLine st)
        (if pkg then lineNum else packageLine st)
        (if imp then
           (if (firstImportLine st =? -1)%Z then lineNum else firstImportLine st)
         else firstImportLine st)
        (if imp then lineNum else lastImportLine st)
        (if imp then
           importLines st
             ++ [mkImport lineNum trimmed
                   (startsWith (lit "import public ") trimmed)]
         else importLines st)
        isComment
        enumBlocks2 currentEnum2 braceDepth2 inService2
        (if svc then prevLineIsComment st else serviceHasComment st)
        inEnum2).

Fixpoint check_lines (lineNum : Z) (lines : list str) (st : State)
  : Result State :=
  match lines with
  | [] => Ok st
  | raw :: rest =>
      st' <- check_line lineNum raw st ;;
      check_lines (lineNum + 1) rest st'
  end.

Definition structure_issues (st : State) : list Issue :=
  (if negb (hasSyntax st) then
     [issue 1 1 "syntax-declaration"
        (lit "File should start with a syntax declaration (e.g., syntax = "
         ++ quoted (lit "proto3") ++ lit ";).") SevError]
   else [])
  ++ (if negb (hasPackage st) then
        [issue 1 1 "package-declaration" (lit "File should declare a package.")
           SevWarning]
      else [])
  ++ (if hasSyntax st && hasPackage st && (packageLine st <? syntaxLine st)%Z
      then
        [issue (packageLine st) 1 "file-structure"
           (lit "Package declaration should come after the syntax declaration.")
           SevError]
      else []).

(** Import ordering: public first. *)
Fixpoint import_issues (seenNonPublic : bool) (imports : list ImportLine)
  : list Issue :=
  match imports with
  | [] => []
  | imp :: rest =>
      let seenNonPublic := if negb (isPublic imp) then true else seenNonPublic in
      (if isPublic imp && seenNonPublic then
         [issue (i_line imp) 1 "import-ordering"
            (lit "Public imports should come before other imports.") SevWarning]
       else [])
      ++ import_issues seenNonPublic rest
  end.

(** [(a, b) => a.line - b.line || a.column - b.column], as the sign the sort
    looks at: [a] may stay before [b] when the result is not positive. *)
Definition compare_issues (a b : Issue) : Z :=
  if (line a - line b =? 0)%Z then (column a - column b)%Z
  else (line a - line b)%Z.

Definition before (a b : Issue) : bool := (compare_issues a b <=? 0)%Z.

(** [Array.prototype.sort] with a consistent comparator is a stable sort;
    the result of a stable sort is unique, here by insertion. *)
Fixpoint insert (a : Issue) (sorted : list Issue) : list Issue :=
  match sorted with
  | [] => [a]
  | b :: rest => if before a b then a :: sorted else b :: insert a rest
  end.

Definition sort (l : list Issue) : list Issue := fold_right insert [] l.

Definition has_severity (s : Severity) (i : Issue) : bool :=
  Severity_eqb (severity i) s.

(** The issues of the two passes, in the order they are pushed. *)
Definition emitted (content : str) : Result (list Issue) :=
  let lines := split_lf content in
  st <- check_lines 1 lines (init (trailing_newline_issues content lines)) ;;
  syntaxIssues <- Syntax.validateSyntax lines ;;
  Ok (issues st ++ structure_issues st ++ import_issues false (importLines st)
      ++ syntaxIssues).

Definition report (issues : list Issue) : ValidationResult :=
  let issues := sort issues in
  let errors := filter (has_severity SevError) issues in
  let warnings := filter (has_severity SevWarning) issues in
  let info := filter (has_severity SevInfo) issues in
  mkResult (Nat.eqb (length errors) 0) errors warnings info.

Definition validate (content : str) : Result ValidationResult :=
  issues <- emitted content ;;
  Ok (report issues).

End Validator.

(* ================================================================== *)
(** ** Predicates of the statements, invariants of the proofs *)
(* ================================================================== *)

(** [sets r i]: every match of [r] gives a value to group [i]. *)
Fixpoint sets (r : re) (i : nat) : bool :=
  match r with
  | Grp j a => Nat.eqb j i || sets a i
  | Seq a b => sets a i || sets b i
  | Alt a b => sets a i && sets b i
  | _ => false
  end.

Module FormatterSpec.
Import Formatter.

(** The depths the first loop records are never negative. *)
Definition depths_ok (st : State) : Prop :=
  (0 <= cur_depth st)%Z /\ Forall (fun l => 0 <= depth l)%Z (formatted st).

(** [good t]: [t] is not empty and does not end with a line feed. *)
Definition good (t : str) : Prop := exists a c, t = a ++ [c] /\ c <> lf.

Definition okt (t : str) : Prop := t = [] \/ good t.

(** The lines of the first loop: their texts are empty (a blank line of a
    block comment) or good, and the first of them is good. *)
Definition texts_ok (st : State) : Prop :=
  Forall (fun l => okt (text l)) (formatted st)
  /\ (formatted st = [] -> inBlockComment st = false)
  /\ (forall hd tl, formatted st = hd :: tl -> good (text hd)).


End FormatterSpec.

Module ValidatorSpec.
Import Validator.

(** [only rs l]: the issues of [l] have their rules in [rs]. *)
Definition only (rs : list string) (l : list Issue) : Prop :=
  Forall (fun i => In (rule i) rs) l.

Definition syntax_only : list Issue -> Prop := only ["syntax-error"%string].

(** What a step of the scanner leaves of the former state: the issues are
    extended, by syntax errors only. *)
Definition extends (st st' : Syntax.State) : Prop :=
  exists new, Syntax.issues st' = Syntax.issues st ++ new /\ syntax_only new.

Definition enum_rules : list string :=
  ["enum-value-upper-snake-case"; "enum-first-value-unspecified"]%string.

Definition name_rules : list string :=
  ["message-name-pascal-case"; "enum-name-pascal-case"]%string.

Definition late_rules : list string :=
  ["field-name-snake-case"; "service-comment"; "rpc-comment"]%string.

(** The enum variables at the entry of the enum part of the loop body. *)
Definition enum_entry (n : Z) (enumMatch : option str) (st : State)
  : bool * option EnumBlock :=
  (match enumMatch with Some _ => true | None => inEnum st end,
   match enumMatch with
   | Some name => Some (mkEnum name n [])
   | None => currentEnum st
   end).

Definition rule_is (r : string) (i : Issue) : bool := String.eqb (rule i) r.

Definition count_rule (r : string) (l : list Issue) : nat :=
  length (filter (rule_is r) l).

(** The rules the loop over the lines emits besides the length warning. *)
Definition loop_rules : list string := name_rules ++ enum_rules ++ late_rules.

Definition is_long (raw : str) : bool := (len raw >? 80)%Z.

(** The length warnings of a list of issues are at column 81. *)
Definition length_warnings_ok (l : list Issue) : Prop :=
  Forall (fun i => rule i = "max-line-length"%string ->
                   column i = 81%Z /\ severity i = SevWarning) l.

Definition final_rules : list string :=
  ["syntax-declaration"; "package-declaration"; "file-structure";
   "import-ordering"; "syntax-error"]%string.

Definition efvu : string := "enum-first-value-unspecified".





(** The order of the report: by line, then by column. *)
Definition key_le (a b : Issue) : Prop :=
  (line a < line b)%Z \/ (line a = line b /\ (column a <= column b)%Z).

Definition same_key (l c : Z) (i : Issue) : bool :=
  (line i =? l)%Z && (column i =? c)%Z.

(** The braces of a text are balanced: none closes what is not open, and
    all are closed at the end. *)
Fixpoint balanced_from (open : nat) (s : str) : bool :=
  match s with
  | [] => Nat.eqb open 0
  | c :: s' =>
      if (c =? 123)%N then balanced_from (S open) s'
      else if (c =? 125)%N then
        match open with
        | O => false
        | S open' => balanced_from open' s'
        end
      else balanced_from open s'
  end.

Definition balanced (s : str) : bool := balanced_from 0 s.

Definition is_unclosed (i : Issue) : bool :=
  rule_is "syntax-error" i && startsWith (lit "Unclosed ") (message i).

(** A message whose opening brace is on the line after its name. *)
Definition brace_on_next_line : str :=
  join_lf [lit "message Foo"; lit "{"; lit "}"; []].

Definition mentions_opening_brace (i : Issue) : bool :=
  includes (lit "missing opening brace") (message i).



End ValidatorSpec.

(* ================================================================== *)
(** ** What a regular expression matches *)
(* ================================================================== *)

(** [matches r s rest c c']: [r] matches [s] when [rest] follows it, and
    takes the groups from [c] to [c'].  An iteration of a star matches a
    string that is not empty. *)
Inductive matches : re -> str -> str -> caps -> caps -> Prop :=
| m_eps (rest : str) (c : caps) : matches Eps [] rest c c
| m_cls (p : N -> bool) (x : N) (rest : str) (c : caps) :
    p x = true -> matches (Cls p) [x] rest c c
| m_seq (a b : re) (s1 s2 rest : str) (c c1 c2 : caps) :
    matches a s1 (s2 ++ rest) c c1 -> matches b s2 rest c1 c2 ->
    matches (Seq a b) (s1 ++ s2) rest c c2
| m_alt_l (a b : re) (s rest : str) (c c' : caps) :
    matches a s rest c c' -> matches (Alt a b) s rest c c'
| m_alt_r (a b : re) (s rest : str) (c c' : caps) :
    matches b s rest c c' -> matches (Alt a b) s rest c c'
| m_star_end (a : re) (rest : str) (c : caps) : matches (Star a) [] rest c c
| m_star_more (a : re) (s1 s2 rest : str) (c c1 c2 : caps) :
    s1 <> [] -> matches a s1 (s2 ++ rest) c c1 ->
    matches (Star a) s2 rest c1 c2 ->
    matches (Star a) (s1 ++ s2) rest c c2
| m_grp (i : nat) (a : re) (s rest : str) (c c' : caps) :
    matches a s rest c c' -> matches (Grp i a) s rest c (set_cap i s c')
| m_eoi (c : caps) : matches Eoi [] [] c c.

(* ================================================================== *)
(** ** The first version of the formatter (kept beside the validator) *)
(* ================================================================== *)

Module FormatterV1.

(** [FIELD_HEAD] followed by [\s+\w+\s*=\s*\d+], anchored at the start. *)
Definition FIELD_NUM_RE : regex :=
  at_start (seqs [Formatter.FIELD_HEAD; Plus ws; Plus word; Star ws; chr "=";
                  Star ws; Plus digit]).

Record State : Type := mkState {
  result : list str;
  depth : Z;
  prevWasBlank : bool;
  inBlockComment : bool
}.

Definition init : State := mkState [] 0 false false.

(** [function indent(depth)] *)
Definition indent (depth : Z) : Result str := js_repeat (lit "  ") depth.

(** The normalisations of a line that is neither blank, nor a comment of a
    block, nor a closing brace, nor a block opener merged with its brace. *)
Definition normalize (trimmed : str) : str :=
  let formatted := trimmed in
  let formatted :=
    if test FIELD_NUM_RE trimmed then
      replace Formatter.SPACES_SEMI (fun _ => lit ";")
        (replace Formatter.EQUALS_RE (fun _ => lit " = ") trimmed)
    else formatted in
  let formatted :=
    if test Formatter.ENUMVAL_RE trimmed then
      replace Formatter.SPACES_SEMI (fun _ => lit ";")
        (replace Formatter.EQUALS_RE (fun _ => lit " = ") trimmed)
    else formatted in
  let formatted :=
    if startsWith (lit "rpc ") trimmed then
      replace Formatter.SPACES_SEMI (fun _ => lit ";")
        (replace Formatter.RETURNS_RE (fun _ => lit ") returns (")
           (replace_all Formatter.SPACES_PAREN (lit ")")
              (replace_all Formatter.PAREN_SPACES (lit "(") formatted)))
    else formatted in
  let formatted :=
    if test Validator.Syntax.STATEMENT_RE formatted then
      replace Formatter.SPACES (fun _ => lit " ") formatted
    else formatted in
  if test Formatter.BLOCK_OPENERS formatted then
    replace Formatter.SPACES_BRACE_END (fun _ => lit " {")
      (replace Formatter.BLOCK_OPENERS
         (fun m => group_or_empty m 1 ++ lit " ") formatted)
  else formatted.

(** One iteration of the loop, on [lines[i]] with the lines after it; the
    second component is the number of lines passed over by [i = nextIdx]. *)
Definition format_line (line : str) (rest : list str) (st : State)
  : Result (State * nat) :=
  let line := trimEnd line in
  let trimmed := trim line in
  if inBlockComment st then
    ind <- indent (depth st) ;;
    Ok (mkState (result st ++ [ind ++ trimmed]) (depth st) false
          (if includes (lit "*/") trimmed then false else true), O)
  else if startsWith (lit "/*") trimmed then
    ind <- indent (depth st) ;;
    Ok (mkState (result st ++ [ind ++ trimmed]) (depth st) false
          (negb (includes (lit "*/") trimmed)), O)
  else if is_empty trimmed then
    Ok (mkState
          (if negb (prevWasBlank st) && (0 <? length (result st))%nat
           then result st ++ [[]] else result st)
          (depth st) true false, O)
  else if str_eqb trimmed (lit "}") || str_eqb trimmed (lit "};") then
    let depth := Z.max 0 (depth st - 1) in
    ind <- indent depth ;;
    Ok (mkState (result st ++ [ind ++ trimmed]) depth false false, O)
  else
    let opensBlock :=
      (test Formatter.BLOCK_OPENERS trimmed && endsWith (lit "{") trimmed)
      || test Formatter.RPC_WITH_BODY trimmed in
    match
      (if test Formatter.BLOCK_OPENERS trimmed
          && negb (includes (lit "{") trimmed)
       then Formatter.brace_ahead rest else None)
    with
    | Some n =>
        ind <- indent (depth st) ;;
        Ok (mkState (result st ++ [ind ++ trimmed ++ lit " {"])
              (depth st + 1) false false, n)
    | None =>
        ind <- indent (depth st) ;;
        Ok (mkState (result st ++ [ind ++ normalize trimmed])
              (if opensBlock
                  || (endsWith (lit "{") trimmed
                      && negb (startsWith (lit "//") trimmed))
               then depth st + 1 else depth st)
              false false, O)
    end.

Fixpoint format_lines (lines : list str) (skip : nat) (st : State)
  : Result State :=
  match lines with
  | [] => Ok st
  | line :: rest =>
      match skip with
      | S skip' => format_lines rest skip' st
      | O =>
          step <- format_line line rest st ;;
          format_lines rest (snd step) (fst step)
      end
  end.

Definition format (content : str) : Result str :=
  st <- format_lines (split_lf content) 0 init ;;
  Ok (join_lf (Formatter.pop_blank (result st) ++ [[]])).

End FormatterV1.

(* ================================================================== *)
(** ** Predicates of the further properties *)
(* ================================================================== *)

Module ValidatorShape.
Import Validator ValidatorSpec.

(** The severity each rule is reported with. *)
Definition severity_of (r : string) : option Severity :=
  if String.eqb r "trailing-newline" then Some SevWarning
  else if String.eqb r "max-line-length" then Some SevWarning
  else if String.eqb r "package-declaration" then Some SevWarning
  else if String.eqb r "service-comment" then Some SevWarning
  else if String.eqb r "rpc-comment" then Some SevWarning
  else if String.eqb r "import-ordering" then Some SevWarning
  else if String.eqb r "syntax-declaration" then Some SevError
  else if String.eqb r "file-structure" then Some SevError
  else if String.eqb r "message-name-pascal-case" then Some SevError
  else if String.eqb r "enum-name-pascal-case" then Some SevError
  else if String.eqb r "enum-value-upper-snake-case" then Some SevError
  else if String.eqb r "enum-first-value-unspecified" then Some SevError
  else if String.eqb r "field-name-snake-case" then Some SevError
  else if String.eqb r "syntax-error" then Some SevError
  else None.

(** An issue of rule [r] and severity [s] at line [n], column [c]. *)
Definition shaped (n c : Z) (r : string) (s : Severity) (i : Issue) : Prop :=
  line i = n /\ column i = c /\ rule i = r /\ severity i = s.

(** An issue of a source of [N] lines: its line is one of them, its column
    is positive, its severity is the one of its rule. *)
Definition issue_ok (N : Z) (i : Issue) : Prop :=
  (1 <= line i <= N)%Z /\ (1 <= column i)%Z
  /\ severity_of (rule i) = Some (severity i).

(** A syntax error at line [n]. *)
Definition syn_at (n : Z) (i : Issue) : Prop :=
  line i = n /\ (1 <= column i)%Z /\ rule i = "syntax-error"%string
  /\ severity i = SevError.

(** The five kinds of structural context. *)
Definition kind_ok (t : str) : Prop :=
  In t [lit "message"; lit "enum"; lit "service"; lit "oneof"; lit "block"].

(** The state of the loop of [validate], for a source of [N] lines. *)
Definition style_inv (N : Z) (st : State) : Prop :=
  Forall (issue_ok N) (issues st)
  /\ (forall e, currentEnum st = Some e -> (1 <= startLine e <= N)%Z)
  /\ (hasPackage st = true -> (1 <= packageLine st <= N)%Z)
  /\ Forall (fun imp => (1 <= i_line imp <= N)%Z) (importLines st).

(** The state of the loop of [validateSyntax], for a source of [N] lines. *)
Definition context_ok (N : Z) (c : Syntax.Context) : Prop :=
  (1 <= Syntax.c_line c <= N)%Z /\ kind_ok (Syntax.c_type c).

Definition scan_inv (N : Z) (st : Syntax.State) : Prop :=
  Forall (issue_ok N) (Syntax.issues st)
  /\ Forall (fun c => (1 <= Syntax.c_line c <= N)%Z
                      /\ kind_ok (Syntax.c_type c)) (Syntax.braceStack st)
  /\ (Syntax.expectingBody st = true ->
      (1 <= Syntax.expectingLine st <= N)%Z
      /\ kind_ok (Syntax.expectingType st)).

(** [r] holds no capturing group. *)
Fixpoint no_group (r : re) : bool :=
  match r with
  | Grp _ _ => false
  | Seq a b | Alt a b => no_group a && no_group b
  | Star a => no_group a
  | _ => true
  end.

End ValidatorShape.

(** *** What the file-structure rules look at *)

Module StructureSpec.
Import Validator.

(** The line, trimmed, starts with the keyword. *)
Definition declares (kw : str) (raw : str) : bool := startsWith kw (trim raw).

(** The number of the last line that satisfies [p], the first line being
    numbered [n]; [d] when there is none. *)
Fixpoint last_line (p : str -> bool) (n : Z) (lines : list str) (d : Z) : Z :=
  match lines with
  | [] => d
  | raw :: rest => last_line p (n + 1) rest (if p raw then n else d)
  end.

(** The numbers of the public imports that come after an import that is
    not public, the first line being numbered [n]; [seen] tells that an
    import that is not public came before. *)
Fixpoint late_public (seen : bool) (n : Z) (lines : list str) : list Z :=
  match lines with
  | [] => []
  | raw :: rest =>
      if declares (lit "import ") raw then
        if declares (lit "import public ") raw then
          (if seen then [n] else []) ++ late_public seen (n + 1) rest
        else late_public true (n + 1) rest
      else late_public seen (n + 1) rest
  end.

(** The import lines [validate] collects. *)
Fixpoint imports_of (n : Z) (lines : list str) : list ImportLine :=
  match lines with
  | [] => []
  | raw :: rest =>
      (if declares (lit "import ") raw then
         [mkImport n (trim raw) (declares (lit "import public ") raw)]
       else [])
      ++ imports_of (n + 1) rest
  end.

Definition syntax_declaration_issue : Issue :=
  issue 1 1 "syntax-declaration"
    (lit "File should start with a syntax declaration (e.g., syntax = "
     ++ quoted (lit "proto3") ++ lit ";).") SevError.

Definition package_declaration_issue : Issue :=
  issue 1 1 "package-declaration" (lit "File should declare a package.")
    SevWarning.

Definition file_structure_issue (ln : Z) : Issue :=
  issue ln 1 "file-structure"
    (lit "Package declaration should come after the syntax declaration.")
    SevError.

Definition import_ordering_issue (ln : Z) : Issue :=
  issue ln 1 "import-ordering"
    (lit "Public imports should come before other imports.") SevWarning.

(** [isComment] of the loop of [validate]. *)
Definition is_comment_line (raw : str) : bool :=
  startsWith (lit "//") (trim raw) || startsWith (lit "/*") (trim raw)
  || startsWith (lit "*") (trim raw).

(** The numbers of the lines that start with [service ] and do not come
    right after a comment line, the first line being numbered [n]; [prev]
    tells that the line before the first is a comment line. *)
Fixpoint bare_services (prev : bool) (n : Z) (lines : list str) : list Z :=
  match lines with
  | [] => []
  | raw :: rest =>
      (if declares (lit "service ") raw && negb prev then [n] else [])
      ++ bare_services (is_comment_line raw) (n + 1) rest
  end.

Definition service_comment_issue (ln : Z) : Issue :=
  issue ln 1 "service-comment" (lit "Service should have a comment.")
    SevWarning.

(** The rules that look at the whole file. *)
Definition whole_file_rules : list string :=
  ["syntax-declaration"; "package-declaration"; "file-structure";
   "import-ordering"]%string.

End StructureSpec.

(** *** A text without its white space *)

Definition squeeze (s : str) : str := filter (fun c => negb (is_ws c)) s.



(** *** The depths of consecutive lines *)

Module FormatterShape.
Import Formatter.

(** From a line to the next: the depth moves by one level at most, it grows
    only after a line that ends with an opening brace, and it falls only at
    a line that is a closing brace. *)
Definition step_ok (p c : Line) : Prop :=
  (depth p - 1 <= depth c <= depth p + 1)%Z
  /\ ((depth p < depth c)%Z -> endsWith (lit "{") (text p) = true)
  /\ ((depth c < depth p)%Z -> text c = lit "}" \/ text c = lit "};").

Fixpoint steps_from (p : Line) (ls : list Line) : Prop :=
  match ls with
  | [] => True
  | c :: rest => step_ok p c /\ steps_from c rest
  end.

Definition steps_ok (ls : list Line) : Prop :=
  match ls with
  | [] => True
  | hd :: tl => depth hd = 0%Z /\ steps_from hd tl
  end.

(** The depth of the loop follows the last line. *)
Definition follows (cur : Z) (p : Line) : Prop :=
  cur = depth p
  \/ (cur = (depth p + 1)%Z /\ endsWith (lit "{") (text p) = true).

Definition depth_inv (st : State) : Prop :=
  (0 <= cur_depth st)%Z
  /\ Forall (fun l => 0 <= depth l)%Z (formatted st)
  /\ match formatted st with
     | [] => cur_depth st = 0%Z
     | hd :: tl =>
         depth hd = 0%Z /\ steps_from hd tl
         /\ follows (cur_depth st) (last tl hd)
     end.

End FormatterShape.

(** *** Lines that agree up to the white space around them *)

Definition same_trimmed (a b : list str) : Prop := map trim a = map trim b.

(** The lines, trimmed, the blank ones left out. *)
Definition solid (lines : list str) : list str :=
  filter (fun t => negb (is_empty t)) (map trim lines).

(** No line starts a block comment. *)
Definition no_block_comment (lines : list str) : bool :=
  forallb (fun raw => negb (startsWith (lit "/*") (trim raw))) lines.

(** What the pre-processing makes of a trimmed line, blank lines left out. *)
Definition solid_pieces (t : str) : list str :=
  match Formatter.presplit_line t with
  | Ok ls => solid ls
  | Throw _ => []
  end.

(** *** The loop of a star, and the names the three patterns accept *)

(** The loop of [mt] on a star, with the matcher of the starred expression
    as a parameter. *)
Definition star_loop (R : Type)
    (step : str -> caps -> (str -> caps -> option R) -> option R)
    (k : str -> caps -> option R) : nat -> str -> caps -> option R :=
  fix loop (n : nat) (s : str) (c : caps) {struct n} : option R :=
    match n with
    | O => k s c
    | S n' =>
        match step s c (fun s' c' =>
                if (length s' <? length s)%nat then loop n' s' c'
                else None) with
        | Some x => Some x
        | None => k s c
        end
    end.

(** A continuation that succeeds wherever another one does. *)
Definition above (R : Type) (k1 k2 : str -> caps -> option R) : Prop :=
  forall s c, k1 s c <> None -> k2 s c <> None.

(** A star of a class with the continuation [k]: the longest run first,
    then the shorter ones. *)
Fixpoint greedy (R : Type) (p : N -> bool) (k : str -> caps -> option R)
    (s : str) (c : caps) : option R :=
  match s with
  | x :: s' =>
      if p x then
        match greedy p k s' c with
        | Some v => Some v
        | None => k s c
        end
      else k s c
  | [] => k s c
  end.

Fixpoint takeWhile (p : N -> bool) (s : str) : str :=
  match s with
  | x :: s' => if p x then x :: takeWhile p s' else []
  | [] => []
  end.

Module NameSpec.

(** The name after a keyword at the head of a line: the keyword, white
    space, then the longest run of word characters, which is not empty. *)
Definition name_after (kw : str) (t : str) : option str :=
  if startsWith kw t then
    match skipn (length kw) t with
    | x :: r =>
        if is_ws x then
          match takeWhile is_word (dropWhile is_ws r) with
          | [] => None
          | name => Some name
          end
        else None
    | [] => None
    end
  else None.

Definition is_alnum (c : N) : bool := is_upper c || is_lower c || is_digit c.

(** An upper-case letter, then letters and digits. *)
Definition is_pascal (s : str) : bool :=
  match s with
  | c :: r => is_upper c && forallb is_alnum r
  | [] => false
  end.

Definition underscore : N := 95%N.

(** Characters of the class [p] and underscores, each underscore being
    followed by a character of the class. *)
Fixpoint segments (p : N -> bool) (s : str) : bool :=
  match s with
  | [] => true
  | x :: s' =>
      if (x =? underscore)%N then
        match s' with
        | y :: _ => p y && segments p s'
        | [] => false
        end
      else p x && segments p s'
  end.

(** A lower-case letter, then lower-case letters, digits and single
    underscores, the last character being no underscore. *)
Definition is_snake (s : str) : bool :=
  match s with
  | c :: r => is_lower c && segments (fun c => is_lower c || is_digit c) r
  | [] => false
  end.

(** The same with upper-case letters. *)
Definition is_upper_snake (s : str) : bool :=
  match s with
  | c :: r => is_upper c && segments (fun c => is_upper c || is_digit c) r
  | [] => false
  end.

(** The errors of a rule on the names of a kind of type, the first line
    being numbered [n]. *)
Fixpoint name_errors (kw rule label : string) (n : Z) (lines : list str)
  : list Validator.Issue :=
  match lines with
  | [] => []
  | raw :: rest =>
      match name_after (lit kw) (trim raw) with
      | Some name =>
          if is_pascal name then []
          else [Validator.issue n 1 rule
                  (lit label ++ Validator.quoted name
                   ++ lit " should be PascalCase.") Validator.SevError]
      | None => []
      end
      ++ name_errors kw rule label (n + 1) rest
  end.

(** An error on the name of a field or of an enum value quotes a name
    that the pattern of its rule does not accept. *)
Definition justified (i : Validator.Issue) : Prop :=
  (Validator.rule i = "field-name-snake-case"%string ->
   exists name,
     Validator.message i
     = lit "Field name " ++ Validator.quoted name ++ lit " should be snake_case."
     /\ is_snake name = false)
  /\ (Validator.rule i = "enum-value-upper-snake-case"%string ->
      exists name,
        Validator.message i
        = lit "Enum value " ++ Validator.quoted name
          ++ lit " should be UPPER_SNAKE_CASE."
        /\ is_upper_snake name = false).

End NameSpec.

(** *** The lines the scanner of [validateSyntax] looks at *)

Module ScanSpec.
Import Validator.

(** [code] of the loop: the trimmed line without its inline comment. *)
Definition code_of (raw : str) : str :=
  trim (replace Syntax.INLINE_COMMENT (fun _ => []) (trim raw)).

(** The lines the loop passes over: blank lines, comment lines, and lines
    that hold an inline comment only. *)
Definition passed_over (raw : str) : bool :=
  is_empty (trim raw) || startsWith (lit "//") (trim raw)
  || startsWith (lit "/*") (trim raw) || startsWith (lit "*") (trim raw)
  || is_empty (code_of raw).

(** The type and the name of the block a line of code opens. *)
Definition header (code : str) : option (str * str) :=
  match exec Syntax.BLOCK_RE code with
  | Some bm =>
      match group bm 1 with
      | Ok type => Some (type, group_or_empty bm 2)
      | Throw _ => None
      end
  | None => None
  end.

(** The error of a block without its opening brace. *)
Definition missing_brace_issue (ln : Z) (type name : str) : Issue :=
  Syntax.syntax_error ln 1
    (type ++ lit " " ++ quoted name ++ lit " is missing opening brace "
     ++ quoted (lit "{")).

End ScanSpec.

(** *** Lines without line feed, and blank lines that follow one another *)

Definition nolf (s : str) : Prop := Forall (fun c => c <> lf) s.

(** No line of [l] is blank right after [p], if [p] is blank, nor right
    after a blank line of [l]. *)
Fixpoint blank_chain (p : str) (l : list str) : Prop :=
  match l with
  | [] => True
  | x :: r => (p = [] -> x <> []) /\ blank_chain x r
  end.

(** No two blank lines follow one another. *)
Definition no_two_blank (l : list str) : Prop :=
  match l with
  | [] => True
  | hd :: tl => blank_chain hd tl
  end.

(** The invariant of the loop of the first version of the formatter, on a
    text no line of which starts a block comment. *)
Definition collapse_inv (st : FormatterV1.State) : Prop :=
  FormatterV1.inBlockComment st = false
  /\ Forall nolf (FormatterV1.result st)
  /\ match FormatterV1.result st with
     | [] => True
     | hd :: tl =>
         hd <> [] /\ blank_chain hd tl
         /\ (last tl hd = [] -> FormatterV1.prevWasBlank st = true)
     end.

(** The lines of the first loop of the formatter, on a text no line of
    which starts a block comment: no text is empty, none holds a line
    feed. *)
Definition plain_line (l : Formatter.Line) : Prop :=
  nolf (Formatter.text l) /\ squeeze (Formatter.text l) <> [].

Definition plain_inv (st : Formatter.State) : Prop :=
  Formatter.inBlockComment st = false
  /\ Forall plain_line (Formatter.formatted st).

(** *** Texts of the examples *)

Module Samples.

(** A message, its lines flush left; the same with white space around the
    lines. *)
Definition flush_message : str :=
  join_lf [lit "message A {"; lit "int32 x=1;"; lit "}"].
Definition ragged_message : str :=
  join_lf [lit "  message A {  "; lit "      int32 x=1;"; lit "}  "].

(** A message with blank lines in two places. *)
Definition airy_message : str :=
  join_lf [lit "message A {"; []; []; lit "int32 x = 1;"; lit "}"].
Definition dense_message : str :=
  join_lf [lit "message A {"; lit "  int32 x = 1;"; []; lit "}"; []].

(** A text with runs of blank lines, and a brace to split off. *)
Definition blank_runs : str :=
  join_lf [[]; lit "syntax = 3;"; []; []; lit "message A {"; []; [];
           lit "int32 x = 1; }"].

(** A message without its opening brace, followed by a field. *)
Definition headless_message : str :=
  join_lf [lit "message Foo"; []; lit "int32 a = 1;"; []].

(** A closing brace before any block, then a nested message that closes
    once. *)
Definition stray_braces : str :=
  join_lf [lit "}"; lit "message A {"; lit "  message B { // inner";
           lit "}"; []].

End Samples.

(* ================================================================== *)
(** ** The two routes ([app/api/validate/route.ts], [app/api/format/route.ts]) *)
(* ================================================================== *)

Module Routes.














End Routes.

(** *** The braces the scanner counts *)

Module BraceSpec.
Import Validator ValidatorSpec ScanSpec.

(** The lines of code the loop of [validateSyntax] looks at. *)
Definition scanned (lines : list str) : list str :=
  map code_of (filter (fun raw => negb (passed_over raw)) lines).

(** The number of occurrences of a character in these lines. *)
Definition braces (c : N) (codes : list str) : nat :=
  list_sum (map (count_char c) codes).

(** A line that opens a block holds the opening brace. *)
Definition opener_has_brace (raw : str) : bool :=
  passed_over raw
  || match header (code_of raw) with
     | Some _ => includes (lit "{") (code_of raw)
     | None => true
     end.

Definition is_unexpected_close (i : Issue) : bool :=
  rule_is "syntax-error" i
  && startsWith (lit "Unexpected closing brace") (message i).

Definition count_if (f : Issue -> bool) (l : list Issue) : nat :=
  length (filter f l).

(** Issues that report neither a closing brace nor an open block. *)
Definition quiet (l : list Issue) : Prop :=
  Forall (fun i => is_unexpected_close i = false /\ is_unclosed i = false) l.

(** The invariant of the scan when every opener holds its brace: [o]
    opening and [c] closing braces were counted. *)
Definition brace_inv (o c : nat) (st : Syntax.State) : Prop :=
  Syntax.expectingBody st = false
  /\ count_if is_unclosed (Syntax.issues st) = 0%nat
  /\ (length (Syntax.braceStack st) + c
      = o + count_if is_unexpected_close (Syntax.issues st))%nat.

End BraceSpec.

(* ================================================================== *)
(** ** Groups of a successful match *)
(* ================================================================== *)

Section Groups.

Lemma set_cap_defined (i j : nat) (v : str) (c : caps) :
  i = j \/ c j <> None -> set_cap i v c j <> None.
Proof.
  unfold set_cap. intros H. destruct (Nat.eqb_spec i j); [discriminate|].
  destruct H; [contradiction | assumption].
Qed.

Lemma mt_sets (R : Type) (r : re) :
  forall (s : str) (c : caps) (k : str -> caps -> option R) (x : R),
    mt r s c k = Some x ->
    exists s' c', k s' c' = Some x /\
      forall i, sets r i = true \/ c i <> None -> c' i <> None.
Proof.
  induction r as [ | p | a IHa b IHb | a IHa b IHb | a IHa | j a IHa | ];
    intros s c k x H; simpl in H.
  - exists s, c. split; [assumption|]. intros i [Hi|Hi]; [discriminate|assumption].
  - destruct s as [|y s']; [discriminate|]. destruct (p y); [|discriminate].
    exists s', c. split; [assumption|]. intros i [Hi|Hi]; [discriminate|assumption].
  - apply IHa in H. destruct H as (s1 & c1 & H & H1).
    apply IHb in H. destruct H as (s2 & c2 & H & H2).
    exists s2, c2. split; [assumption|]. intros i Hi. apply H2.
    simpl in Hi. destruct (sets b i); [left; reflexivity|]. right. apply H1.
    rewrite orb_false_r in Hi. assumption.
  - destruct (mt a s c k) eqn:E.
    + injection H as ->. apply IHa in E. destruct E as (s1 & c1 & E & H1).
      exists s1, c1. split; [assumption|]. intros i Hi. apply H1.
      simpl in Hi. destruct Hi as [Hi|Hi]; [|right; assumption].
      apply andb_prop in Hi. left. apply Hi.
    + apply IHb in H. destruct H as (s1 & c1 & H & H1).
      exists s1, c1. split; [assumption|]. intros i Hi. apply H1.
      simpl in Hi. destruct Hi as [Hi|Hi]; [|right; assumption].
      apply andb_prop in Hi. left. apply Hi.
  - remember (length s) as n eqn:Hn. clear Hn. revert s c H.
    induction n as [|n IHn]; intros s c H.
    + exists s, c. split; [assumption|]. intros i [Hi|Hi]; [discriminate|assumption].
    + match type of H with
      | match ?m with _ => _ end = _ => destruct m eqn:E
      end.
      * injection H as ->. apply IHa in E. destruct E as (s1 & c1 & E & H1).
        destruct (length s1 <? length s)%nat; [|discriminate].
        apply IHn in E. destruct E as (s2 & c2 & E & H2).
        exists s2, c2. split; [assumption|]. intros i [Hi|Hi]; [discriminate|].
        apply H2. right. apply H1. right. assumption.
      * exists s, c. split; [assumption|].
        intros i [Hi|Hi]; [discriminate|assumption].
  - apply IHa in H. destruct H as (s1 & c1 & H & H1).
    eexists s1, _. split; [exact H|]. intros i Hi. apply set_cap_defined.
    simpl in Hi. destruct (Nat.eqb_spec j i) as [->|Hne]; [left; reflexivity|].
    right. apply H1. simpl in Hi. exact Hi.
  - destruct s; [|discriminate].
    exists [], c. split; [assumption|]. intros i [Hi|Hi]; [discriminate|assumption].
Qed.

Lemma match_here_sets (r : re) (s : str) (n : nat) (c : caps) (i : nat) :
  match_here r s = Some (n, c) -> sets r i = true -> c i <> None.
Proof.
  unfold match_here. intros H Hi. apply mt_sets in H.
  destruct H as (s' & c' & H & H1). injection H as _ <-. apply H1. left. exact Hi.
Qed.

Lemma search_from_sets (r : re) (i : nat) :
  sets r i = true ->
  forall (s : str) (j : nat) (m : Match),
    search_from r j s = Some m -> m_caps m i <> None.
Proof.
  intros Hi s. induction s as [|x s IH]; intros j m H; simpl in H.
  - destruct (match_here r []) as [[n c]|] eqn:E; [|discriminate].
    injection H as <-. simpl. eapply match_here_sets; eassumption.
  - destruct (match_here r (x :: s)) as [[n c]|] eqn:E.
    + injection H as <-. simpl. eapply match_here_sets; eassumption.
    + eapply IH; eassumption.
Qed.

Lemma exec_sets (rx : regex) (s : str) (m : Match) (i : nat) :
  exec rx s = Some m -> sets (body rx) i = true -> m_caps m i <> None.
Proof.
  unfold exec. intros H Hi. destruct (anchored rx).
  - destruct (match_here (body rx) s) as [[n c]|] eqn:E; [|discriminate].
    injection H as <-. simpl. eapply match_here_sets; eassumption.
  - eapply search_from_sets; eassumption.
Qed.

(** Reading a group that every match sets never raises. *)
Lemma group_ok (rx : regex) (s : str) (m : Match) (i : nat) :
  exec rx s = Some m -> sets (body rx) i = true ->
  exists v, group m i = Ok v.
Proof.
  intros H Hi. unfold group. pose proof (exec_sets _ _ i H Hi) as Hc.
  destruct (m_caps m i) as [v|]; [exists v; reflexivity | contradiction].
Qed.

End Groups.

(* ================================================================== *)
(** ** The formatter raises no exception *)
(* ================================================================== *)

Module FormatterFacts.
Import Formatter FormatterSpec.

Lemma presplit_line_ok (raw : str) : exists ls, presplit_line raw = Ok ls.
Proof.
  unfold presplit_line.
  destruct (exec SPLIT_RE (trim raw)) as [m|] eqn:E; [|eexists; reflexivity].
  destruct (negb (startsWith (lit "//") (trim raw))); [|eexists; reflexivity].
  destruct (group_ok SPLIT_RE (trim raw) 1 E eq_refl) as [g1 H1].
  destruct (group_ok SPLIT_RE (trim raw) 2 E eq_refl) as [g2 H2].
  rewrite H1, H2. simpl. eexists; reflexivity.
Qed.

Lemma presplit_ok (rawLines : list str) : exists ls, presplit rawLines = Ok ls.
Proof.
  induction rawLines as [|raw rest [more IH]]; simpl.
  - eexists; reflexivity.
  - destruct (presplit_line_ok raw) as [here H]. rewrite H, IH. simpl.
    eexists; reflexivity.
Qed.

Lemma first_pass_line_depths (line : str) (rest : list str) (st : State) :
  depths_ok st -> depths_ok (fst (first_pass_line line rest st)).
Proof.
  intros [Hd Hf]. unfold first_pass_line.
  assert (Hpush : forall t d ty, (0 <= d)%Z ->
            Forall (fun l => 0 <= depth l)%Z (formatted st ++ [mkLine t d ty])).
  { intros t d ty H. apply Forall_app. split; [assumption|].
    constructor; [exact H | constructor]. }
  destruct (inBlockComment st).
  { split; simpl; [assumption | apply Hpush; assumption]. }
  destruct (startsWith (lit "/*") (trim (trimEnd line))).
  { split; simpl; [assumption | apply Hpush; assumption]. }
  destruct (is_empty (trim (trimEnd line))).
  { split; assumption. }
  destruct (str_eqb _ (lit "}") || str_eqb _ (lit "};")).
  { split; simpl; [lia | apply Hpush; lia]. }
  destruct (classify (trim (trimEnd line))) as [text ty].
  match goal with
  | |- context [let '(_, _) := ?p in _] => destruct p as [text' skip]
  end.
  split; simpl; [|apply Hpush; assumption].
  match goal with |- context [if ?b then _ else _] => destruct b end; lia.
Qed.

Lemma first_pass_depths (lines : list str) :
  forall (skip : nat) (st : State),
    depths_ok st -> depths_ok (first_pass lines skip st).
Proof.
  induction lines as [|line rest IH]; intros skip st H; simpl; [assumption|].
  destruct skip as [|skip']; [|apply IH; assumption].
  pose proof (first_pass_line_depths line rest H) as H'.
  destruct (first_pass_line line rest st) as [st' skip']. apply IH. exact H'.
Qed.

Lemma init_depths : depths_ok init.
Proof. split; simpl; [lia | constructor]. Qed.

Lemma indent_ok (d : Z) : (0 <= d)%Z -> exists s, indent d = Ok s.
Proof.
  intros H. unfold indent, js_repeat.
  destruct (Z.ltb_spec d 0); [lia | eexists; reflexivity].
Qed.

Lemma second_pass_ok (lines : list Line) :
  Forall (fun l => 0 <= depth l)%Z lines ->
  forall prev, exists result, second_pass prev lines = Ok result.
Proof.
  induction 1 as [|curr rest Hc Hr IH]; intros prev; simpl.
  - eexists; reflexivity.
  - destruct (indent_ok Hc) as [ind Hi]. rewrite Hi. simpl.
    destruct (IH (Some curr)) as [more Hm]. rewrite Hm. simpl.
    eexists; reflexivity.
Qed.

Lemma lines_of_ok (content : str) :
  exists ls, lines_of content = Ok ls /\ Forall (fun l => 0 <= depth l)%Z ls.
Proof.
  unfold lines_of. destruct (presplit_ok (split_lf content)) as [lines H].
  rewrite H. simpl. eexists. split; [reflexivity|].
  apply (first_pass_depths lines 0 init_depths).
Qed.

Lemma format_ok (content : str) : exists out, format content = Ok out.
Proof.
  unfold format. destruct (lines_of_ok content) as (ls & H & Hd).
  rewrite H. simpl. destruct (second_pass_ok Hd None) as [result Hr].
  rewrite Hr. simpl. eexists; reflexivity.
Qed.

(** *** The last character of the formatted lines *)

Lemma good_nonempty (t : str) : good t -> t <> [].
Proof. intros (a & c & -> & _) E. destruct a; discriminate. Qed.

Lemma good_app_r (x y : str) : good y -> good (x ++ y).
Proof.
  intros (a & c & -> & Hc). exists (x ++ a), c. rewrite app_assoc. auto.
Qed.

Lemma good_app_okt (x y : str) : good x -> okt y -> good (x ++ y).
Proof.
  intros Hx [->|Hy]; [rewrite app_nil_r; exact Hx | apply good_app_r, Hy].
Qed.

Lemma good_suffix (p q : str) : good (p ++ q) -> q <> [] -> good q.
Proof.
  intros (a & c & E & Hc) Hq.
  destruct (exists_last Hq) as (q' & d & ->).
  rewrite app_assoc in E. apply app_inj_tail in E. destruct E as [_ <-].
  exists q', d. auto.
Qed.

Lemma okt_skipn (n : nat) (s : str) : okt s -> okt (skipn n s).
Proof.
  intros [->|H]; [left; apply skipn_nil|].
  destruct (skipn n s) as [|x r] eqn:E; [left; reflexivity|]. right.
  rewrite <- E. apply good_suffix with (p := firstn n s).
  - rewrite firstn_skipn. exact H.
  - rewrite E. discriminate.
Qed.

Lemma dropWhile_suffix (f : N -> bool) (s : str) :
  exists p, s = p ++ dropWhile f s.
Proof.
  induction s as [|c s [p IH]]; [exists []; reflexivity|]. simpl.
  destruct (f c); [exists (c :: p); simpl; f_equal; exact IH | exists []; reflexivity].
Qed.

Lemma dropWhile_head (f : N -> bool) (s : str) (c : N) (r : str) :
  dropWhile f s = c :: r -> f c = false.
Proof.
  induction s as [|x s IH]; simpl; [discriminate|].
  destruct (f x) eqn:E; [exact IH|]. intros H. injection H as <- _. exact E.
Qed.

Lemma trimEnd_last (s a : str) (c : N) :
  trimEnd s = a ++ [c] -> is_ws c = false.
Proof.
  unfold trimEnd. intros H. apply (f_equal (@rev N)) in H.
  rewrite rev_involutive, rev_app_distr in H. simpl in H.
  eapply dropWhile_head. exact H.
Qed.

(** What [trim] leaves, if anything, ends with no white space. *)
Lemma trim_good (s : str) : is_empty (trim s) = false -> good (trim s).
Proof.
  unfold trim, trimStart. intros H.
  destruct (dropWhile_suffix is_ws (trimEnd s)) as (p & E).
  assert (Hn : dropWhile is_ws (trimEnd s) <> []).
  { intros E0. rewrite E0 in H. discriminate. }
  destruct (exists_last Hn) as (a & c & Ha). rewrite Ha in *.
  exists a, c. split; [reflexivity|]. rewrite app_assoc in E.
  apply trimEnd_last in E. intros ->. discriminate.
Qed.

Lemma trim_empty_trimEnd (s : str) : trim s = [] -> trimEnd s = [].
Proof.
  unfold trim, trimStart. intros H.
  destruct (trimEnd s) as [|x r] eqn:E; [reflexivity|]. exfalso.
  assert (Hn : x :: r <> []) by discriminate.
  destruct (exists_last Hn) as (a & c & Ha). rewrite Ha in *.
  pose proof (@trimEnd_last _ _ _ E) as Hc.
  clear E Ha Hn. induction a as [|y a IH]; simpl in H.
  - rewrite Hc in H. discriminate.
  - destruct (is_ws y); [apply IH, H | discriminate].
Qed.

(** [replace] keeps a good string good when what it writes is good. *)
Lemma replace_good (rx : regex) (rep : Match -> str) (s : str) :
  good s -> (forall m, good (rep m)) -> good (replace rx rep s).
Proof.
  intros Hs Hr. unfold replace. destruct (exec rx s) as [m|]; [|exact Hs].
  apply good_app_r, good_app_okt; [apply Hr|].
  apply okt_skipn. right. exact Hs.
Qed.

Lemma replace_all_from_nil (r : re) (rep : str) (fuel : nat) (s : str) :
  rep <> [] -> replace_all_from r rep fuel s = [] -> s = [].
Proof.
  intros Hr. destruct fuel as [|fuel]; simpl; [auto|].
  destruct (search_from r 0 s) as [m|]; [|auto].
  destruct (m_index m <? m_end m)%nat.
  - intros H. apply app_eq_nil in H. destruct H as [_ H].
    apply app_eq_nil in H. destruct H as [H _]. contradiction.
  - destruct (skipn (m_index m) s); intros H; apply app_eq_nil in H;
      destruct H as [_ H]; [contradiction|].
    apply app_eq_nil in H. destruct H as [H _]. contradiction.
Qed.

Lemma replace_all_from_okt (r : re) (rep : str) :
  good rep ->
  forall (fuel : nat) (s : str), okt s -> okt (replace_all_from r rep fuel s).
Proof.
  intros Hr fuel. induction fuel as [|fuel IH]; intros s Hs; simpl; [exact Hs|].
  destruct (search_from r 0 s) as [m|]; [|exact Hs].
  destruct (m_index m <? m_end m)%nat.
  - right. apply good_app_r, good_app_okt; [exact Hr|].
    apply IH, okt_skipn, Hs.
  - pose proof (okt_skipn (m_index m) Hs) as Hk.
    destruct (skipn (m_index m) s) as [|x s'] eqn:E.
    + right. apply good_app_r. exact Hr.
    + right. apply good_app_r, good_app_r.
      destruct Hk as [Hk|Hk]; [discriminate|].
      assert (Hs' : okt s').
      { destruct s' as [|y s'']; [left; reflexivity|]. right.
        apply good_suffix with (p := [x]); [exact Hk | discriminate]. }
      destruct (IH s' Hs') as [E0|Hg].
      * rewrite E0. apply replace_all_from_nil in E0;
          [|apply good_nonempty, Hr]. subst s'. exact Hk.
      * change (x :: replace_all_from r rep fuel s')
          with ([x] ++ replace_all_from r rep fuel s').
        apply good_app_r, Hg.
Qed.

Lemma replace_all_good (r : re) (rep : str) (s : str) :
  good rep -> good s -> good (replace_all r rep s).
Proof.
  intros Hr Hs. unfold replace_all.
  destruct (replace_all_from_okt r Hr (S (length s)) (or_intror Hs)) as [E|H];
    [|exact H].
  apply replace_all_from_nil in E; [|apply good_nonempty, Hr].
  subst s. destruct (good_nonempty Hs eq_refl).
Qed.

Lemma good_lit (s : string) (a : str) (c : N) :
  lit s = a ++ [c] -> c <> lf -> good (lit s).
Proof. intros E Hc. exists a, c. auto. Qed.

Ltac good_literal :=
  match goal with
  | |- good (?x ++ lit ?s) => apply good_app_r; good_literal
  | |- good (lit ?s) =>
      let l := eval vm_compute in (lit s) in
      let a := eval vm_compute in (removelast l) in
      let c := eval vm_compute in (last l 0%N) in
      apply (@good_lit s a c); [reflexivity | discriminate]
  end.

Lemma classify_good (trimmed : str) :
  good trimmed -> good (fst (classify trimmed)).
Proof.
  intros H. unfold classify.
  repeat match goal with
         | |- context [if ?b then (_, _) else _] => destruct b
         end; cbn [fst]; try exact H;
    repeat first
      [ apply replace_good; [|intros m; unfold sp; good_literal]
      | apply replace_all_good; [good_literal|]
      | exact H ].
Qed.

Lemma push_texts_ok (st : State) (l : Line) (d : Z) (b : bool) :
  texts_ok st -> okt (text l) ->
  (inBlockComment st = false -> good (text l)) ->
  texts_ok (mkState (formatted st ++ [l]) d b).
Proof.
  intros (Hf & Hb & Hh) Hl Hg. split; [|split]; cbn [formatted inBlockComment].
  - apply Forall_app. split; [exact Hf | constructor; [exact Hl | constructor]].
  - intros E. apply app_eq_nil in E. destruct E as [_ E]. discriminate.
  - intros hd tl E. destruct (formatted st) as [|x r] eqn:F.
    + simpl in E. injection E as <- _. apply Hg, Hb. reflexivity.
    + simpl in E. injection E as <- _. eapply Hh. reflexivity.
Qed.

Lemma startsWith_nonempty (p t : str) :
  p <> [] -> startsWith p t = true -> is_empty t = false.
Proof. destruct p, t; simpl; (contradiction || discriminate || reflexivity). Qed.

Lemma okt_trim (s : str) : okt (trim s).
Proof.
  destruct (is_empty (trim s)) eqn:E; [|right; apply trim_good, E].
  left. destruct (trim s); [reflexivity | discriminate].
Qed.

Lemma first_pass_line_texts (line : str) (rest : list str) (st : State) :
  texts_ok st -> texts_ok (fst (first_pass_line line rest st)).
Proof.
  intros H. unfold first_pass_line.
  destruct (inBlockComment st) eqn:B.
  { cbn [fst]. apply push_texts_ok; [exact H | apply okt_trim|].
    intros E. rewrite B in E. discriminate. }
  destruct (startsWith (lit "/*") (trim (trimEnd line))) eqn:C.
  { cbn [fst].
    assert (G : good (trim (trimEnd line))).
    { apply trim_good. eapply startsWith_nonempty; [|exact C]. discriminate. }
    apply push_texts_ok; [exact H | right; exact G | intros _; exact G]. }
  destruct (is_empty (trim (trimEnd line))) eqn:E; [exact H|].
  pose proof (trim_good _ E) as G.
  destruct (str_eqb _ (lit "}") || str_eqb _ (lit "};")).
  { cbn [fst]. apply push_texts_ok;
      [exact H | right; exact G | intros _; exact G]. }
  pose proof (classify_good G) as Gc.
  destruct (classify (trim (trimEnd line))) as [text ty]. cbn [fst] in Gc.
  assert (Gm : good (fst (if test BLOCK_OPENERS text
                               && negb (includes (lit "{") text)
                            then match brace_ahead rest with
                                 | Some n => (text ++ lit " {", n)
                                 | None => (text, 0%nat)
                                 end
                            else (text, 0%nat)))).
  { destruct (test BLOCK_OPENERS text && negb (includes (lit "{") text));
      [|exact Gc].
    destruct (brace_ahead rest); [|exact Gc]. cbn [fst]. good_literal. }
  match goal with
  | |- context [let '(_, _) := ?p in _] => destruct p as [text' skip]
  end.
  cbn [fst] in *. apply push_texts_ok;
    [exact H | right; exact Gm | intros _; exact Gm].
Qed.

Lemma first_pass_texts (lines : list str) :
  forall (skip : nat) (st : State),
    texts_ok st -> texts_ok (first_pass lines skip st).
Proof.
  induction lines as [|line rest IH]; intros skip st H; simpl; [assumption|].
  destruct skip as [|skip']; [|apply IH; assumption].
  pose proof (first_pass_line_texts line rest H) as H'.
  destruct (first_pass_line line rest st) as [st' skip']. apply IH. exact H'.
Qed.

Lemma init_texts : texts_ok init.
Proof.
  split; [constructor|]. split; [reflexivity|]. intros hd tl E. discriminate.
Qed.

Lemma indent_okt (d : Z) (ind : str) : indent d = Ok ind -> okt ind.
Proof.
  unfold indent, js_repeat. destruct (d <? 0)%Z; [discriminate|].
  intros H. injection H as <-.
  induction (Z.to_nat d) as [|n IH]; [left; reflexivity|]. right.
  cbn [repeat concat]. apply good_app_okt; [good_literal | exact IH].
Qed.

Lemma okt_app (x y : str) : okt x -> okt y -> okt (x ++ y).
Proof.
  intros Hx [->|Hy]; [rewrite app_nil_r; exact Hx | right; apply good_app_r, Hy].
Qed.

Lemma second_pass_texts (lines : list Line) :
  Forall (fun l => okt (text l)) lines ->
  forall prev result,
    second_pass prev lines = Ok result ->
    Forall okt result
    /\ (prev = None ->
        forall hd tl, lines = hd :: tl -> good (text hd) ->
                      exists x more, result = x :: more /\ good x).
Proof.
  induction 1 as [|curr rest Hc Hr IH]; intros prev result H; simpl in H.
  - injection H as <-. split; [constructor|]. intros _ hd tl E. discriminate.
  - destruct (indent (depth curr)) as [ind|err] eqn:Ei; cbn [bind] in H;
      [|discriminate].
    destruct (second_pass (Some curr) rest) as [more|err] eqn:Em;
      cbn [bind] in H; [|discriminate].
    injection H as <-. destruct (IH _ _ Em) as [Hm _].
    pose proof (indent_okt _ Ei) as Hi. split.
    + apply Forall_app. split.
      * destruct prev as [p|]; [|constructor].
        destruct (shouldInsertBlankLine p curr); constructor;
          [left; reflexivity | constructor].
      * constructor; [apply okt_app; assumption | exact Hm].
    + intros -> hd tl E Hg. injection E as <- _. simpl.
      do 2 eexists. split; [reflexivity|]. apply good_app_r, Hg.
Qed.

Lemma drop_blank_spec (l : list str) :
  exists k, l = repeat [] k ++ drop_blank l
    /\ (drop_blank l = [] \/ exists x r, drop_blank l = x :: r /\ x <> []).
Proof.
  induction l as [|x l (k & E & H)].
  - exists 0%nat. split; [reflexivity | left; reflexivity].
  - destruct x as [|c x].
    + exists (S k). simpl. split; [f_equal; exact E | exact H].
    + exists 0%nat. simpl. split; [reflexivity|]. right.
      do 2 eexists. split; [reflexivity | discriminate].
Qed.

(** What is left once the trailing empty lines are popped: lines of the
    result, the last of which is not empty; nothing but empty lines is
    dropped. *)
Lemma pop_blank_spec (result : list str) :
  (forall x, In x (pop_blank result) -> In x result)
  /\ (forall x, In x result -> x <> [] -> In x (pop_blank result))
  /\ (pop_blank result = []
      \/ exists a x, pop_blank result = a ++ [x] /\ x <> []).
Proof.
  unfold pop_blank. destruct (drop_blank_spec (rev result)) as (k & E & H).
  split; [|split].
  - intros x Hx. apply in_rev in Hx. apply in_rev. rewrite E.
    apply in_or_app. right. exact Hx.
  - intros x Hx Hn. apply in_rev in Hx. rewrite E in Hx.
    apply in_app_or in Hx. destruct Hx as [Hx|Hx].
    + apply repeat_spec in Hx. contradiction.
    + apply in_rev in Hx. exact Hx.
  - destruct H as [->|(x & r & -> & Hx)]; [left; reflexivity|]. right.
    exists (rev r), x. split; [reflexivity | exact Hx].
Qed.

Lemma join_lf_last (a : list str) (x : str) :
  exists p, join_lf ((a ++ [x]) ++ [[]]) = p ++ x ++ [lf].
Proof.
  induction a as [|y a (p & IH)].
  - exists []. reflexivity.
  - exists (y ++ lf :: p). cbn [app]. 
    destruct ((a ++ [x]) ++ [[]]) as [|z r] eqn:E.
    + destruct a; discriminate.
    + change (join_lf (y :: z :: r)) with (y ++ lf :: join_lf (z :: r)).
      rewrite IH, <- app_assoc. reflexivity.
Qed.

Lemma ends_with_one_newline (p a : str) (c : N) :
  c <> lf ->
  endsWith [lf] (p ++ (a ++ [c]) ++ [lf]) = true
  /\ endsWith [lf; lf] (p ++ (a ++ [c]) ++ [lf]) = false.
Proof.
  intros Hc. unfold endsWith. rewrite !rev_app_distr. cbn [rev app].
  cbn [startsWith]. rewrite N.eqb_refl.
  assert (E : (lf =? c)%N = false) by (apply N.eqb_neq; congruence).
  rewrite E. split; reflexivity.
Qed.

(** Blank lines only: nothing is split, nothing is printed. *)
Lemma presplit_blank (raws : list str) :
  Forall (fun raw => trim raw = []) raws -> presplit raws = Ok raws.
Proof.
  induction 1 as [|raw rest Hr _ IH]; [reflexivity|]. simpl.
  unfold presplit_line. rewrite Hr.
  change (exec SPLIT_RE []) with (@None Match). cbn [bind]. rewrite IH.
  reflexivity.
Qed.

Lemma first_pass_blank (raws : list str) :
  Forall (fun raw => trim raw = []) raws ->
  forall (skip : nat) (st : State),
    inBlockComment st = false -> first_pass raws skip st = st.
Proof.
  induction 1 as [|raw rest Hr _ IH]; intros skip st Hb; [reflexivity|].
  simpl. destruct skip as [|skip]; [|apply IH, Hb].
  unfold first_pass_line. rewrite Hb, (trim_empty_trimEnd _ Hr).
  change (trim []) with (@nil N). cbn. apply IH, Hb.
Qed.

End FormatterFacts.

(* ================================================================== *)
(** ** The validator raises no exception; the rules of its issues *)
(* ================================================================== *)

Module ValidatorFacts.
Import Validator ValidatorSpec.

Lemma only_nil (rs : list string) : only rs [].
Proof. constructor. Qed.

Lemma only_app (rs : list string) (a b : list Issue) :
  only rs a -> only rs b -> only rs (a ++ b).
Proof. intros Ha Hb. apply Forall_app. split; assumption. Qed.

Lemma only_incl (rs rs' : list string) (l : list Issue) :
  incl rs rs' -> only rs l -> only rs' l.
Proof.
  intros Hi H. eapply Forall_impl; [|exact H]. intros i Hr. apply Hi, Hr.
Qed.

Lemma only_one (rs : list string) (i : Issue) :
  In (rule i) rs -> only rs [i].
Proof. intros H. constructor; [exact H | constructor]. Qed.

Ltac one_rule := apply only_one; simpl; tauto.

(** *** The structural scanner *)

Lemma field_issues_only (n : Z) (ctx code : str) :
  syntax_only (Syntax.field_issues n ctx code).
Proof.
  unfold Syntax.field_issues.
  repeat match goal with
         | |- context [if ?b then _ else _] => destruct b
         end; try apply only_nil; one_rule.
Qed.

Lemma enum_issues_only (n : Z) (ctx code : str) :
  syntax_only (Syntax.enum_issues n ctx code).
Proof.
  unfold Syntax.enum_issues.
  repeat match goal with
         | |- context [if ?b then _ else _] => destruct b
         end; try apply only_nil; one_rule.
Qed.

Lemma rpc_issues_only (n : Z) (ctx code : str) :
  syntax_only (Syntax.rpc_issues n ctx code).
Proof.
  unfold Syntax.rpc_issues.
  repeat match goal with
         | |- context [if ?b then _ else _] => destruct b
         end; try apply only_nil; one_rule.
Qed.

Lemma junk_issues_only (n : Z) (code : str) :
  syntax_only (Syntax.junk_issues n code).
Proof.
  unfold Syntax.junk_issues.
  repeat match goal with
         | |- context [if ?b then _ else _] => destruct b
         end; try apply only_nil; one_rule.
Qed.

Lemma unrecognized_issues_only (n : Z) (ctx code : str) (e : bool) :
  syntax_only (Syntax.unrecognized_issues n ctx code e).
Proof.
  unfold Syntax.unrecognized_issues.
  destruct (is_empty ctx && negb e); [|apply only_nil].
  match goal with
  | |- context [if ?b then _ else _] => destruct b
  end; try apply only_nil; one_rule.
Qed.

Lemma semicolon_issues_only (n : Z) (code : str) :
  syntax_only (Syntax.semicolon_issues n code).
Proof.
  unfold Syntax.semicolon_issues.
  repeat match goal with
         | |- context [if ?b then _ else _] => destruct b
         end; try apply only_nil; one_rule.
Qed.

Lemma syntax_value_issues_ok (n : Z) (code : str) :
  exists l, Syntax.syntax_value_issues n code = Ok l /\ syntax_only l.
Proof.
  unfold Syntax.syntax_value_issues.
  destruct (exec Syntax.SYNTAX_RE code) as [m|] eqn:E.
  - destruct (group_ok Syntax.SYNTAX_RE code 1 E eq_refl) as [val H].
    rewrite H. simpl.
    match goal with
    | |- context [if ?b then _ else _] => destruct b
    end; eexists; (split; [reflexivity|]); try apply only_nil; one_rule.
  - eexists. split; [reflexivity | apply only_nil].
Qed.

Lemma extends_refl (st : Syntax.State) : extends st st.
Proof. exists []. split; [symmetry; apply app_nil_r | apply only_nil]. Qed.

Lemma extends_trans (a b c : Syntax.State) :
  extends a b -> extends b c -> extends a c.
Proof.
  intros (n1 & H1 & O1) (n2 & H2 & O2). exists (n1 ++ n2). split.
  - rewrite H2, H1, app_assoc. reflexivity.
  - apply only_app; assumption.
Qed.

Lemma detect_block_ok (n : Z) (code : str) (st : Syntax.State) :
  exists st2,
    Syntax.detect_block n code (exec Syntax.BLOCK_RE code) st = Ok st2
    /\ extends st st2.
Proof.
  unfold Syntax.detect_block.
  destruct (exec Syntax.BLOCK_RE code) as [bm|] eqn:E.
  - destruct (group_ok Syntax.BLOCK_RE code 1 E eq_refl) as [ty H].
    rewrite H. simpl.
    assert (Hn : syntax_only
              (if is_empty (group_or_empty bm 2)
               then [Syntax.syntax_error n 1
                       (ty ++ lit " declaration is missing a name.")]
               else [])).
    { destruct (is_empty _); [one_rule | apply only_nil]. }
    destruct (includes (lit "{") code); eexists; (split; [reflexivity|]);
      eexists; (split; [reflexivity | exact Hn]).
  - destruct (Syntax.expectingBody st); [|eexists; split;
                                           [reflexivity | apply extends_refl]].
    destruct (startsWith (lit "{") code || str_eqb code (lit "{"));
      eexists; (split; [reflexivity|]).
    + exists []. simpl. split; [symmetry; apply app_nil_r | apply only_nil].
    + eexists. simpl. split; [reflexivity | one_rule].
Qed.

Lemma pop_close_issues (n : Z) (k : nat) :
  forall (iss : list Issue) (stack : list Syntax.Context),
  exists new,
    fst (Syntax.pop_close n k (iss, stack)) = iss ++ new /\ syntax_only new.
Proof.
  induction k as [|k IH]; intros iss stack; cbn [Syntax.pop_close].
  - exists []. split; [symmetry; apply app_nil_r | apply only_nil].
  - destruct stack as [|c stack].
    + destruct (IH (iss ++ [Syntax.syntax_error n 1
                              (lit "Unexpected closing brace "
                               ++ quoted (lit "}") ++ lit ".")]) [])
        as (new & H & Ho).
      eexists. rewrite H, <- app_assoc. split; [reflexivity|].
      apply only_app; [one_rule | exact Ho].
    + apply IH.
Qed.

Lemma scan_line_ok (n : Z) (raw : str) (st : Syntax.State) :
  exists st', Syntax.scan_line n raw st = Ok st' /\ extends st st'.
Proof.
  unfold Syntax.scan_line.
  match goal with
  | |- context [if ?b then Ok st else _] => destruct b
  end; [eexists; split; [reflexivity | apply extends_refl]|].
  set (code := trim (replace Syntax.INLINE_COMMENT _ (trim raw))).
  destruct (is_empty code);
    [eexists; split; [reflexivity | apply extends_refl]|].
  set (ctx := Syntax.currentContext_of (Syntax.braceStack st)).
  set (st1 := Syntax.mkState _ _ _ _ _ _).
  assert (H1 : extends st st1).
  { eexists. split; [reflexivity|].
    apply only_app; [apply field_issues_only | apply enum_issues_only]. }
  destruct (detect_block_ok n code st1) as (st2 & H2 & E2).
  rewrite H2. simpl.
  match goal with
  | |- context [Syntax.pop_close n ?k (?i, ?s)] =>
      destruct (pop_close_issues n k i s) as (new3 & H3 & O3);
      destruct (Syntax.pop_close n k (i, s)) as [iss3 stack3]
  end.
  simpl in H3.
  destruct (syntax_value_issues_ok n code) as (syn & Hs & Os).
  rewrite Hs. simpl. eexists. split; [reflexivity|].
  eapply extends_trans; [exact H1|]. eapply extends_trans; [exact E2|].
  eexists. simpl. rewrite H3, <- app_assoc. split; [reflexivity|].
  repeat apply only_app; try assumption.
  - apply rpc_issues_only.
  - apply junk_issues_only.
  - apply unrecognized_issues_only.
  - apply semicolon_issues_only.
Qed.

Lemma scan_ok (lines : list str) :
  forall (n : Z) (st : Syntax.State),
  exists st', Syntax.scan n lines st = Ok st' /\ extends st st'.
Proof.
  induction lines as [|raw rest IH]; intros n st; simpl.
  - eexists. split; [reflexivity | apply extends_refl].
  - destruct (scan_line_ok n raw st) as (st1 & H1 & E1). rewrite H1. simpl.
    destruct (IH (n + 1)%Z st1) as (st2 & H2 & E2).
    exists st2. split; [exact H2 | eapply extends_trans; eassumption].
Qed.

Lemma validateSyntax_ok (lines : list str) :
  exists l, Syntax.validateSyntax lines = Ok l /\ syntax_only l.
Proof.
  unfold Syntax.validateSyntax.
  destruct (scan_ok lines 1 Syntax.init) as (st & H & (new & Hn & Ho)).
  rewrite H. simpl. eexists. split; [reflexivity|].
  simpl in Hn. rewrite Hn. apply only_app; [exact Ho|].
  induction (Syntax.braceStack st) as [|c r IH]; simpl;
    [apply only_nil | constructor; [simpl; tauto | exact IH]].
Qed.

(** The unclosed issues are those of the contexts left on the stack, one
    for each, at the line where the context opened. *)
Lemma unclosed_issues_of_stack (lines : list str) :
  exists st,
    Syntax.scan 1 lines Syntax.init = Ok st
    /\ Syntax.validateSyntax lines
       = Ok (Syntax.issues st ++ map Syntax.unclosed_issue (Syntax.braceStack st))
    /\ length (map Syntax.unclosed_issue (Syntax.braceStack st))
       = length (Syntax.braceStack st)
    /\ map line (map Syntax.unclosed_issue (Syntax.braceStack st))
       = map Syntax.c_line (Syntax.braceStack st).
Proof.
  destruct (scan_ok lines 1 Syntax.init) as (st & H & _). exists st.
  split; [exact H|]. split; [unfold Syntax.validateSyntax; rewrite H; reflexivity|].
  split; [apply length_map|]. rewrite map_map. reflexivity.
Qed.

(** *** The style rules *)

Lemma captured_ok (rx : regex) (s : str) :
  sets (body rx) 1 = true -> exists o, captured rx s = Ok o.
Proof.
  intros Hs. unfold captured. destruct (exec rx s) as [m|] eqn:E.
  - destruct (group_ok rx s 1 E Hs) as [v H]. rewrite H. simpl.
    eexists; reflexivity.
  - eexists; reflexivity.
Qed.

Lemma enum_value_ok (n : Z) (t : str) :
  exists vals vi, enum_value n t = Ok (vals, vi)
    /\ only ["enum-value-upper-snake-case"%string] vi.
Proof.
  unfold enum_value. destruct (exec VALUE_RE t) as [m|] eqn:E.
  - destruct (group_ok VALUE_RE t 1 E eq_refl) as [v1 H1].
    destruct (group_ok VALUE_RE t 2 E eq_refl) as [v2 H2].
    rewrite H1, H2. simpl. do 2 eexists. split; [reflexivity|].
    destruct (negb (test UPPER_SNAKE_RE v1)); [one_rule | apply only_nil].
  - do 2 eexists. split; [reflexivity | apply only_nil].
Qed.

Lemma first_value_issues_only (e : EnumBlock) :
  only ["enum-first-value-unspecified"%string] (first_value_issues e).
Proof.
  unfold first_value_issues. destruct (values e) as [|first rest];
    [apply only_nil|].
  match goal with
  | |- context [if ?b then _ else _] => destruct b
  end; [one_rule | apply only_nil].
Qed.

Lemma enum_part_ok (n : Z) (t : str) (b : bool) (ce : option EnumBlock)
    (bs : list EnumBlock) :
  exists iss bs' ce' b',
    enum_part n t b ce bs = Ok (iss, bs', ce', b') /\ only enum_rules iss.
Proof.
  unfold enum_part. destruct b, ce as [e|];
    try (do 4 eexists; split; [reflexivity | apply only_nil]).
  destruct (enum_value_ok n t) as (vals & vi & H & Ho). rewrite H. simpl.
  assert (Ho' : only enum_rules vi).
  { eapply only_incl; [|exact Ho]. intros r [<-|[]]. simpl. tauto. }
  destruct (includes (lit "}") t); do 4 eexists;
    (split; [reflexivity|]); [|exact Ho'].
  apply only_app; [exact Ho'|].
  eapply only_incl; [|apply first_value_issues_only].
  intros r [<-|[]]. simpl. tauto.
Qed.

Lemma name_issues_only (n : Z) (msgMatch enumMatch : option str) :
  only name_rules
    (message_name_issues n msgMatch ++ enum_name_issues n enumMatch).
Proof.
  apply only_app.
  - unfold message_name_issues. destruct msgMatch as [name|]; [|apply only_nil].
    destruct (negb (test PASCAL_RE name)); [one_rule | apply only_nil].
  - unfold enum_name_issues. destruct enumMatch as [name|]; [|apply only_nil].
    destruct (negb (test PASCAL_RE name)); [one_rule | apply only_nil].
Qed.

Lemma late_issues_only (n : Z) (t : str) (fieldMatch : option str)
    (inEnum2 inService1 prev : bool) :
  only late_rules
    (field_name_issues n fieldMatch inEnum2 ++ service_issues n t prev
     ++ rpc_issues n t inService1 prev).
Proof.
  repeat apply only_app.
  - unfold field_name_issues. destruct fieldMatch as [f|]; [|apply only_nil].
    destruct (negb inEnum2); [|apply only_nil].
    destruct (negb (test SNAKE_RE f)); [one_rule | apply only_nil].
  - unfold service_issues.
    destruct (startsWith (lit "service ") t); [|apply only_nil].
    destruct (negb prev); [one_rule | apply only_nil].
  - unfold rpc_issues.
    destruct (inService1 && startsWith (lit "rpc ") t); [|apply only_nil].
    destruct (negb prev); [one_rule | apply only_nil].
Qed.

(** One iteration of the loop never raises; the issues it adds are the
    length warning, the two name rules, the issues of the enum part and the
    three late rules, in this order. *)
Lemma check_line_ok (n : Z) (raw : str) (st : State) :
  exists st' enumMatch enumIssues bs ce b names late,
    check_line n raw st = Ok st'
    /\ captured ENUM_RE (trim raw) = Ok enumMatch
    /\ enum_part n (trim raw) (fst (enum_entry n enumMatch st))
         (snd (enum_entry n enumMatch st)) (enumBlocks st)
       = Ok (enumIssues, bs, ce, b)
    /\ issues st'
       = issues st ++ max_length_issues n raw ++ names ++ enumIssues ++ late
    /\ only name_rules names /\ only enum_rules enumIssues
    /\ only late_rules late
    /\ currentEnum st' = ce /\ inEnum st' = b.
Proof.
  unfold check_line.
  destruct (captured_ok MESSAGE_RE (trim raw) eq_refl) as [msgMatch Hm].
  destruct (captured_ok ENUM_RE (trim raw) eq_refl) as [enumMatch He].
  destruct (captured_ok FIELD_RE (trim raw) eq_refl) as [fieldMatch Hf].
  rewrite Hm, He. cbn [bind].
  destruct (enum_part_ok n (trim raw) (fst (enum_entry n enumMatch st))
              (snd (enum_entry n enumMatch st)) (enumBlocks st))
    as (iss & bs & ce & b & Hp & Ho).
  cbn [enum_entry fst snd] in Hp. rewrite Hp. cbn [bind]. rewrite Hf.
  cbn [bind].
  destruct (track_braces _ _) as [d2 s2].
  do 8 eexists. split; [reflexivity|]. split; [reflexivity|].
  split; [exact Hp|]. split; [reflexivity|].
  split; [apply name_issues_only|]. split; [exact Ho|].
  split; [apply late_issues_only|]. split; reflexivity.
Qed.

(** *** Counting the issues of a rule *)

Lemma count_rule_app (r : string) (a b : list Issue) :
  count_rule r (a ++ b) = (count_rule r a + count_rule r b)%nat.
Proof. unfold count_rule. rewrite filter_app, length_app. reflexivity. Qed.

Lemma only_count_0 (rs : list string) (r : string) (l : list Issue) :
  only rs l -> ~ In r rs -> count_rule r l = 0%nat.
Proof.
  intros H Hr. unfold count_rule. induction H as [|i l Hi _ IH]; [reflexivity|].
  simpl. unfold rule_is at 1. destruct (String.eqb_spec (rule i) r) as [E|_].
  - exfalso. apply Hr. rewrite <- E. exact Hi.
  - exact IH.
Qed.

Lemma only_filter (rs : list string) (f : Issue -> bool) (l : list Issue) :
  only rs l -> only rs (filter f l).
Proof.
  intros H. apply Forall_forall. intros i Hi. apply filter_In in Hi.
  unfold only in H. rewrite Forall_forall in H. apply H, Hi.
Qed.

Lemma only_length_warnings_ok (rs : list string) (l : list Issue) :
  only rs l -> ~ In "max-line-length"%string rs -> length_warnings_ok l.
Proof.
  intros H Hr. eapply Forall_impl; [|exact H]. simpl. intros i Hi E.
  exfalso. apply Hr. rewrite <- E. exact Hi.
Qed.

Lemma loop_rules_no_length : ~ In "max-line-length"%string loop_rules.
Proof. simpl. intuition discriminate. Qed.

Lemma loop_rules_no_newline : ~ In "trailing-newline"%string loop_rules.
Proof. simpl. intuition discriminate. Qed.

(** What an iteration adds, seen from the two rules of the line lengths. *)
Lemma check_line_new (n : Z) (raw : str) (st : State) :
  exists st' rest,
    check_line n raw st = Ok st'
    /\ issues st' = issues st ++ max_length_issues n raw ++ rest
    /\ only loop_rules rest.
Proof.
  destruct (check_line_ok n raw st)
    as (st' & em & ei & bs & ce & b & names & late & H & _ & _ & Hi & O1 & O2
        & O3 & _).
  exists st', (names ++ ei ++ late). split; [exact H|]. split; [exact Hi|].
  unfold loop_rules. repeat apply only_app.
  - eapply only_incl; [|exact O1]. intros r Hr. apply in_or_app. left. exact Hr.
  - eapply only_incl; [|exact O2]. intros r Hr. apply in_or_app. right.
    apply in_or_app. left. exact Hr.
  - eapply only_incl; [|exact O3]. intros r Hr. apply in_or_app. right.
    apply in_or_app. right. exact Hr.
Qed.

Lemma check_lines_ok (lines : list str) :
  forall (n : Z) (st : State),
  exists st' new,
    check_lines n lines st = Ok st'
    /\ issues st' = issues st ++ new
    /\ only ("max-line-length"%string :: loop_rules) new
    /\ count_rule "max-line-length" new = length (filter is_long lines)
    /\ length_warnings_ok new.
Proof.
  induction lines as [|raw rest IH]; intros n st; simpl.
  - exists st, []. split; [reflexivity|]. split; [symmetry; apply app_nil_r|].
    split; [apply only_nil|]. split; [reflexivity | constructor].
  - destruct (check_line_new n raw st) as (st1 & r1 & H1 & I1 & O1).
    rewrite H1. simpl.
    destruct (IH (n + 1)%Z st1) as (st2 & new2 & H2 & I2 & O2 & C2 & L2).
    exists st2, (max_length_issues n raw ++ r1 ++ new2).
    split; [exact H2|]. split.
    { rewrite I2, I1. repeat rewrite <- app_assoc. reflexivity. }
    assert (Om : only ["max-line-length"%string] (max_length_issues n raw)).
    { unfold max_length_issues. destruct (len raw >? 80)%Z;
        [one_rule | apply only_nil]. }
    split.
    { repeat apply only_app; try assumption.
      - eapply only_incl; [|exact Om]. intros r [<-|[]]. left. reflexivity.
      - eapply only_incl; [|exact O1]. intros r Hr. right. exact Hr. }
    split.
    { rewrite !count_rule_app, C2.
      rewrite (only_count_0 "max-line-length" O1 loop_rules_no_length).
      unfold max_length_issues, is_long.
      destruct (len raw >? 80)%Z; reflexivity. }
    apply Forall_app. split.
    { unfold max_length_issues. destruct (len raw >? 80)%Z; constructor.
      - simpl. intros _. split; reflexivity.
      - constructor. }
    apply Forall_app. split; [|exact L2].
    eapply only_length_warnings_ok; [exact O1 | apply loop_rules_no_length].
Qed.

Lemma structure_issues_only (st : State) : only final_rules (structure_issues st).
Proof.
  unfold structure_issues. repeat apply only_app;
    match goal with
    | |- context [if ?b then _ else _] => destruct b
    end; try apply only_nil; one_rule.
Qed.

Lemma import_issues_only (imports : list ImportLine) :
  forall seen, only final_rules (import_issues seen imports).
Proof.
  induction imports as [|imp rest IH]; intros seen; simpl; [apply only_nil|].
  apply only_app; [|apply IH].
  match goal with
  | |- context [if ?b then [_] else _] => destruct b
  end; [one_rule | apply only_nil].
Qed.

(** The issues of the two passes: the trailing-newline warning first, then
    those of the loop, then those whose rules are in [final_rules]. *)
Lemma emitted_ok (content : str) :
  exists loop final,
    emitted content
    = Ok (trailing_newline_issues content (split_lf content) ++ loop ++ final)
    /\ only ("max-line-length"%string :: loop_rules) loop
    /\ count_rule "max-line-length" loop
       = length (filter is_long (split_lf content))
    /\ length_warnings_ok loop
    /\ only final_rules final.
Proof.
  unfold emitted.
  destruct (check_lines_ok (split_lf content) 1
              (init (trailing_newline_issues content (split_lf content))))
    as (st & new & H & Hi & Ho & Hc & Hl).
  rewrite H. cbn [bind].
  destruct (validateSyntax_ok (split_lf content)) as (syn & Hs & Os).
  rewrite Hs. cbn [bind]. simpl in Hi. rewrite Hi.
  exists new, (structure_issues st ++ import_issues false (importLines st) ++ syn).
  split; [rewrite <- app_assoc; reflexivity|].
  repeat (split; [assumption|]).
  apply only_app; [apply structure_issues_only|].
  apply only_app; [apply import_issues_only|].
  eapply only_incl; [|exact Os]. intros r [<-|[]]. simpl. tauto.
Qed.



(** *** The first value of an enum *)

Lemma first_value_issues_line (e : EnumBlock) (i : Issue) :
  In i (first_value_issues e) -> line i = startLine e.
Proof.
  unfold first_value_issues. destruct (values e) as [|first rest]; [intros []|].
  match goal with
  | |- context [if ?b then _ else _] => destruct b
  end; [intros [<-|[]]; reflexivity | intros []].
Qed.

(** The enum part reports the first value only when it closes the current
    enum, at the line where that enum opened; the enum it leaves open was
    opened where the one it found was. *)
Lemma enum_part_current (n : Z) (t : str) (b : bool) (ce : option EnumBlock)
    (bs : list EnumBlock) (iss : list Issue) (bs' : list EnumBlock)
    (ce' : option EnumBlock) (b' : bool) :
  enum_part n t b ce bs = Ok (iss, bs', ce', b') ->
  (forall i, In i iss -> rule i = efvu ->
     exists e0, ce = Some e0 /\ line i = startLine e0 /\ ce' = None)
  /\ (forall e1, ce' = Some e1 ->
        exists e0, ce = Some e0 /\ startLine e1 = startLine e0).
Proof.
  unfold enum_part. intros H.
  assert (Hsame : Ok (@nil Issue, bs, ce, b) = Ok (iss, bs', ce', b') ->
    (forall i, In i iss -> rule i = efvu ->
       exists e0, ce = Some e0 /\ line i = startLine e0 /\ ce' = None)
    /\ (forall e1, ce' = Some e1 ->
          exists e0, ce = Some e0 /\ startLine e1 = startLine e0)).
  { intros E. injection E as <- _ <- _. split; [intros i []|].
    intros e1 E. exists e1. split; [exact E | reflexivity]. }
  destruct b; [|apply Hsame; destruct ce; exact H].
  destruct ce as [e|]; [|apply Hsame, H]. clear Hsame.
  destruct (enum_value_ok n t) as (vals & vi & Hv & Ho). rewrite Hv in H.
  cbn [bind] in H.
  assert (Hvi : forall i, In i vi -> rule i = efvu -> False).
  { intros i Hi Hr. unfold only in Ho. rewrite Forall_forall in Ho.
    specialize (Ho i Hi). rewrite Hr in Ho. destruct Ho as [Ho|[]].
    discriminate. }
  destruct (includes (lit "}") t); injection H as <- _ <- _.
  - split; [|intros e1 E; discriminate]. intros i Hi Hr.
    apply in_app_or in Hi. destruct Hi as [Hi|Hi];
      [destruct (Hvi i Hi Hr)|].
    exists e. split; [reflexivity|]. split; [|reflexivity].
    apply first_value_issues_line in Hi. exact Hi.
  - split; [intros i Hi Hr; destruct (Hvi i Hi Hr)|].
    intros e1 E. injection E as <-. exists e. split; reflexivity.
Qed.

Lemma entry_origin (n : Z) (em : option str) (st : State) (e0 : EnumBlock) :
  snd (enum_entry n em st) = Some e0 ->
  startLine e0 = n \/ currentEnum st = Some e0.
Proof.
  unfold enum_entry. cbn [snd]. destruct em as [name|]; intros H.
  - injection H as <-. left. reflexivity.
  - right. exact H.
Qed.









Lemma validate_ok (content : str) :
  exists all, emitted content = Ok all /\ validate content = Ok (report all).
Proof.
  destruct (emitted_ok content) as (loop & final & H & _).
  eexists. split; [exact H|]. unfold validate. rewrite H. reflexivity.
Qed.

End ValidatorFacts.

(* ================================================================== *)
(** ** The sort and the partition of the report *)
(* ================================================================== *)

Module ReportFacts.
Import Validator ValidatorSpec.

Lemma before_key_le (a b : Issue) : before a b = true <-> key_le a b.
Proof.
  unfold before, compare_issues, key_le.
  destruct (Z.eqb_spec (line a - line b) 0); rewrite Z.leb_le; lia.
Qed.

Lemma not_before (a b : Issue) :
  before a b = false ->
  key_le b a /\ ((line a =? line b)%Z && (column a =? column b)%Z = false).
Proof.
  unfold before, compare_issues, key_le. intros H.
  destruct (Z.eqb_spec (line a - line b) 0) as [E|E];
    rewrite Z.leb_gt in H.
  - split; [lia|]. apply andb_false_iff. right. apply Z.eqb_neq. lia.
  - split; [lia|]. apply andb_false_iff. left. apply Z.eqb_neq. lia.
Qed.

Lemma key_le_trans (a b c : Issue) : key_le a b -> key_le b c -> key_le a c.
Proof. unfold key_le. lia. Qed.

Lemma insert_perm (a : Issue) (l : list Issue) : Permutation (insert a l) (a :: l).
Proof.
  induction l as [|b l IH]; simpl; [reflexivity|].
  destruct (before a b); [reflexivity|].
  rewrite IH. apply perm_swap.
Qed.

Lemma sort_perm (l : list Issue) : Permutation (sort l) l.
Proof.
  induction l as [|a l IH]; simpl; [reflexivity|].
  rewrite insert_perm. constructor. exact IH.
Qed.

Lemma insert_sorted (a : Issue) (l : list Issue) :
  StronglySorted key_le l -> StronglySorted key_le (insert a l).
Proof.
  induction 1 as [|b l Hs IH Hb]; simpl.
  - constructor; constructor.
  - destruct (before a b) eqn:E.
    + apply before_key_le in E. constructor.
      * constructor; assumption.
      * constructor; [exact E|].
        eapply Forall_impl; [|exact Hb]. intros c Hc.
        eapply key_le_trans; eassumption.
    + apply not_before in E. destruct E as [E _]. constructor; [exact IH|].
      eapply Permutation_Forall; [symmetry; apply insert_perm|].
      constructor; assumption.
Qed.

Lemma sort_sorted (l : list Issue) : StronglySorted key_le (sort l).
Proof.
  induction l as [|a l IH]; simpl; [constructor | apply insert_sorted, IH].
Qed.

Lemma filter_sorted (f : Issue -> bool) (l : list Issue) :
  StronglySorted key_le l -> StronglySorted key_le (filter f l).
Proof.
  induction 1 as [|a l Hs IH Ha]; simpl; [constructor|].
  destruct (f a); [|exact IH]. constructor; [exact IH|].
  apply Forall_forall. intros b Hb. apply filter_In in Hb.
  rewrite Forall_forall in Ha. apply Ha, Hb.
Qed.

(** The sort is stable: the issues of one (line, column) keep their order. *)
Lemma insert_stable (ln c : Z) (a : Issue) (l : list Issue) :
  filter (same_key ln c) (insert a l) = filter (same_key ln c) (a :: l).
Proof.
  induction l as [|b l IH]; [reflexivity|].
  cbn [insert]. destruct (before a b) eqn:E; [reflexivity|].
  apply not_before in E. destruct E as [_ E].
  cbn [filter] in *. rewrite IH. unfold same_key in *.
  destruct (Z.eqb_spec (line a) ln) as [<-|]; simpl; [|reflexivity].
  destruct (Z.eqb_spec (column a) c) as [<-|]; simpl; [|reflexivity].
  rewrite Z.eqb_sym, (Z.eqb_sym (column b)). rewrite E. reflexivity.
Qed.

Lemma sort_stable (ln c : Z) (l : list Issue) :
  filter (same_key ln c) (sort l) = filter (same_key ln c) l.
Proof.
  induction l as [|a l IH]; [reflexivity|].
  cbn [sort fold_right]. fold (sort l). rewrite insert_stable.
  cbn [filter]. rewrite IH. reflexivity.
Qed.

Lemma filter_comm (f g : Issue -> bool) (l : list Issue) :
  filter f (filter g l) = filter g (filter f l).
Proof.
  induction l as [|a l IH]; [reflexivity|]. simpl.
  destruct (g a) eqn:G, (f a) eqn:F; simpl; rewrite ?G, ?F, IH; reflexivity.
Qed.

Lemma filter_perm_length (f : Issue -> bool) (l l' : list Issue) :
  Permutation l l' -> length (filter f l) = length (filter f l').
Proof.
  induction 1 as [|a l l' _ IH|a b l|l l' l'' _ IH1 _ IH2]; simpl.
  - reflexivity.
  - destruct (f a); simpl; rewrite IH; reflexivity.
  - destruct (f a), (f b); reflexivity.
  - rewrite IH1. exact IH2.
Qed.

(** The three severities split a list. *)
Lemma partition_perm (l : list Issue) :
  Permutation
    (filter (has_severity SevError) l ++ filter (has_severity SevWarning) l
     ++ filter (has_severity SevInfo) l) l.
Proof.
  unfold has_severity. induction l as [|a l IH]; [reflexivity|].
  cbn [filter]. destruct (severity a); cbn [Severity_eqb app].
  - constructor. exact IH.
  - rewrite <- Permutation_middle. constructor. exact IH.
  - rewrite app_assoc, <- Permutation_middle, <- app_assoc.
    constructor. exact IH.
Qed.

Lemma filter_severity (s : Severity) (l : list Issue) :
  Forall (fun i => severity i = s) (filter (has_severity s) l).
Proof.
  apply Forall_forall. intros i Hi. apply filter_In in Hi.
  destruct Hi as [_ Hi]. unfold has_severity in Hi.
  destruct (severity i), s; (reflexivity || discriminate).
Qed.

Lemma filter_filter_and (f g : Issue -> bool) (l : list Issue) :
  filter f (filter g l) = filter (fun i => g i && f i) l.
Proof.
  induction l as [|a l IH]; [reflexivity|]. simpl.
  destruct (g a); simpl; [destruct (f a)|]; rewrite IH; reflexivity.
Qed.

(** Sorting does not change how many issues of a rule a severity has. *)
Lemma count_rule_sort (c : string) (s : Severity) (l : list Issue) :
  count_rule c (filter (has_severity s) (sort l))
  = count_rule c (filter (has_severity s) l).
Proof.
  unfold count_rule. rewrite !filter_filter_and.
  apply filter_perm_length, sort_perm.
Qed.

Lemma in_report (s : Severity) (i : Issue) (l : list Issue) :
  In i (filter (has_severity s) (sort l)) <-> In i l /\ severity i = s.
Proof.
  rewrite filter_In. split; intros [H1 H2].
  - split; [eapply Permutation_in; [apply sort_perm | exact H1]|].
    unfold has_severity in H2. destruct (severity i), s;
      (reflexivity || discriminate).
  - split; [eapply Permutation_in; [symmetry; apply sort_perm | exact H1]|].
    unfold has_severity. rewrite H2. destruct s; reflexivity.
Qed.

End ReportFacts.

(* ================================================================== *)
(** ** The properties of the specification *)
(* ================================================================== *)

Module Properties.
Import Validator ValidatorSpec.
Import ValidatorFacts ReportFacts.

(** C1.  For every source text, [validate] returns a report whose [valid]
    is true exactly when [errors] is empty; [errors], [warnings] and [info]
    together are the issues the two passes emitted, each list holding the
    issues of its severity only; each list is sorted by (line, column), and
    the issues of one (line, column) keep the order in which they were
    emitted. *)
Theorem validate_report_partition (content : str) :
  exists all r,
    emitted content = Ok all /\ validate content = Ok r
    /\ (valid r = true <-> errors r = [])
    /\ Permutation (errors r ++ warnings r ++ info r) all
    /\ Forall (fun i => severity i = SevError) (errors r)
    /\ Forall (fun i => severity i = SevWarning) (warnings r)
    /\ Forall (fun i => severity i = SevInfo) (info r)
    /\ StronglySorted key_le (errors r)
    /\ StronglySorted key_le (warnings r)
    /\ StronglySorted key_le (info r)
    /\ forall ln c,
         filter (same_key ln c) (errors r)
         = filter (same_key ln c) (filter (has_severity SevError) all)
         /\ filter (same_key ln c) (warnings r)
            = filter (same_key ln c) (filter (has_severity SevWarning) all)
         /\ filter (same_key ln c) (info r)
            = filter (same_key ln c) (filter (has_severity SevInfo) all).
Proof.
  destruct (validate_ok content) as (all & He & Hv).
  exists all, (report all). split; [exact He|]. split; [exact Hv|].
  unfold report. cbn [valid errors warnings info].
  split.
  { destruct (filter (has_severity SevError) (sort all)); simpl;
      split; (reflexivity || discriminate). }
  split; [rewrite partition_perm; apply sort_perm|].
  repeat (split; [apply filter_severity|]).
  repeat (split; [apply filter_sorted, sort_sorted|]).
  intros ln c.
  rewrite !(filter_comm (same_key ln c)), !sort_stable. auto.
Qed.


(* ------------------------------------------------------------------ *)
(** *** Blank lines inside blocks *)




(* ------------------------------------------------------------------ *)
(** *** The scenarios of the formatter *)

(** C6.  On the three lines "message  Foo{", "string name=1;", "}" the
    formatter keeps "Foo{": the pattern that normalises the space before the
    brace asks for at least one white space there.  The output is not the
    one the specification gives. *)
Theorem format_brace_without_space :
  Formatter.format
    (join_lf [lit "message  Foo{"; lit "string name=1;"; lit "}"])
  = Ok (join_lf [lit "message Foo{"; lit "  string name = 1;"; lit "}"; []])
  /\ join_lf [lit "message Foo{"; lit "  string name = 1;"; lit "}"; []]
     <> join_lf [lit "message Foo {"; lit "  string name = 1;"; lit "}"; []].
Proof. split; [vm_compute; reflexivity | discriminate]. Qed.

(** C2.  Formatting twice is not formatting once: only the first run of
    white space before a semicolon is removed by a pass. *)
Theorem format_not_idempotent :
  Formatter.format (lit "int32 a = 1 ; int32 b = 2 ;")
  = Ok (join_lf [lit "int32 a = 1; int32 b = 2 ;"; []])
  /\ Formatter.format (join_lf [lit "int32 a = 1; int32 b = 2 ;"; []])
     = Ok (join_lf [lit "int32 a = 1; int32 b = 2;"; []])
  /\ join_lf [lit "int32 a = 1; int32 b = 2 ;"; []]
     <> join_lf [lit "int32 a = 1; int32 b = 2;"; []].
Proof. repeat split; try (vm_compute; reflexivity). discriminate. Qed.

(* ------------------------------------------------------------------ *)
(** *** The scenarios of the structural scanner *)

(** C5.  The braces of "message Foo", "{", "}" are balanced, yet the
    message is reported as unclosed: the line of the brace pushes the
    awaited message and an anonymous block as well, and the closing brace
    pops one of the two. *)
Theorem balanced_source_reported_unclosed :
  balanced brace_on_next_line = true
  /\ (exists st,
        Syntax.scan 1 (split_lf brace_on_next_line) Syntax.init = Ok st
        /\ Syntax.braceStack st = [Syntax.mkContext (lit "message") (lit "Foo") 1])
  /\ exists r,
       validate brace_on_next_line = Ok r
       /\ filter is_unclosed (errors r ++ warnings r ++ info r)
          = [Syntax.unclosed_issue (Syntax.mkContext (lit "message") (lit "Foo") 1)].
Proof.
  split; [reflexivity|]. split.
  - eexists. split; vm_compute; reflexivity.
  - eexists. split; vm_compute; reflexivity.
Qed.

(** C7.  On the one line "message Foo string name = 1; }" the scanner
    awaits the body of the message and the input ends: the errors of line 1
    are the unexpected closing brace and the content after the semicolon,
    and no issue reports a missing opening brace. *)
Theorem missing_opening_brace_not_reported :
  exists r,
    validate (lit "message Foo string name = 1; }") = Ok r
    /\ filter (rule_is "syntax-error") (errors r)
       = [Syntax.syntax_error 1 1
            (lit "Unexpected closing brace " ++ quoted (lit "}") ++ lit ".");
          Syntax.syntax_error 1 29
            (lit "Unexpected content " ++ quoted (lit "}")
             ++ lit " after semicolon.")]
    /\ filter mentions_opening_brace (errors r ++ warnings r ++ info r) = [].
Proof.
  eexists. split; [vm_compute; reflexivity|]. split; vm_compute; reflexivity.
Qed.

(* ------------------------------------------------------------------ *)
(** *** The trailing newline and the length of the lines *)

(** C9, as stated, fails on the empty text: it does not end with a newline
    character, and no trailing-newline warning is reported. *)
Lemma no_trailing_newline_warning_on_empty_text :
  endsWith [lf] [] = false
  /\ exists r,
       validate [] = Ok r
       /\ count_rule "trailing-newline" (errors r ++ warnings r ++ info r)
          = 0%nat.
Proof.
  split; [reflexivity|]. eexists. split; vm_compute; reflexivity.
Qed.

Lemma count_only_severity (c : string) (s : Severity) (rs : list string)
    (l : list Issue) :
  only rs l -> ~ In c rs -> count_rule c (filter (has_severity s) l) = 0%nat.
Proof. intros H Hc. eapply only_count_0; [apply only_filter, H | exact Hc]. Qed.

Lemma filter_length_warnings (s : Severity) (l : list Issue) :
  length_warnings_ok l ->
  filter (rule_is "max-line-length") (filter (has_severity s) l)
  = match s with
    | SevWarning => filter (rule_is "max-line-length") l
    | _ => []
    end.
Proof.
  induction 1 as [|i l Hi _ IH]; [destruct s; reflexivity|]. simpl.
  destruct (rule_is "max-line-length" i) eqn:R.
  - assert (E : rule i = "max-line-length"%string)
      by (apply String.eqb_eq, R).
    destruct (Hi E) as [_ Hs]. unfold has_severity at 1. rewrite Hs.
    destruct s; simpl; rewrite ?R, IH; reflexivity.
  - destruct (has_severity s i); simpl; rewrite ?R, IH; reflexivity.
Qed.

Lemma count_length_warnings (l : list Issue) :
  length_warnings_ok l ->
  count_rule "max-line-length" (filter (has_severity SevWarning) l)
  = count_rule "max-line-length" l
  /\ count_rule "max-line-length" (filter (has_severity SevError) l) = 0%nat
  /\ count_rule "max-line-length" (filter (has_severity SevInfo) l) = 0%nat.
Proof.
  intros H. unfold count_rule. rewrite !(filter_length_warnings _ H).
  repeat split.
Qed.

(** C9, amended.  [validate] reports one trailing-newline warning when the
    text is not empty and does not end with a newline character, and none
    otherwise; it reports one max-line-length warning for each line of more
    than 80 code units, at column 81.  A text without trailing newline
    whose only long line has 92 characters so yields exactly one warning of
    each rule. *)
Theorem trailing_newline_and_line_length (content : str) :
  exists r,
    validate content = Ok r
    /\ count_rule "trailing-newline" (warnings r)
       = (if (len content >? 0)%Z && negb (endsWith [lf] content)
          then 1 else 0)%nat
    /\ count_rule "trailing-newline" (errors r) = 0%nat
    /\ count_rule "trailing-newline" (info r) = 0%nat
    /\ count_rule "max-line-length" (warnings r)
       = length (filter is_long (split_lf content))
    /\ count_rule "max-line-length" (errors r) = 0%nat
    /\ count_rule "max-line-length" (info r) = 0%nat
    /\ length_warnings_ok (warnings r).
Proof.
  destruct (emitted_ok content) as (loop & final & He & Ol & Cl & Ll & Of).
  set (tn := trailing_newline_issues content (split_lf content)) in *.
  exists (report (tn ++ loop ++ final)).
  split; [unfold validate; rewrite He; reflexivity|].
  unfold report. cbn [errors warnings info].
  assert (Nl : ~ In "trailing-newline"%string
                 ("max-line-length"%string :: loop_rules)).
  { simpl. intuition discriminate. }
  assert (Nf : ~ In "trailing-newline"%string final_rules).
  { simpl. intuition discriminate. }
  assert (Mf : ~ In "max-line-length"%string final_rules).
  { simpl. intuition discriminate. }
  assert (Lw : length_warnings_ok
                 (filter (has_severity SevWarning) (sort (tn ++ loop ++ final)))).
  { apply Forall_forall. intros i Hi. apply in_report in Hi.
    destruct Hi as [Hi Hs]. intros Hr. split; [|exact Hs].
    apply in_app_or in Hi. destruct Hi as [Hi|Hi].
    - exfalso. unfold tn, trailing_newline_issues in Hi.
      destruct ((len content >? 0)%Z && negb (endsWith [lf] content));
        [destruct Hi as [<-|[]]; discriminate | destruct Hi].
    - apply in_app_or in Hi. destruct Hi as [Hi|Hi].
      + unfold length_warnings_ok in Ll. rewrite Forall_forall in Ll.
        apply (Ll i Hi Hr).
      + exfalso. apply Mf. rewrite <- Hr. unfold only in Of.
        rewrite Forall_forall in Of. apply Of, Hi. }
  rewrite !count_rule_sort, !filter_app, !count_rule_app.
  pose proof (fun s => count_only_severity "trailing-newline" s Ol Nl) as R1.
  pose proof (fun s => count_only_severity "trailing-newline" s Of Nf) as R2.
  pose proof (fun s => count_only_severity "max-line-length" s Of Mf) as R3.
  rewrite !R1, !R2, !R3.
  destruct (count_length_warnings Ll) as (-> & -> & ->). rewrite Cl.
  assert (T : forall s,
            count_rule "trailing-newline" (filter (has_severity s) tn)
            = match s with
              | SevWarning =>
                  if (len content >? 0)%Z && negb (endsWith [lf] content)
                  then 1%nat else 0%nat
              | _ => 0%nat
              end
            /\ count_rule "max-line-length" (filter (has_severity s) tn)
               = 0%nat).
  { intros s. unfold tn, trailing_newline_issues.
    destruct ((len content >? 0)%Z && negb (endsWith [lf] content));
      destruct s; split; reflexivity. }
  destruct (T SevError) as [-> ->]. destruct (T SevWarning) as [-> ->].
  destruct (T SevInfo) as [-> ->].
  rewrite !Nat.add_0_r. repeat (split; [reflexivity|]). exact Lw.
Qed.

(** One line of 92 characters and no trailing newline: one warning of each
    of the two rules, besides the missing package. *)
Example line_of_92_characters :
  exists r,
    validate (repeat 120%N 92) = Ok r
    /\ map (fun i => (line i, column i, rule i)) (warnings r)
       = [(1, 1, "trailing-newline"); (1, 1, "package-declaration");
          (1, 81, "max-line-length")]%Z%string.
Proof. eexists. split; vm_compute; reflexivity. Qed.

(* ------------------------------------------------------------------ *)
(** *** The first value of an enum *)






(** The same enum with the value numbered 0: no issue of the rule. *)
Example status_enum_zero :
  exists r,
    validate (join_lf [lit "enum Status {"; lit "  STATUS_UNSPECIFIED = 0;";
                       lit "}"; []]) = Ok r
    /\ count_rule efvu (errors r ++ warnings r ++ info r) = 0%nat.
Proof. eexists. split; vm_compute; reflexivity. Qed.

(* ------------------------------------------------------------------ *)
(** *** The end of the formatted text *)

(** C10, as stated, fails on the empty text: nothing is printed, and the
    empty array joined with its one empty string is the empty string. *)
Lemma format_empty_text :
  Formatter.format [] = Ok [] /\ endsWith [lf] [] = false.
Proof. split; reflexivity. Qed.

(** C10, amended.  When the first pass yields no line, as it does when
    every line of the text is blank, [format] returns the empty string;
    otherwise what it returns ends with one line feed, and not with two. *)
Theorem format_ends_with_one_newline (content : str) :
  exists ls out,
    Formatter.lines_of content = Ok ls
    /\ Formatter.format content = Ok out
    /\ (Forall (fun raw => trim raw = []) (split_lf content) -> ls = [])
    /\ (ls = [] -> out = [])
    /\ (ls <> [] ->
        endsWith [lf] out = true /\ endsWith [lf; lf] out = false).
Proof.
  destruct (FormatterFacts.presplit_ok (split_lf content)) as [lines Hp].
  pose proof (FormatterFacts.first_pass_depths lines 0
                FormatterFacts.init_depths) as [_ Hd].
  pose proof (FormatterFacts.first_pass_texts lines 0
                FormatterFacts.init_texts) as (Ht & _ & Hh).
  set (ls := Formatter.formatted (Formatter.first_pass lines 0 Formatter.init))
    in *.
  destruct (FormatterFacts.second_pass_ok Hd None) as [result Hr].
  exists ls, (join_lf (Formatter.pop_blank result ++ [[]])).
  split; [unfold Formatter.lines_of; rewrite Hp; reflexivity|].
  split; [unfold Formatter.format, Formatter.lines_of; rewrite Hp; cbn [bind];
          fold ls; rewrite Hr; reflexivity|].
  split; [|split].
  - intros Hb. rewrite (FormatterFacts.presplit_blank Hb) in Hp.
    injection Hp as <-. unfold ls.
    rewrite (FormatterFacts.first_pass_blank Hb); reflexivity.
  - intros E. rewrite E in Hr. simpl in Hr. injection Hr as <-. reflexivity.
  - intros Hn. destruct ls as [|hd tl] eqn:El; [contradiction|].
    destruct (FormatterFacts.second_pass_texts Ht _ Hr) as [Ho Hx].
    destruct (Hx eq_refl hd tl eq_refl (Hh hd tl eq_refl))
      as (x & more & -> & Gx).
    destruct (FormatterFacts.pop_blank_spec (x :: more)) as (P1 & P2 & P3).
    destruct P3 as [E|(a & y & E & Hy)].
    + exfalso. specialize (P2 x (or_introl eq_refl)
                             (FormatterFacts.good_nonempty Gx)).
      rewrite E in P2. destruct P2.
    + rewrite E. destruct (FormatterFacts.join_lf_last a y) as [p ->].
      assert (Gy : FormatterSpec.good y).
      { rewrite Forall_forall in Ho.
        destruct (Ho y) as [E0|G]; [|contradiction|exact G].
        apply P1. rewrite E. apply in_or_app. right. left. reflexivity. }
      destruct Gy as (a0 & c & -> & Hc).
      apply FormatterFacts.ends_with_one_newline, Hc.
Qed.

End Properties.

(* ================================================================== *)
(** ** The matcher finds matches only *)
(* ================================================================== *)

Section MatcherSound.

Lemma firstn_app_length (s1 s2 : str) :
  firstn (length (s1 ++ s2) - length s2) (s1 ++ s2) = s1.
Proof.
  rewrite length_app, Nat.add_sub, firstn_app, Nat.sub_diag, firstn_all.
  simpl. apply app_nil_r.
Qed.

Lemma mt_sound (R : Type) (r : re) :
  forall (s : str) (c : caps) (k : str -> caps -> option R) (x : R),
    mt r s c k = Some x ->
    exists s1 s2 c',
      s = s1 ++ s2 /\ matches r s1 s2 c c' /\ k s2 c' = Some x.
Proof.
  induction r as [ | p | a IHa b IHb | a IHa b IHb | a IHa | j a IHa | ];
    intros s c k x H; simpl in H.
  - exists [], s, c. repeat split; [constructor | exact H].
  - destruct s as [|y s']; [discriminate|]. destruct (p y) eqn:P; [|discriminate].
    exists [y], s', c. repeat split; [constructor; exact P | exact H].
  - apply IHa in H. destruct H as (s1 & r1 & c1 & -> & M1 & H).
    apply IHb in H. destruct H as (s2 & r2 & c2 & -> & M2 & H).
    exists (s1 ++ s2), r2, c2. rewrite app_assoc. repeat split; [|exact H].
    econstructor; eassumption.
  - destruct (mt a s c k) eqn:E.
    + injection H as ->. apply IHa in E.
      destruct E as (s1 & s2 & c' & -> & M1 & E).
      exists s1, s2, c'. repeat split; [apply m_alt_l, M1 | exact E].
    + apply IHb in H. destruct H as (s1 & s2 & c' & -> & M1 & H).
      exists s1, s2, c'. repeat split; [apply m_alt_r, M1 | exact H].
  - remember (length s) as n eqn:Hn. clear Hn. revert s c H.
    induction n as [|n IHn]; intros s c H.
    + exists [], s, c. repeat split; [constructor | exact H].
    + match type of H with
      | match ?m with _ => _ end = _ => destruct m eqn:E
      end.
      * injection H as ->. apply IHa in E.
        destruct E as (s1 & r1 & c1 & -> & M1 & E).
        destruct (length r1 <? length (s1 ++ r1))%nat eqn:L; [|discriminate].
        apply IHn in E. destruct E as (s2 & r2 & c2 & -> & M2 & E).
        exists (s1 ++ s2), r2, c2. rewrite app_assoc.
        repeat split; [|exact E].
        eapply m_star_more; [|exact M1|exact M2].
        intros ->. apply Nat.ltb_lt in L. simpl in L. lia.
      * exists [], s, c. repeat split; [constructor | exact H].
  - apply IHa in H. destruct H as (s1 & s2 & c1 & -> & M1 & H).
    rewrite firstn_app_length in H.
    exists s1, s2, (set_cap j s1 c1). repeat split; [|exact H].
    constructor. exact M1.
  - destruct s; [|discriminate].
    exists [], [], c. repeat split; [constructor | exact H].
Qed.

Lemma match_here_sound (r : re) (s : str) (n : nat) (c : caps) :
  match_here r s = Some (n, c) ->
  exists s1 s2, s = s1 ++ s2 /\ n = length s1 /\ matches r s1 s2 no_caps c.
Proof.
  unfold match_here. intros H. apply mt_sound in H.
  destruct H as (s1 & s2 & c' & -> & M & H). injection H as <- <-.
  exists s1, s2. repeat split; [|exact M].
  rewrite length_app. lia.
Qed.

(** A match of an anchored pattern: a prefix of the subject. *)
Lemma exec_anchored_sound (r : re) (s : str) (m : Match) :
  exec (at_start r) s = Some m ->
  exists s1 s2, s = s1 ++ s2 /\ matches r s1 s2 no_caps (m_caps m).
Proof.
  unfold exec. simpl. destruct (match_here r s) as [[n c]|] eqn:E;
    [|discriminate].
  intros H. injection H as <-. simpl.
  apply match_here_sound in E. destruct E as (s1 & s2 & -> & _ & M).
  exists s1, s2. split; [reflexivity | exact M].
Qed.

End MatcherSound.

(* ================================================================== *)
(** ** Where the issues are, and of what severity *)
(* ================================================================== *)

Module ShapeFacts.
Import Validator ValidatorSpec ValidatorShape ValidatorFacts.

Lemma shaped_ok (N n c : Z) (r : string) (s : Severity) (i : Issue) :
  shaped n c r s i -> (1 <= n <= N)%Z -> (1 <= c)%Z ->
  severity_of r = Some s -> issue_ok N i.
Proof.
  unfold issue_ok. intros (-> & -> & -> & ->) Hn Hc Hs.
  split; [exact Hn|]. split; assumption.
Qed.

Ltac shape_cases :=
  repeat match goal with
         | |- context [if ?b then _ else _] => destruct b
         end;
  repeat constructor.

Lemma trailing_newline_shape (content : str) (lines : list str) :
  Forall (shaped (Z.of_nat (length lines)) 1 "trailing-newline" SevWarning)
    (trailing_newline_issues content lines).
Proof. unfold trailing_newline_issues. shape_cases. Qed.

Lemma max_length_shape (n : Z) (raw : str) :
  Forall (shaped n 81 "max-line-length" SevWarning) (max_length_issues n raw).
Proof. unfold max_length_issues. shape_cases. Qed.

Lemma message_name_shape (n : Z) (m : option str) :
  Forall (shaped n 1 "message-name-pascal-case" SevError)
    (message_name_issues n m).
Proof. unfold message_name_issues. destruct m; shape_cases. Qed.

Lemma enum_name_shape (n : Z) (m : option str) :
  Forall (shaped n 1 "enum-name-pascal-case" SevError) (enum_name_issues n m).
Proof. unfold enum_name_issues. destruct m; shape_cases. Qed.

Lemma field_name_shape (n : Z) (m : option str) (b : bool) :
  Forall (shaped n 1 "field-name-snake-case" SevError)
    (field_name_issues n m b).
Proof. unfold field_name_issues. destruct m; shape_cases. Qed.

Lemma service_shape (n : Z) (t : str) (prev : bool) :
  Forall (shaped n 1 "service-comment" SevWarning) (service_issues n t prev).
Proof. unfold service_issues. shape_cases. Qed.

Lemma rpc_shape (n : Z) (t : str) (svc prev : bool) :
  Forall (shaped n 1 "rpc-comment" SevWarning) (rpc_issues n t svc prev).
Proof. unfold rpc_issues. shape_cases. Qed.

Lemma first_value_shape (e : EnumBlock) :
  Forall (shaped (startLine e) 1 "enum-first-value-unspecified" SevError)
    (first_value_issues e).
Proof.
  unfold first_value_issues. destruct (values e); [constructor|]. shape_cases.
Qed.

Lemma enum_value_shape (n : Z) (t : str) (vals : list EnumValue)
    (vi : list Issue) :
  enum_value n t = Ok (vals, vi) ->
  Forall (shaped n 1 "enum-value-upper-snake-case" SevError) vi.
Proof.
  unfold enum_value. destruct (exec VALUE_RE t) as [m|];
    [|intros H; injection H as <- <-; constructor].
  destruct (group m 1) as [v1|]; cbn [bind]; [|discriminate].
  destruct (group m 2) as [v2|]; cbn [bind]; [|discriminate].
  intros H. injection H as _ <-. shape_cases.
Qed.

(** The issues of the enum part are at the line of the loop or at the line
    where the enum it found open was opened. *)
Lemma enum_part_shape (n : Z) (t : str) (b : bool) (ce : option EnumBlock)
    (bs : list EnumBlock) (iss : list Issue) (bs' : list EnumBlock)
    (ce' : option EnumBlock) (b' : bool) :
  enum_part n t b ce bs = Ok (iss, bs', ce', b') ->
  Forall (fun i =>
            shaped n 1 "enum-value-upper-snake-case" SevError i
            \/ exists e, ce = Some e
                 /\ shaped (startLine e) 1 "enum-first-value-unspecified"
                      SevError i) iss.
Proof.
  unfold enum_part. intros H.
  assert (Hsame : Ok (@nil Issue, bs, ce, b) = Ok (iss, bs', ce', b') ->
    Forall (fun i =>
            shaped n 1 "enum-value-upper-snake-case" SevError i
            \/ exists e, ce = Some e
                 /\ shaped (startLine e) 1 "enum-first-value-unspecified"
                      SevError i) iss).
  { intros E. injection E as <- _ _ _. constructor. }
  destruct b; [|apply Hsame; destruct ce; exact H].
  destruct ce as [e|]; [|apply Hsame, H]. clear Hsame.
  destruct (enum_value n t) as [[vals vi]|] eqn:Hv; cbn [bind] in H;
    [|discriminate].
  pose proof (enum_value_shape _ _ Hv) as Hvi.
  assert (Hl : Forall (fun i =>
            shaped n 1 "enum-value-upper-snake-case" SevError i
            \/ exists e0, Some e = Some e0
                 /\ shaped (startLine e0) 1 "enum-first-value-unspecified"
                      SevError i) vi).
  { eapply Forall_impl; [|exact Hvi]. intros i Hi. left. exact Hi. }
  destruct (includes (lit "}") t); injection H as <- _ _ _; [|exact Hl].
  apply Forall_app. split; [exact Hl|].
  eapply Forall_impl; [|apply first_value_shape]. intros i Hi. right.
  exists e. split; [reflexivity | exact Hi].
Qed.

(** One iteration of the loop of [validate], with all it changes. *)
Lemma check_line_explicit (n : Z) (raw : str) (st st' : State) :
  check_line n raw st = Ok st' ->
  exists msgMatch enumMatch fieldMatch ei bs ce b,
    enum_part n (trim raw) (fst (enum_entry n enumMatch st))
      (snd (enum_entry n enumMatch st)) (enumBlocks st) = Ok (ei, bs, ce, b)
    /\ issues st'
       = issues st ++ max_length_issues n raw
         ++ (message_name_issues n msgMatch ++ enum_name_issues n enumMatch)
         ++ ei
         ++ (field_name_issues n fieldMatch b
             ++ service_issues n (trim raw) (prevLineIsComment st)
             ++ rpc_issues n (trim raw)
                  (if startsWith (lit "service ") (trim raw) then true
                   else inService st) (prevLineIsComment st))
    /\ currentEnum st' = ce
    /\ hasSyntax st'
       = (if startsWith (lit "syntax") (trim raw) then true else hasSyntax st)
    /\ hasPackage st'
       = (if startsWith (lit "package ") (trim raw) then true
          else hasPackage st)
    /\ syntaxLine st'
       = (if startsWith (lit "syntax") (trim raw) then n else syntaxLine st)
    /\ packageLine st'
       = (if startsWith (lit "package ") (trim raw) then n
          else packageLine st)
    /\ importLines st'
       = (if startsWith (lit "import ") (trim raw) then
            importLines st
              ++ [mkImport n (trim raw)
                    (startsWith (lit "import public ") (trim raw))]
          else importLines st).
Proof.
  unfold check_line. intros H.
  destruct (captured MESSAGE_RE (trim raw)) as [msgMatch|]; cbn [bind] in H;
    [|discriminate].
  destruct (captured ENUM_RE (trim raw)) as [enumMatch|]; cbn [bind] in H;
    [|discriminate].
  destruct (enum_part n (trim raw) _ _ _) as [[[[ei bs] ce] b]|] eqn:Hp;
    cbn [bind] in H; [|discriminate].
  destruct (captured FIELD_RE (trim raw)) as [fieldMatch|]; cbn [bind] in H;
    [|discriminate].
  destruct (track_braces _ _) as [d2 s2]. injection H as <-.
  exists msgMatch, enumMatch, fieldMatch, ei, bs, ce, b.
  split; [exact Hp|]. cbn. repeat split.
Qed.

End ShapeFacts.

Module PositionFacts.
Import Validator ValidatorSpec ValidatorShape ValidatorFacts ShapeFacts.

(** *** The loop of [validate] *)

Lemma style_inv_step (N n : Z) (raw : str) (st st' : State) :
  style_inv N st -> (1 <= n <= N)%Z -> check_line n raw st = Ok st' ->
  style_inv N st'.
Proof.
  intros (Hi & He & Hp & Him) Hn H.
  destruct (check_line_explicit _ _ _ H)
    as (mm & em & fm & ei & bs & ce & b & Hpart & Hiss & Hce & _ & Hhp & _
        & Hpl & Himp).
  assert (Hentry : forall e0, snd (enum_entry n em st) = Some e0 ->
                              (1 <= startLine e0 <= N)%Z).
  { intros e0 E0. apply entry_origin in E0. destruct E0 as [E0|E0];
      [rewrite E0; exact Hn | apply He, E0]. }
  assert (Hat : forall c r s l, (1 <= c)%Z -> severity_of r = Some s ->
                  Forall (shaped n c r s) l -> Forall (issue_ok N) l).
  { intros c r s l Hc Hs Hl. eapply Forall_impl; [|exact Hl].
    intros i Hsh. eapply shaped_ok; eauto. }
  split; [|split; [|split]].
  - rewrite Hiss. repeat (apply Forall_app; split); try exact Hi.
    + eapply Hat; [| |apply max_length_shape]; [lia | reflexivity].
    + eapply Hat; [| |apply message_name_shape]; [lia | reflexivity].
    + eapply Hat; [| |apply enum_name_shape]; [lia | reflexivity].
    + eapply Forall_impl; [|apply (enum_part_shape _ _ _ _ _ Hpart)].
      intros i [Hsh|(e & E & Hsh)].
      * eapply shaped_ok; [exact Hsh | exact Hn | lia | reflexivity].
      * eapply shaped_ok; [exact Hsh | apply Hentry, E | lia | reflexivity].
    + eapply Hat; [| |apply field_name_shape]; [lia | reflexivity].
    + eapply Hat; [| |apply service_shape]; [lia | reflexivity].
    + eapply Hat; [| |apply rpc_shape]; [lia | reflexivity].
  - intros e1 E1. rewrite Hce in E1.
    destruct (enum_part_current _ _ _ _ _ Hpart) as [_ P2].
    destruct (P2 e1 E1) as (e0 & E0 & ->). apply Hentry, E0.
  - rewrite Hhp, Hpl. destruct (startsWith (lit "package ") (trim raw));
      [intros _; exact Hn | exact Hp].
  - rewrite Himp. destruct (startsWith (lit "import ") (trim raw));
      [|exact Him].
    apply Forall_app. split; [exact Him|]. constructor; [exact Hn|constructor].
Qed.

Lemma style_inv_lines (N : Z) (lines : list str) :
  forall (n : Z) (st st' : State),
    style_inv N st -> (1 <= n)%Z -> (n + Z.of_nat (length lines) - 1 <= N)%Z ->
    check_lines n lines st = Ok st' -> style_inv N st'.
Proof.
  induction lines as [|raw rest IH]; intros n st st' Hv Hn Hl H.
  - simpl in H. injection H as <-. exact Hv.
  - cbn [check_lines] in H. destruct (check_line n raw st) as [st1|] eqn:E;
      cbn [bind] in H; [|discriminate].
    cbn [length] in Hl.
    eapply (IH (n + 1)%Z); [|lia|lia|exact H].
    eapply style_inv_step with (n := n); [exact Hv | lia | exact E].
Qed.

Lemma split_lf_nonempty (s : str) : (1 <= length (split_lf s))%nat.
Proof.
  induction s as [|c s IH]; simpl; [lia|].
  destruct (c =? lf)%N; simpl; [lia|].
  destruct (split_lf s); simpl in *; lia.
Qed.

Lemma structure_issues_ok (N : Z) (st : State) :
  (1 <= N)%Z -> style_inv N st -> Forall (issue_ok N) (structure_issues st).
Proof.
  intros HN (_ & _ & Hp & _). unfold structure_issues.
  repeat (apply Forall_app; split).
  - destruct (negb (hasSyntax st)); repeat constructor; simpl; lia.
  - destruct (negb (hasPackage st)); repeat constructor; simpl; lia.
  - destruct (hasSyntax st); [|constructor].
    destruct (hasPackage st); [|constructor]. simpl.
    destruct (packageLine st <? syntaxLine st)%Z; repeat constructor; simpl;
      try lia; apply Hp; reflexivity.
Qed.

Lemma import_issues_ok (N : Z) (imports : list ImportLine) :
  Forall (fun imp => (1 <= i_line imp <= N)%Z) imports ->
  forall seen, Forall (issue_ok N) (import_issues seen imports).
Proof.
  induction 1 as [|imp rest Hi _ IH]; intros seen; simpl; [constructor|].
  apply Forall_app. split; [|apply IH].
  match goal with
  | |- context [if ?b then [_] else _] => destruct b
  end; repeat constructor; simpl; lia.
Qed.

(** *** The loop of [validateSyntax] *)

Lemma syn_at_ok (N n : Z) (i : Issue) :
  syn_at n i -> (1 <= n <= N)%Z -> issue_ok N i.
Proof.
  unfold issue_ok. intros (-> & Hc & -> & ->) Hn.
  split; [exact Hn|]. split; [exact Hc | reflexivity].
Qed.

Ltac syn_cases :=
  repeat match goal with
         | |- context [if ?b then _ else _] => destruct b
         end;
  repeat constructor; simpl; try lia.

Lemma field_issues_at (n : Z) (ctx code : str) :
  Forall (syn_at n) (Syntax.field_issues n ctx code).
Proof. unfold Syntax.field_issues. syn_cases. Qed.

Lemma enum_issues_at (n : Z) (ctx code : str) :
  Forall (syn_at n) (Syntax.enum_issues n ctx code).
Proof. unfold Syntax.enum_issues. syn_cases. Qed.

Lemma rpc_issues_at (n : Z) (ctx code : str) :
  Forall (syn_at n) (Syntax.rpc_issues n ctx code).
Proof. unfold Syntax.rpc_issues. syn_cases. Qed.

Lemma lastIndexOf_from_low (c : N) (s : str) :
  forall i, (0 <= i)%Z -> (-1 <= Syntax.lastIndexOf_from c i s)%Z.
Proof.
  induction s as [|x s IH]; intros i Hi; simpl; [lia|].
  specialize (IH (i + 1)%Z ltac:(lia)).
  destruct (Syntax.lastIndexOf_from c (i + 1) s <? 0)%Z; [|lia].
  destruct (x =? c)%N; lia.
Qed.

Lemma junk_issues_at (n : Z) (code : str) :
  Forall (syn_at n) (Syntax.junk_issues n code).
Proof.
  unfold Syntax.junk_issues.
  pose proof (@lastIndexOf_from_low Syntax.semi code 0%Z ltac:(lia)) as Hl.
  fold (Syntax.lastIndexOf Syntax.semi code) in Hl.
  repeat match goal with
         | |- context [if ?b then _ else _] => destruct b
         end; repeat constructor; simpl; lia.
Qed.

Lemma unrecognized_issues_at (n : Z) (ctx code : str) (e : bool) :
  Forall (syn_at n) (Syntax.unrecognized_issues n ctx code e).
Proof.
  unfold Syntax.unrecognized_issues.
  destruct (is_empty ctx && negb e); [|constructor].
  match goal with
  | |- context [if ?b then _ else _] => destruct b
  end; repeat constructor; simpl; lia.
Qed.

Lemma semicolon_issues_at (n : Z) (code : str) :
  is_empty code = false -> Forall (syn_at n) (Syntax.semicolon_issues n code).
Proof.
  intros Hc. unfold Syntax.semicolon_issues.
  match goal with
  | |- context [if ?b then _ else _] => destruct b
  end; repeat constructor; simpl.
  unfold len. destruct code; [discriminate | simpl; lia].
Qed.

Lemma syntax_value_issues_at (n : Z) (code : str) (l : list Issue) :
  Syntax.syntax_value_issues n code = Ok l -> Forall (syn_at n) l.
Proof.
  unfold Syntax.syntax_value_issues.
  destruct (exec Syntax.SYNTAX_RE code) as [m|];
    [|intros H; injection H as <-; constructor].
  destruct (group m 1) as [val|]; cbn [bind]; [|discriminate].
  match goal with
  | |- context [if ?b then _ else _] => destruct b
  end; intros H; injection H as <-; repeat constructor; simpl; lia.
Qed.

(** *** The kinds of the contexts *)

Lemma matches_no_group (r : re) (s rest : str) (c c' : caps) :
  matches r s rest c c' -> no_group r = true -> c' = c.
Proof.
  induction 1; simpl; intros Hg; try reflexivity; try discriminate.
  - apply andb_prop in Hg. destruct Hg as [Ha Hb].
    rewrite IHmatches2, IHmatches1; auto.
  - apply andb_prop in Hg. apply IHmatches, Hg.
  - apply andb_prop in Hg. apply IHmatches, Hg.
  - rewrite IHmatches2, IHmatches1; auto.
Qed.

(** A keyword matches itself, and nothing else. *)
Lemma matches_kw (k : list ascii) :
  forall (s rest : str) (c c' : caps),
    matches (seqs (map (fun a => Cls (N.eqb (N_of_ascii a))) k)) s rest c c' ->
    s = map N_of_ascii k /\ c' = c.
Proof.
  induction k as [|a k IH]; intros s rest c c' H; simpl in H.
  - inversion H; subst. split; reflexivity.
  - inversion H as [ | |? ? s1 s2 ? ? c1 ? H1 H2| | | | | | ]; subst.
    inversion H1 as [ |? x ? ? Hx| | | | | | | ]; subst.
    apply N.eqb_eq in Hx. subst x.
    destruct (IH _ _ _ _ H2) as [-> ->]. split; reflexivity.
Qed.

Lemma block_kinds (code : str) (bm : Match) (ty : str) :
  exec Syntax.BLOCK_RE code = Some bm -> group bm 1 = Ok ty ->
  In ty [lit "message"; lit "enum"; lit "service"; lit "oneof"].
Proof.
  intros H Hg. unfold Syntax.BLOCK_RE in H.
  apply exec_anchored_sound in H. destruct H as (s1 & s2 & _ & M).
  unfold group in Hg. cbn [seqs fold_right] in M.
  inversion M as [ | |? ? g r1 ? ? c1 ? M1 M2| | | | | | ]; subst.
  inversion M1 as [ | | | | | | |? ? ? ? ? c0 Ma| ]; subst.
  inversion M2 as [ | |? ? w r2 ? ? c2 ? Mw M3| | | | | | ]; subst.
  apply matches_no_group in Mw; [|reflexivity]. subst c2.
  inversion M3 as [ | |? ? g2 r3 ? ? c3 ? Mg M4| | | | | | ]; subst.
  inversion M4; subst.
  inversion Mg as [ | | | | | | |? ? ? ? ? c4 Mb| ]; subst.
  apply matches_no_group in Mb; [|reflexivity]. subst c4.
  match goal with
  | E : set_cap _ _ _ = m_caps bm |- _ => rewrite <- E in Hg
  end.
  cbn [set_cap Nat.eqb] in Hg. injection Hg as <-.
  assert (Hk : forall k s rest c c', matches (kw k) s rest c c' -> s = lit k).
  { intros k s rest c c' Hm. apply matches_kw in Hm. apply Hm. }
  cbn [alts] in Ma.
  inversion Ma as [ | | |? ? ? ? ? ? A|? ? ? ? ? ? A| | | | ]; subst;
    [apply Hk in A; subst; simpl; tauto|].
  inversion A as [ | | |? ? ? ? ? ? B|? ? ? ? ? ? B| | | | ]; subst;
    [apply Hk in B; subst; simpl; tauto|].
  inversion B as [ | | |? ? ? ? ? ? C|? ? ? ? ? ? C| | | | ]; subst;
    [apply Hk in C; subst; simpl; tauto|].
  apply Hk in C. subst. simpl. tauto.
Qed.

(** *** The invariant of the scanner *)

Lemma kind_of_block (ty : str) :
  In ty [lit "message"; lit "enum"; lit "service"; lit "oneof"] -> kind_ok ty.
Proof. unfold kind_ok. simpl. tauto. Qed.

Lemma detect_block_inv (N n : Z) (code : str) (st st2 : Syntax.State) :
  scan_inv N st -> (1 <= n <= N)%Z ->
  Syntax.detect_block n code (exec Syntax.BLOCK_RE code) st = Ok st2 ->
  scan_inv N st2.
Proof.
  intros (Hi & Hs & He) Hn. unfold Syntax.detect_block.
  destruct (exec Syntax.BLOCK_RE code) as [bm|] eqn:E.
  - destruct (group bm 1) as [ty|] eqn:G; cbn [bind]; [|discriminate].
    pose proof (kind_of_block (block_kinds _ E G)) as Hk.
    assert (Hnamed : Forall (issue_ok N)
              (Syntax.issues st ++
               (if is_empty (group_or_empty bm 2)
                then [Syntax.syntax_error n 1
                        (ty ++ lit " declaration is missing a name.")]
                else []))).
    { apply Forall_app. split; [exact Hi|].
      destruct (is_empty _); repeat constructor; simpl; lia. }
    destruct (includes (lit "{") code); intros H; injection H as <-;
      (split; [exact Hnamed|]); cbn.
    + split; [|exact He]. apply Forall_app. split; [exact Hs|].
      constructor; [split; [simpl; lia | exact Hk] | constructor].
    + split; [exact Hs|]. intros _. split; [exact Hn | exact Hk].
  - destruct (Syntax.expectingBody st) eqn:B;
      [|intros H; injection H as <-; split; [exact Hi|]; split;
         [exact Hs | rewrite B; discriminate]].
    destruct (He eq_refl) as [Hl Hk].
    destruct (startsWith (lit "{") code || str_eqb code (lit "{"));
      intros H; injection H as <-; cbn.
    + split; [exact Hi|]. split; [|discriminate].
      apply Forall_app. split; [exact Hs|].
      constructor; [split; [simpl; lia | exact Hk] | constructor].
    + split; [|split; [exact Hs | discriminate]].
      apply Forall_app. split; [exact Hi|]. repeat constructor; simpl; lia.
Qed.

Lemma push_open_inv (N n : Z) (hb : bool) (k : nat) :
  (1 <= n <= N)%Z ->
  forall stack, Forall (context_ok N) stack ->
                Forall (context_ok N) (Syntax.push_open n hb k stack).
Proof.
  intros Hn. unfold Syntax.push_open. generalize (seq 0 k) as js.
  induction js as [|j js IH]; intros stack Hs; simpl; [exact Hs|].
  apply IH. destruct (negb hb || (0 <? j)%nat); [|exact Hs].
  apply Forall_app. split; [exact Hs|].
  constructor; [split; [simpl; lia | unfold kind_ok; simpl; tauto]
               | constructor].
Qed.

Lemma Forall_removelast (A : Type) (P : A -> Prop) (l : list A) :
  Forall P l -> Forall P (removelast l).
Proof.
  induction 1 as [|x l Hx Hl IH]; simpl; [constructor|].
  destruct l; [constructor | constructor; assumption].
Qed.

Lemma pop_close_inv (N n : Z) (k : nat) :
  (1 <= n <= N)%Z ->
  forall iss stack,
    Forall (issue_ok N) iss -> Forall (context_ok N) stack ->
    Forall (issue_ok N) (fst (Syntax.pop_close n k (iss, stack)))
    /\ Forall (context_ok N) (snd (Syntax.pop_close n k (iss, stack))).
Proof.
  intros Hn. induction k as [|k IH]; intros iss stack Hi Hs;
    cbn [Syntax.pop_close]; [split; assumption|].
  destruct stack as [|c stack].
  - apply IH; [|constructor]. apply Forall_app. split; [exact Hi|].
    repeat constructor; simpl; lia.
  - apply IH; [exact Hi | apply Forall_removelast, Hs].
Qed.

Lemma scan_inv_step (N n : Z) (raw : str) (st st' : Syntax.State) :
  scan_inv N st -> (1 <= n <= N)%Z -> Syntax.scan_line n raw st = Ok st' ->
  scan_inv N st'.
Proof.
  intros Hv Hn. unfold Syntax.scan_line.
  match goal with
  | |- context [if ?b then Ok st else _] => destruct b
  end; [intros H; injection H as <-; exact Hv|].
  set (code := trim (replace Syntax.INLINE_COMMENT _ (trim raw))).
  destruct (is_empty code) eqn:Ec; [intros H; injection H as <-; exact Hv|].
  set (ctx := Syntax.currentContext_of (Syntax.braceStack st)).
  set (st1 := Syntax.mkState _ _ _ _ _ _).
  assert (H1 : scan_inv N st1).
  { destruct Hv as (Hi & Hs & He). split; [|split; assumption].
    cbn. repeat (apply Forall_app; split); try exact Hi.
    - eapply Forall_impl; [|apply field_issues_at].
      intros i Hi'. eapply syn_at_ok; eassumption.
    - eapply Forall_impl; [|apply enum_issues_at].
      intros i Hi'. eapply syn_at_ok; eassumption. }
  destruct (Syntax.detect_block n code (exec Syntax.BLOCK_RE code) st1)
    as [st2|] eqn:E2; cbn [bind]; [|discriminate].
  pose proof (detect_block_inv _ H1 Hn E2) as (Hi2 & Hs2 & He2).
  match goal with
  | |- context [Syntax.pop_close n ?k (?i, ?s)] =>
      destruct (@pop_close_inv N n k Hn i s Hi2
                  (push_open_inv _ _ Hn Hs2)) as [Hi3 Hs3];
      destruct (Syntax.pop_close n k (i, s)) as [iss3 stack3]
  end.
  cbn [fst snd] in Hi3, Hs3.
  destruct (Syntax.syntax_value_issues n code) as [syn|] eqn:Es;
    cbn [bind]; [|discriminate].
  intros H. injection H as <-. split; [|split; [exact Hs3 | exact He2]].
  cbn. repeat (apply Forall_app; split); try exact Hi3;
    (eapply Forall_impl; [intros i Hi'; eapply syn_at_ok; [exact Hi' | exact Hn]|]).
  - apply rpc_issues_at.
  - eapply syntax_value_issues_at, Es.
  - apply junk_issues_at.
  - apply unrecognized_issues_at.
  - apply semicolon_issues_at, Ec.
Qed.

Lemma scan_inv_lines (N : Z) (lines : list str) :
  forall (n : Z) (st st' : Syntax.State),
    scan_inv N st -> (1 <= n)%Z -> (n + Z.of_nat (length lines) - 1 <= N)%Z ->
    Syntax.scan n lines st = Ok st' -> scan_inv N st'.
Proof.
  induction lines as [|raw rest IH]; intros n st st' Hv Hn Hl H.
  - simpl in H. injection H as <-. exact Hv.
  - cbn [Syntax.scan] in H.
    destruct (Syntax.scan_line n raw st) as [st1|] eqn:E;
      cbn [bind] in H; [|discriminate].
    cbn [length] in Hl.
    eapply (IH (n + 1)%Z); [|lia|lia|exact H].
    eapply scan_inv_step with (n := n); [exact Hv | lia | exact E].
Qed.

Lemma scan_inv_init (N : Z) : scan_inv N Syntax.init.
Proof. split; [constructor|]. split; [constructor | discriminate]. Qed.

Lemma validateSyntax_issues_ok (lines : list str) (l : list Issue) :
  Syntax.validateSyntax lines = Ok l ->
  Forall (issue_ok (Z.of_nat (length lines))) l.
Proof.
  unfold Syntax.validateSyntax.
  destruct (Syntax.scan 1 lines Syntax.init) as [st|] eqn:E; cbn [bind];
    [|discriminate].
  intros H. injection H as <-.
  assert (Hv : scan_inv (Z.of_nat (length lines)) st).
  { eapply scan_inv_lines with (n := 1%Z) (lines := lines);
      [apply scan_inv_init | lia | lia
                                           | exact E]. }
  destruct Hv as (Hi & Hs & _).
  apply Forall_app. split; [exact Hi|].
  apply Forall_forall. intros i Hin. apply in_map_iff in Hin.
  destruct Hin as (c & <- & Hc). rewrite Forall_forall in Hs.
  destruct (Hs c Hc) as [Hl _]. repeat split; simpl; lia.
Qed.

(** All the issues of the two passes are well placed and of the severity
    of their rule. *)
Lemma emitted_issues_ok (content : str) :
  exists all,
    emitted content = Ok all
    /\ Forall (issue_ok (Z.of_nat (length (split_lf content)))) all.
Proof.
  unfold emitted. set (lines := split_lf content).
  set (N := Z.of_nat (length lines)).
  assert (HN : (1 <= N)%Z).
  { unfold N, lines. pose proof (split_lf_nonempty content). lia. }
  destruct (check_lines_ok lines 1
              (init (trailing_newline_issues content lines)))
    as (st & new & H & _).
  rewrite H. cbn [bind].
  destruct (validateSyntax_ok lines) as (syn & Hs & _). rewrite Hs.
  cbn [bind]. eexists. split; [reflexivity|].
  assert (Hinit : style_inv N (init (trailing_newline_issues content lines))).
  { split; [|split; [discriminate | split; [discriminate | constructor]]].
    cbn. eapply Forall_impl; [|apply trailing_newline_shape].
    intros i Hi. eapply shaped_ok; [exact Hi | | lia | reflexivity].
    fold N. lia. }
  assert (Hst : style_inv N st).
  { eapply style_inv_lines with (n := 1%Z) (lines := lines); [exact Hinit | lia | fold N; lia
                                            | exact H]. }
  apply Forall_app. split; [apply Hst|].
  apply Forall_app. split; [apply structure_issues_ok; assumption|].
  apply Forall_app. split; [apply import_issues_ok, Hst|].
  apply validateSyntax_issues_ok, Hs.
Qed.

Lemma severity_of_not_info (r : string) : severity_of r <> Some SevInfo.
Proof.
  unfold severity_of.
  repeat match goal with
         | |- context [if ?b then _ else _] => destruct b
         end; discriminate.
Qed.

End PositionFacts.

(* ================================================================== *)
(** ** The file-structure rules *)
(* ================================================================== *)

Module StructureFacts.
Import Validator ValidatorSpec ValidatorFacts ReportFacts ValidatorShape
       ShapeFacts PositionFacts StructureSpec.

(** *** The sort keeps what a filter selects *)

Lemma key_le_before (a b : Issue) : key_le a b -> before a b = true.
Proof.
  unfold key_le, before, compare_issues. intros [H|[H1 H2]].
  - destruct (Z.eqb_spec (line a - line b) 0); apply Z.leb_le; lia.
  - rewrite H1, Z.sub_diag. simpl. apply Z.leb_le. lia.
Qed.

Lemma insert_head (a : Issue) (l : list Issue) :
  Forall (key_le a) l -> insert a l = a :: l.
Proof.
  intros H. destruct l as [|b l]; [reflexivity|]. simpl.
  inversion H as [|? ? Hb _]; subst. rewrite (key_le_before Hb). reflexivity.
Qed.

Lemma filter_insert (f : Issue -> bool) (a : Issue) (l : list Issue) :
  StronglySorted key_le l ->
  filter f (insert a l) = if f a then insert a (filter f l) else filter f l.
Proof.
  induction 1 as [|b l Hs IH Hb]; simpl.
  - destruct (f a); reflexivity.
  - destruct (before a b) eqn:E.
    + cbn [filter]. destruct (f a) eqn:Fa; [|reflexivity].
      destruct (f b) eqn:Fb.
      * cbn [insert]. rewrite E. reflexivity.
      * symmetry. apply insert_head. apply before_key_le in E.
        apply Forall_forall. intros c Hc. apply filter_In in Hc.
        rewrite Forall_forall in Hb.
        eapply key_le_trans; [exact E | apply Hb, Hc].
    + cbn [filter]. rewrite IH. destruct (f a), (f b); try reflexivity.
      cbn [insert]. rewrite E. reflexivity.
Qed.

Lemma filter_sort (f : Issue -> bool) (l : list Issue) :
  filter f (sort l) = sort (filter f l).
Proof.
  induction l as [|a l IH]; [reflexivity|].
  cbn [sort fold_right filter]. fold (sort l).
  rewrite filter_insert by apply sort_sorted. rewrite IH.
  destruct (f a); reflexivity.
Qed.

Lemma sort_sorted_id (l : list Issue) : StronglySorted key_le l -> sort l = l.
Proof.
  induction 1 as [|a l Hs IH Ha]; [reflexivity|].
  cbn [sort fold_right]. fold (sort l). rewrite IH. apply insert_head, Ha.
Qed.

Lemma only_filter_nil (rs : list string) (c : string) (l : list Issue) :
  only rs l -> ~ In c rs -> filter (rule_is c) l = [].
Proof.
  intros H Hc. pose proof (only_count_0 c H Hc) as E. unfold count_rule in E.
  destruct (filter (rule_is c) l); [reflexivity | discriminate].
Qed.

(** *** The variables of the loop at its end *)

Lemma check_lines_structure (lines : list str) :
  forall (n : Z) (st st' : State),
    check_lines n lines st = Ok st' ->
    hasSyntax st' = hasSyntax st || existsb (declares (lit "syntax")) lines
    /\ hasPackage st'
       = hasPackage st || existsb (declares (lit "package ")) lines
    /\ syntaxLine st'
       = last_line (declares (lit "syntax")) n lines (syntaxLine st)
    /\ packageLine st'
       = last_line (declares (lit "package ")) n lines (packageLine st)
    /\ importLines st' = importLines st ++ imports_of n lines.
Proof.
  induction lines as [|raw rest IH]; intros n st st' H.
  - simpl in H. injection H as <-. simpl. rewrite !orb_false_r, app_nil_r.
    repeat split; reflexivity.
  - cbn [check_lines] in H. destruct (check_line n raw st) as [st1|] eqn:E;
      cbn [bind] in H; [|discriminate].
    destruct (check_line_explicit _ _ _ E)
      as (? & ? & ? & ? & ? & ? & ? & _ & _ & _ & Hs & Hp & Hsl & Hpl & Him).
    destruct (IH _ _ _ H) as (Is & Ip & Isl & Ipl & Iim).
    cbn [existsb last_line imports_of]. unfold declares at 1 3 5 7 9 10.
    rewrite Is, Ip, Isl, Ipl, Iim, Hs, Hp, Hsl, Hpl, Him.
    repeat split.
    + destruct (startsWith (lit "syntax") (trim raw)), (hasSyntax st);
        reflexivity.
    + destruct (startsWith (lit "package ") (trim raw)), (hasPackage st);
        reflexivity.
    + destruct (startsWith (lit "import ") (trim raw));
        [rewrite <- app_assoc; reflexivity | reflexivity].
Qed.

(** *** The import-ordering warnings *)

Lemma import_issues_late (lines : list str) :
  forall (seen : bool) (n : Z),
    import_issues seen (imports_of n lines)
    = map import_ordering_issue (late_public seen n lines).
Proof.
  induction lines as [|raw rest IH]; intros seen n; [reflexivity|].
  cbn [imports_of late_public].
  destruct (declares (lit "import ") raw); [|apply IH].
  cbn [app import_issues isPublic i_line].
  destruct (declares (lit "import public ") raw); cbn [negb andb].
  - rewrite map_app, IH. destruct seen; reflexivity.
  - cbn [app]. apply IH.
Qed.

Lemma late_public_from (lines : list str) :
  forall (seen : bool) (n : Z),
    Forall (fun l => n <= l)%Z (late_public seen n lines).
Proof.
  induction lines as [|raw rest IH]; intros seen n; [constructor|].
  cbn [late_public].
  assert (H : forall b, Forall (fun l => n <= l)%Z (late_public b (n + 1) rest)).
  { intros b. eapply Forall_impl; [|apply IH]. simpl. intros; lia. }
  destruct (declares (lit "import ") raw); [|apply H].
  destruct (declares (lit "import public ") raw); [|apply H].
  apply Forall_app. split; [|apply H].
  destruct seen; repeat constructor. lia.
Qed.

Lemma late_public_sorted (lines : list str) :
  forall (seen : bool) (n : Z),
    StronglySorted key_le
      (map import_ordering_issue (late_public seen n lines)).
Proof.
  induction lines as [|raw rest IH]; intros seen n; [constructor|].
  cbn [late_public].
  destruct (declares (lit "import ") raw); [|apply IH].
  destruct (declares (lit "import public ") raw); [|apply IH].
  destruct seen; cbn [app map]; [|apply IH].
  constructor; [apply IH|]. apply Forall_forall. intros i Hi.
  apply in_map_iff in Hi. destruct Hi as (l & <- & Hl).
  pose proof (late_public_from rest true (n + 1)) as F.
  rewrite Forall_forall in F. specialize (F l Hl).
  left. simpl. lia.
Qed.

Lemma import_issues_rule (imports : list ImportLine) :
  forall seen, only ["import-ordering"%string] (import_issues seen imports).
Proof.
  induction imports as [|imp rest IH]; intros seen; simpl; [apply only_nil|].
  apply only_app; [|apply IH].
  match goal with
  | |- context [if ?b then [_] else _] => destruct b
  end; [one_rule | apply only_nil].
Qed.

Lemma filter_all (f : Issue -> bool) (l : list Issue) :
  Forall (fun i => f i = true) l -> filter f l = l.
Proof.
  induction 1 as [|a l Ha _ IH]; [reflexivity|]. simpl. rewrite Ha, IH.
  reflexivity.
Qed.

(** *** The issues of the rules that look at the whole file *)

Lemma emitted_whole_file (content : str) :
  exists st all,
    check_lines 1 (split_lf content)
      (init (trailing_newline_issues content (split_lf content))) = Ok st
    /\ emitted content = Ok all
    /\ forall c, In c whole_file_rules ->
         filter (rule_is c) all
         = filter (rule_is c) (structure_issues st)
           ++ filter (rule_is c) (import_issues false (importLines st)).
Proof.
  unfold emitted. set (lines := split_lf content).
  destruct (check_lines_ok lines 1
              (init (trailing_newline_issues content lines)))
    as (st & new & H & Hi & Ho & _).
  rewrite H. cbn [bind].
  destruct (validateSyntax_ok lines) as (syn & Hs & Os). rewrite Hs.
  cbn [bind]. exists st. eexists. split; [reflexivity|].
  split; [reflexivity|]. intros c Hc.
  rewrite !filter_app, Hi. cbn [issues init]. rewrite filter_app.
  rewrite (@only_filter_nil ["trailing-newline"%string] c
             (trailing_newline_issues content lines)).
  - rewrite (only_filter_nil c Ho), (only_filter_nil c Os).
    + cbn [app]. rewrite !app_nil_r. reflexivity.
    + simpl in Hc. simpl. intuition congruence.
    + simpl in Hc. unfold loop_rules. simpl. intuition congruence.
  - unfold trailing_newline_issues.
    destruct (_ && _); [one_rule | apply only_nil].
  - simpl in Hc. simpl. intuition congruence.
Qed.

(** The part of one rule and one severity in the report. *)
Lemma report_rule (c : string) (s : Severity) (all : list Issue) :
  filter (rule_is c) (filter (has_severity s) (sort all))
  = sort (filter (has_severity s) (filter (rule_is c) all)).
Proof. rewrite filter_comm, !filter_sort. reflexivity. Qed.

End StructureFacts.

(* ================================================================== *)
(** ** Matches inside a subject, and what a replacement keeps *)
(* ================================================================== *)

Section MatchPlace.

Lemma search_from_sound (r : re) (s : str) :
  forall (i : nat) (m : Match),
    search_from r i s = Some m ->
    exists pre mid post,
      s = pre ++ mid ++ post
      /\ m_index m = (i + length pre)%nat
      /\ m_end m = (i + length pre + length mid)%nat
      /\ matches r mid post no_caps (m_caps m).
Proof.
  induction s as [|x s IH]; intros i m H; simpl in H.
  - destruct (match_here r []) as [[n c]|] eqn:E; [|discriminate].
    injection H as <-. apply match_here_sound in E.
    destruct E as (s1 & s2 & E & -> & M).
    exists [], s1, s2. simpl. repeat split; [exact E | lia | lia | exact M].
  - destruct (match_here r (x :: s)) as [[n c]|] eqn:E.
    + injection H as <-. apply match_here_sound in E.
      destruct E as (s1 & s2 & E & -> & M).
      exists [], s1, s2. simpl. repeat split; [exact E | lia | lia | exact M].
    + apply IH in H. destruct H as (pre & mid & post & -> & Hi & He & M).
      exists (x :: pre), mid, post. simpl.
      repeat split; [lia | lia | exact M].
Qed.

Lemma exec_sound (rx : regex) (s : str) (m : Match) :
  exec rx s = Some m ->
  exists pre mid post,
    s = pre ++ mid ++ post
    /\ m_index m = length pre
    /\ m_end m = (length pre + length mid)%nat
    /\ matches (body rx) mid post no_caps (m_caps m).
Proof.
  unfold exec. destruct (anchored rx).
  - destruct (match_here (body rx) s) as [[n c]|] eqn:E; [|discriminate].
    intros H. injection H as <-. apply match_here_sound in E.
    destruct E as (s1 & s2 & -> & -> & M).
    exists [], s1, s2. simpl. repeat split. exact M.
  - intros H. apply search_from_sound in H.
    destruct H as (pre & mid & post & -> & Hi & He & M).
    exists pre, mid, post. repeat split; assumption.
Qed.

Lemma firstn_pre (pre rest : str) : firstn (length pre) (pre ++ rest) = pre.
Proof. rewrite firstn_app, Nat.sub_diag, firstn_all. simpl. apply app_nil_r. Qed.

Lemma skipn_pre (pre rest : str) : skipn (length pre) (pre ++ rest) = rest.
Proof. rewrite skipn_app, Nat.sub_diag, skipn_all. reflexivity. Qed.

Lemma skipn_pre_mid (pre mid post : str) :
  skipn (length pre + length mid) (pre ++ mid ++ post) = post.
Proof. rewrite app_assoc, <- length_app. apply skipn_pre. Qed.

(** [replace] writes the replacement in the place of the match. *)
Lemma replace_place (rx : regex) (rep : Match -> str) (s : str) :
  replace rx rep s = s
  \/ exists m pre mid post,
       s = pre ++ mid ++ post
       /\ replace rx rep s = pre ++ rep m ++ post
       /\ matches (body rx) mid post no_caps (m_caps m).
Proof.
  unfold replace. destruct (exec rx s) as [m|] eqn:E; [|left; reflexivity].
  right. apply exec_sound in E.
  destruct E as (pre & mid & post & -> & Hi & He & M).
  exists m, pre, mid, post. rewrite Hi, He, firstn_pre, skipn_pre_mid.
  repeat split. exact M.
Qed.

(** *** Inversion of the matches *)

Lemma matches_seq (a b : re) (s rest : str) (c c' : caps) :
  matches (Seq a b) s rest c c' ->
  exists s1 s2 c1,
    s = s1 ++ s2 /\ matches a s1 (s2 ++ rest) c c1 /\ matches b s2 rest c1 c'.
Proof. inversion 1; subst. do 3 eexists. repeat split; eassumption. Qed.

Lemma matches_cls (p : N -> bool) (s rest : str) (c c' : caps) :
  matches (Cls p) s rest c c' -> exists x, s = [x] /\ p x = true /\ c' = c.
Proof. inversion 1; subst. eexists. repeat split. assumption. Qed.

Lemma matches_eps (s rest : str) (c c' : caps) :
  matches Eps s rest c c' -> s = [] /\ c' = c.
Proof. inversion 1; subst. split; reflexivity. Qed.

Lemma matches_eoi (s rest : str) (c c' : caps) :
  matches Eoi s rest c c' -> s = [] /\ rest = [] /\ c' = c.
Proof. inversion 1; subst. repeat split. Qed.

Lemma matches_grp (i : nat) (a : re) (s rest : str) (c c' : caps) :
  matches (Grp i a) s rest c c' ->
  exists c1, matches a s rest c c1 /\ c' = set_cap i s c1.
Proof. inversion 1; subst. eexists. split; [eassumption | reflexivity]. Qed.

Lemma matches_alt (a b : re) (s rest : str) (c c' : caps) :
  matches (Alt a b) s rest c c' ->
  matches a s rest c c' \/ matches b s rest c c'.
Proof. inversion 1; subst; [left | right]; assumption. Qed.

Lemma matches_star_cls (p : N -> bool) (s rest : str) (c c' : caps) :
  matches (Star (Cls p)) s rest c c' -> forallb p s = true /\ c' = c.
Proof.
  intros H. remember (Star (Cls p)) as r eqn:Hr. revert Hr.
  induction H; intros Hr; try discriminate.
  - split; reflexivity.
  - injection Hr as ->. destruct (IHmatches2 eq_refl) as [F ->].
    apply matches_cls in H0. destruct H0 as (x & -> & Px & ->).
    split; [|reflexivity]. simpl. rewrite Px, F. reflexivity.
Qed.

End MatchPlace.

(** Takes a match of a sequence of classes, stars of classes, groups and
    ends of input apart. *)
Ltac split_match :=
  repeat match goal with
    | H : matches (Seq _ _) _ _ _ _ |- _ =>
        apply matches_seq in H;
        let s1 := fresh "s" in
        let s2 := fresh "s" in
        let c1 := fresh "c" in
        destruct H as (s1 & s2 & c1 & -> & ? & ?)
    | H : matches (Star (Cls _)) _ _ _ _ |- _ =>
        apply matches_star_cls in H;
        let F := fresh "F" in destruct H as [F ->]
    | H : matches (Cls _) _ _ _ _ |- _ =>
        apply matches_cls in H;
        let x := fresh "x" in
        let P := fresh "P" in destruct H as (x & -> & P & ->)
    | H : matches Eps _ _ _ _ |- _ =>
        apply matches_eps in H; destruct H as [-> ->]
    | H : matches Eoi _ _ _ _ |- _ =>
        apply matches_eoi in H; destruct H as (-> & ? & ->)
    | H : matches (Grp _ _) _ _ _ _ |- _ =>
        apply matches_grp in H;
        let c1 := fresh "c" in destruct H as (c1 & H & ->)
    | H : matches (Alt _ _) _ _ _ _ |- _ =>
        apply matches_alt in H; destruct H as [H|H]
    end.

(* ================================================================== *)
(** ** The formatter changes white space only *)
(* ================================================================== *)

Module WhitespaceFacts.
Import Formatter FormatterSpec FormatterFacts.

Lemma squeeze_app (a b : str) : squeeze (a ++ b) = squeeze a ++ squeeze b.
Proof. apply filter_app. Qed.

Lemma squeeze_ws (s : str) : forallb is_ws s = true -> squeeze s = [].
Proof.
  induction s as [|x s IH]; [reflexivity|]. simpl. intros H.
  apply andb_prop in H. destruct H as [Hx Hs]. rewrite Hx. simpl. apply IH, Hs.
Qed.






(** A replacement that is the match, white space apart. *)
Lemma replace_squeeze (rx : regex) (rep : Match -> str) (s : str) :
  (forall m mid post,
      matches (body rx) mid post no_caps (m_caps m) ->
      squeeze (rep m) = squeeze mid) ->
  squeeze (replace rx rep s) = squeeze s.
Proof.
  intros Hr. destruct (replace_place rx rep s)
    as [->|(m & pre & mid & post & -> & -> & M)]; [reflexivity|].
  rewrite !squeeze_app, (Hr _ _ _ M). reflexivity.
Qed.

Lemma replace_all_from_squeeze (r : re) (rep : str) :
  (forall m mid post,
      matches r mid post no_caps (m_caps m) -> squeeze rep = squeeze mid) ->
  forall (fuel : nat) (s : str),
    squeeze (replace_all_from r rep fuel s) = squeeze s.
Proof.
  intros Hr fuel. induction fuel as [|fuel IH]; intros s; [reflexivity|].
  simpl. destruct (search_from r 0 s) as [m|] eqn:E; [|reflexivity].
  apply search_from_sound in E.
  destruct E as (pre & mid & post & -> & Hi & He & M).
  simpl in Hi, He. rewrite Hi, He. rewrite firstn_pre.
  destruct (length pre <? length pre + length mid)%nat eqn:L.
  - rewrite skipn_pre_mid, !squeeze_app, IH, (Hr _ _ _ M). reflexivity.
  - apply Nat.ltb_ge in L. assert (mid = []) by (destruct mid; simpl in L;
      [reflexivity | lia]). subst mid. rewrite skipn_pre. cbn [app].
    specialize (Hr _ _ _ M). simpl in Hr.
    destruct post as [|x post].
    + rewrite !squeeze_app, Hr. reflexivity.
    + rewrite !squeeze_app, Hr. cbn [app].
      change (x :: replace_all_from r rep fuel post)
        with ([x] ++ replace_all_from r rep fuel post).
      change (x :: post) with ([x] ++ post).
      rewrite !squeeze_app, IH. reflexivity.
Qed.

(** Solves [squeeze rep = squeeze mid] once the match is taken apart. *)
Ltac squeeze_parts :=
  repeat match goal with
    | P : (_ =? ?x)%N = true |- _ => apply N.eqb_eq in P; subst x
    end;
  rewrite ?squeeze_app;
  repeat match goal with
    | F : forallb is_ws ?s = true |- _ => rewrite (squeeze_ws s F); clear F
    | P : is_ws ?x = true |- _ =>
        rewrite (squeeze_ws [x]) by (simpl; rewrite P; reflexivity); clear P
    end;
  reflexivity.

Ltac squeeze_match :=
  let m := fresh "m" in
  let M := fresh "M" in
  let mi := fresh "mi" in
  let me := fresh "me" in
  let cf := fresh "cf" in
  intros m ? ? M; destruct m as [mi me cf];
  cbn [m_caps body anywhere at_start] in M;
  unfold Plus, ws, chr, kw, seqs, alts in M;
  cbn [fold_right map list_ascii_of_string] in M;
  split_match; squeeze_parts.

Lemma spaces_squeeze (s : str) : squeeze (replace SPACES sp s) = squeeze s.
Proof. apply replace_squeeze. unfold SPACES, sp. squeeze_match. Qed.

Lemma spaces_semi_squeeze (s : str) :
  squeeze (replace SPACES_SEMI (fun _ => lit ";") s) = squeeze s.
Proof. apply replace_squeeze. unfold SPACES_SEMI. squeeze_match. Qed.

Lemma equals_squeeze (s : str) :
  squeeze (replace EQUALS_RE (fun _ => lit " = ") s) = squeeze s.
Proof. apply replace_squeeze. unfold EQUALS_RE. squeeze_match. Qed.

Lemma spaces_brace_squeeze (s : str) :
  squeeze (replace SPACES_BRACE_END (fun _ => lit " {") s) = squeeze s.
Proof. apply replace_squeeze. unfold SPACES_BRACE_END. squeeze_match. Qed.

Lemma returns_squeeze (s : str) :
  squeeze (replace RETURNS_RE (fun _ => lit ") returns (") s) = squeeze s.
Proof. apply replace_squeeze. unfold RETURNS_RE. squeeze_match. Qed.

Lemma paren_spaces_squeeze (s : str) :
  squeeze (replace_all PAREN_SPACES (lit "(") s) = squeeze s.
Proof.
  apply replace_all_from_squeeze. unfold PAREN_SPACES. squeeze_match.
Qed.

Lemma spaces_paren_squeeze (s : str) :
  squeeze (replace_all SPACES_PAREN (lit ")") s) = squeeze s.
Proof.
  apply replace_all_from_squeeze. unfold SPACES_PAREN. squeeze_match.
Qed.

Lemma block_openers_squeeze (s : str) :
  squeeze (replace BLOCK_OPENERS (fun m => group_or_empty m 1 ++ lit " ") s)
  = squeeze s.
Proof.
  apply replace_squeeze. unfold BLOCK_OPENERS.
  intros m mid post M. destruct m as [mi me cf].
  cbn [m_caps body anywhere at_start] in M.
  unfold Plus, ws, chr, kw, seqs, alts in M.
  cbn [fold_right map list_ascii_of_string] in M.
  split_match; unfold group_or_empty; cbn [m_caps set_cap Nat.eqb];
    squeeze_parts.
Qed.

Lemma classify_squeeze (trimmed : str) :
  squeeze (fst (classify trimmed)) = squeeze trimmed.
Proof.
  unfold classify.
  repeat match goal with
         | |- context [if ?b then _ else _] => destruct b
         end; cbn [fst];
    rewrite ?spaces_squeeze, ?spaces_semi_squeeze, ?equals_squeeze,
      ?spaces_brace_squeeze, ?returns_squeeze, ?spaces_paren_squeeze,
      ?paren_spaces_squeeze, ?block_openers_squeeze; reflexivity.
Qed.

(** *** The lines *)






(** *** The two loops *)





Lemma indent_squeeze (d : Z) (ind : str) : indent d = Ok ind -> squeeze ind = [].
Proof.
  unfold indent, js_repeat. destruct (d <? 0)%Z; [discriminate|].
  intros H. injection H as <-.
  induction (Z.to_nat d) as [|n IH]; [reflexivity|]. simpl. exact IH.
Qed.





End WhitespaceFacts.

(* ================================================================== *)
(** ** The depths of the formatted lines *)
(* ================================================================== *)

Module DepthFacts.
Import Formatter FormatterSpec FormatterFacts FormatterShape.

Lemma last_cons (A : Type) (a d : A) (l : list A) : last (a :: l) d = last l a.
Proof.
  revert a d. induction l as [|b l IH]; intros a d; [reflexivity|].
  change (last (a :: b :: l) d) with (last (b :: l) d).
  rewrite !IH. reflexivity.
Qed.

Lemma in_last (A : Type) (l : list A) : forall d, In (last l d) (d :: l).
Proof.
  induction l as [|x l IH]; intros d; [left; reflexivity|].
  rewrite last_cons. right. apply IH.
Qed.

Lemma steps_from_snoc (ls : list Line) :
  forall (p c : Line),
    steps_from p ls -> step_ok (last ls p) c -> steps_from p (ls ++ [c]).
Proof.
  induction ls as [|x ls IH]; intros p c Hs Hc; simpl.
  - split; [exact Hc | exact I].
  - destruct Hs as [Hx Hs]. split; [exact Hx|]. apply IH; [exact Hs|].
    rewrite last_cons in Hc. exact Hc.
Qed.

Lemma last_snoc (A : Type) (l : list A) (x d : A) : last (l ++ [x]) d = x.
Proof. apply last_last. Qed.

Lemma rpc_with_body_ends (t : str) :
  test RPC_WITH_BODY t = true -> endsWith (lit "{") t = true.
Proof.
  unfold test. destruct (exec RPC_WITH_BODY t) as [m|] eqn:E; [|discriminate].
  intros _. apply exec_anchored_sound in E. destruct E as (s1 & s2 & -> & M).
  destruct m as [mi me cf]. cbn [m_caps] in M.
  unfold Plus, ws, chr, dot, kw, seqs in M.
  cbn [fold_right map list_ascii_of_string] in M. split_match.
  match goal with H : [] ++ s2 = [] |- _ => simpl in H; subst s2 end.
  match goal with
  | P : (N_of_ascii "{" =? ?x)%N = true |- _ => apply N.eqb_eq in P; subst x
  end.
  rewrite !app_nil_r. unfold endsWith. rewrite !rev_app_distr. reflexivity.
Qed.

(** A line is pushed at the depth of the loop, or, a closing brace, one
    level below it; the depth of the loop then follows it. *)
Lemma push_depth_inv (st : State) (t : str) (d cur' : Z) (ty : LineType)
    (b : bool) :
  depth_inv st ->
  d = cur_depth st
  \/ (d = Z.max 0 (cur_depth st - 1) /\ (t = lit "}" \/ t = lit "};")) ->
  follows cur' (mkLine t d ty) ->
  depth_inv (mkState (formatted st ++ [mkLine t d ty]) cur' b).
Proof.
  intros (H0 & Hd & Hl) Hp Hf.
  assert (D0 : (0 <= d)%Z) by lia.
  split; [destruct Hf as [->|[-> _]]; simpl; lia|].
  split; [apply Forall_app; split; [exact Hd | repeat constructor; exact D0]|].
  cbn [formatted]. destruct (formatted st) as [|hd tl] eqn:E.
  - cbn [app last]. split; [simpl; lia|]. split; [exact I | exact Hf].
  - destruct Hl as (Hh & Hs & Hc). cbn [app]. split; [exact Hh|].
    rewrite last_snoc. split; [|exact Hf].
    apply steps_from_snoc; [exact Hs|].
    assert (Dp : (0 <= depth (last tl hd))%Z).
    { rewrite Forall_forall in Hd. apply Hd, in_last. }
    unfold step_ok. cbn [depth text].
    destruct Hc as [Hc|[Hc Ho]], Hp as [Hp|[Hp Ht]];
      (split; [lia|]); (split; [intros; try lia; assumption|]);
      intros; try lia; assumption.
Qed.

Lemma str_eqb_eq (a b : str) : str_eqb a b = true -> a = b.
Proof.
  unfold str_eqb. destruct (list_eq_dec N.eq_dec a b); [auto | discriminate].
Qed.

Lemma first_pass_line_depth_inv (line : str) (rest : list str) (st : State) :
  depth_inv st -> depth_inv (fst (first_pass_line line rest st)).
Proof.
  intros H. unfold first_pass_line.
  destruct (inBlockComment st).
  { cbn [fst]. apply push_depth_inv; [exact H | left; reflexivity
                                     | left; reflexivity]. }
  destruct (startsWith (lit "/*") (trim (trimEnd line))).
  { cbn [fst]. apply push_depth_inv; [exact H | left; reflexivity
                                     | left; reflexivity]. }
  destruct (is_empty (trim (trimEnd line))); [exact H|].
  destruct (str_eqb _ (lit "}") || str_eqb _ (lit "};")) eqn:C.
  { cbn [fst]. apply push_depth_inv; [exact H | | left; reflexivity].
    right. split; [reflexivity|]. apply orb_prop in C.
    destruct C as [C|C]; apply str_eqb_eq in C; auto. }
  destruct (classify (trim (trimEnd line))) as [text0 ty].
  match goal with
  | |- context [let '(_, _) := ?p in _] => destruct p as [text' skip]
  end.
  cbn [fst]. apply push_depth_inv; [exact H | left; reflexivity|].
  unfold follows. cbn [depth text].
  match goal with |- context [if ?b then _ else _] => destruct b eqn:O end;
    [right; split; [reflexivity|] | left; reflexivity].
  apply orb_prop in O. destruct O as [O|O].
  - apply orb_prop in O. destruct O as [O|O].
    + apply andb_prop in O. apply O.
    + apply rpc_with_body_ends, O.
  - apply andb_prop in O. apply O.
Qed.

Lemma first_pass_depth_inv (lines : list str) :
  forall (skip : nat) (st : State),
    depth_inv st -> depth_inv (first_pass lines skip st).
Proof.
  induction lines as [|line rest IH]; intros skip st H; simpl; [assumption|].
  destruct skip as [|skip']; [|apply IH; assumption].
  pose proof (first_pass_line_depth_inv line rest H) as H'.
  destruct (first_pass_line line rest st) as [st' skip']. apply IH. exact H'.
Qed.

Lemma init_depth_inv : depth_inv init.
Proof. split; [simpl; lia|]. split; [constructor | reflexivity]. Qed.

Lemma lines_of_steps (content : str) :
  exists ls,
    lines_of content = Ok ls
    /\ Forall (fun l => 0 <= depth l)%Z ls /\ steps_ok ls.
Proof.
  unfold lines_of. destruct (presplit_ok (split_lf content)) as [lines H].
  rewrite H. cbn [bind]. eexists. split; [reflexivity|].
  destruct (first_pass_depth_inv lines 0 init_depth_inv) as (_ & Hd & Hs).
  split; [exact Hd|]. unfold steps_ok.
  destruct (formatted (first_pass lines 0 init)); [exact I|].
  split; apply Hs.
Qed.

End DepthFacts.

(* ================================================================== *)
(** ** The first version of the formatter *)
(* ================================================================== *)

Module FormatterV1Facts.
Import FormatterSpec FormatterFacts WhitespaceFacts.
Import FormatterV1.

(** *** It raises no exception *)

Lemma indent_v1_ok (d : Z) : (0 <= d)%Z -> exists s, indent d = Ok s.
Proof.
  intros H. unfold indent, js_repeat.
  destruct (Z.ltb_spec d 0); [lia | eexists; reflexivity].
Qed.

Lemma format_line_ok (line : str) (rest : list str) (st : State) :
  (0 <= depth st)%Z ->
  exists step, format_line line rest st = Ok step /\ (0 <= depth (fst step))%Z.
Proof.
  intros H. unfold format_line.
  destruct (indent_v1_ok H) as [ind Hi].
  destruct (inBlockComment st).
  { rewrite Hi. cbn [bind]. eexists. split; [reflexivity | exact H]. }
  destruct (startsWith (lit "/*") _).
  { rewrite Hi. cbn [bind]. eexists. split; [reflexivity | exact H]. }
  destruct (is_empty _).
  { eexists. split; [reflexivity | exact H]. }
  destruct (_ || _).
  { destruct (@indent_v1_ok (Z.max 0 (depth st - 1))) as [ind' Hi']; [lia|].
    rewrite Hi'. cbn [bind]. eexists. split; [reflexivity | simpl; lia]. }
  match goal with
  | |- context [match ?o with Some _ => _ | None => _ end] => destruct o
  end; rewrite Hi; cbn [bind]; eexists; (split; [reflexivity|]); simpl;
    [lia|].
  match goal with |- context [if ?b then _ else _] => destruct b end; lia.
Qed.

Lemma format_lines_ok (lines : list str) :
  forall (skip : nat) (st : State),
    (0 <= depth st)%Z -> exists st', format_lines lines skip st = Ok st'.
Proof.
  induction lines as [|line rest IH]; intros skip st H; simpl.
  - eexists; reflexivity.
  - destruct skip as [|skip]; [|apply IH, H].
    destruct (@format_line_ok line rest st H) as (step & E & Hd).
    rewrite E. cbn [bind]. apply IH, Hd.
Qed.

Lemma format_v1_ok (content : str) : exists out, format content = Ok out.
Proof.
  unfold format.
  destruct (@format_lines_ok (split_lf content) 0 init) as [st H];
    [simpl; lia|].
  rewrite H. cbn [bind]. eexists; reflexivity.
Qed.

(** *** It changes white space only *)

Lemma normalize_squeeze (trimmed : str) :
  squeeze (normalize trimmed) = squeeze trimmed.
Proof.
  unfold normalize.
  repeat match goal with
         | |- context [if ?b then _ else _] => destruct b
         end;
    rewrite ?spaces_brace_squeeze, ?block_openers_squeeze;
    try (change (fun _ : Match => lit " ") with Formatter.sp);
    rewrite ?spaces_squeeze, ?spaces_semi_squeeze, ?returns_squeeze,
      ?spaces_paren_squeeze, ?paren_spaces_squeeze, ?spaces_semi_squeeze,
      ?equals_squeeze; reflexivity.
Qed.


Lemma indent_v1_squeeze (d : Z) (ind : str) :
  indent d = Ok ind -> squeeze ind = [].
Proof. apply indent_squeeze. Qed.




(** *** The end of what it returns *)







End FormatterV1Facts.

(* ================================================================== *)
(** ** The white space around the lines plays no part in the formatter *)
(* ================================================================== *)

Module TrimFacts.
Import Formatter FormatterSpec FormatterFacts.

Lemma dropWhile_idem (p : N -> bool) (s : str) :
  dropWhile p (dropWhile p s) = dropWhile p s.
Proof.
  induction s as [|x s IH]; [reflexivity|]. simpl.
  destruct (p x) eqn:E; [exact IH | simpl; rewrite E; reflexivity].
Qed.

Lemma trimEnd_idem (s : str) : trimEnd (trimEnd s) = trimEnd s.
Proof. unfold trimEnd. rewrite rev_involutive, dropWhile_idem. reflexivity. Qed.

Lemma trim_trimEnd (s : str) : trim (trimEnd s) = trim s.
Proof. unfold trim. rewrite trimEnd_idem. reflexivity. Qed.

Lemma same_trimmed_cons (a b : str) (l l' : list str) :
  same_trimmed (a :: l) (b :: l') -> trim a = trim b /\ same_trimmed l l'.
Proof. unfold same_trimmed. simpl. intros H. injection H as H1 H2. auto. Qed.

Lemma same_trimmed_length (l l' : list str) :
  same_trimmed l l' -> length l = length l'.
Proof.
  unfold same_trimmed. intros H. apply (f_equal (@length str)) in H.
  rewrite !length_map in H. exact H.
Qed.

Lemma brace_ahead_same (rest : list str) :
  forall rest', same_trimmed rest rest' -> brace_ahead rest = brace_ahead rest'.
Proof.
  induction rest as [|l rest IH]; intros [|l' rest'] H;
    try (apply same_trimmed_length in H; discriminate); [reflexivity|].
  apply same_trimmed_cons in H. destruct H as [E H]. simpl.
  rewrite E, (IH _ H). reflexivity.
Qed.

Lemma first_pass_line_same (line line' : str) (rest rest' : list str)
    (st : State) :
  trim line = trim line' -> same_trimmed rest rest' ->
  first_pass_line line rest st = first_pass_line line' rest' st.
Proof.
  intros E H. unfold first_pass_line.
  rewrite !trim_trimEnd, E, (brace_ahead_same H). reflexivity.
Qed.

Lemma first_pass_same (lines : list str) :
  forall (lines' : list str) (skip : nat) (st : State),
    same_trimmed lines lines' ->
    first_pass lines skip st = first_pass lines' skip st.
Proof.
  induction lines as [|line rest IH]; intros [|line' rest'] skip st H;
    try (apply same_trimmed_length in H; discriminate); [reflexivity|].
  apply same_trimmed_cons in H. destruct H as [E H]. cbn [first_pass].
  destruct skip as [|skip]; [|apply IH, H].
  rewrite (@first_pass_line_same line line' rest rest' st E H).
  destruct (first_pass_line line' rest' st) as [st' skip']. apply IH, H.
Qed.

Lemma same_trimmed_app (a a' b b' : list str) :
  same_trimmed a a' -> same_trimmed b b' -> same_trimmed (a ++ b) (a' ++ b').
Proof. unfold same_trimmed. intros Ha Hb. rewrite !map_app, Ha, Hb. reflexivity. Qed.

Lemma presplit_line_same (raw raw' : str) (ls : list str) :
  trim raw = trim raw' -> presplit_line raw = Ok ls ->
  exists ls', presplit_line raw' = Ok ls' /\ same_trimmed ls ls'.
Proof.
  intros E. unfold presplit_line. rewrite <- E.
  assert (Hraw : same_trimmed [raw] [raw'])
    by (unfold same_trimmed; simpl; rewrite E; reflexivity).
  destruct (exec SPLIT_RE (trim raw)) as [m|];
    [|intros H; injection H as <-; eexists; split; [reflexivity | exact Hraw]].
  destruct (negb _);
    [|intros H; injection H as <-; eexists; split; [reflexivity | exact Hraw]].
  intros H. exists ls. split; [exact H | reflexivity].
Qed.

Lemma presplit_same (raws : list str) :
  forall raws' ls,
    same_trimmed raws raws' -> presplit raws = Ok ls ->
    exists ls', presplit raws' = Ok ls' /\ same_trimmed ls ls'.
Proof.
  induction raws as [|raw rest IH]; intros [|raw' rest'] ls H Hp;
    try (apply same_trimmed_length in H; discriminate).
  - simpl in Hp. injection Hp as <-. exists []. split; reflexivity.
  - apply same_trimmed_cons in H. destruct H as [E H]. simpl in Hp.
    destruct (presplit_line raw) as [here|] eqn:Eh; cbn [bind] in Hp;
      [|discriminate].
    destruct (presplit rest) as [more|] eqn:Em; cbn [bind] in Hp;
      [|discriminate].
    injection Hp as <-.
    destruct (@presplit_line_same raw raw' here E Eh) as (here' & Eh' & Hh).
    destruct (IH rest' more H eq_refl) as (more' & Em' & Hm).
    exists (here' ++ more'). simpl. rewrite Eh', Em'. cbn [bind].
    split; [reflexivity | apply same_trimmed_app; assumption].
Qed.

Lemma format_same (c1 c2 : str) :
  same_trimmed (split_lf c1) (split_lf c2) -> format c1 = format c2.
Proof.
  intros H. unfold format, lines_of.
  destruct (presplit_ok (split_lf c1)) as [ls Hp].
  destruct (@presplit_same _ _ _ H Hp) as (ls' & Hp' & Hs).
  rewrite Hp, Hp'. cbn [bind]. rewrite (@first_pass_same ls ls' 0 init Hs).
  reflexivity.
Qed.

End TrimFacts.

(* ================================================================== *)
(** ** The comment of a service *)
(* ================================================================== *)

Module CommentFacts.
Import Validator ValidatorSpec ValidatorFacts ReportFacts ValidatorShape
       ShapeFacts PositionFacts StructureSpec StructureFacts.

Lemma shaped_only (n c : Z) (r : string) (s : Severity) (l : list Issue) :
  Forall (shaped n c r s) l -> only [r] l.
Proof.
  intros H. eapply Forall_impl; [|exact H].
  intros i (_ & _ & -> & _). left. reflexivity.
Qed.

Lemma shaped_filter_nil (n c : Z) (r r' : string) (s : Severity)
    (l : list Issue) :
  Forall (shaped n c r s) l -> r <> r' -> filter (rule_is r') l = [].
Proof.
  intros H Hr. eapply only_filter_nil; [eapply shaped_only, H|].
  simpl. intuition congruence.
Qed.

Lemma check_line_prev (n : Z) (raw : str) (st st' : State) :
  check_line n raw st = Ok st' -> prevLineIsComment st' = is_comment_line raw.
Proof.
  unfold check_line. intros H.
  destruct (captured MESSAGE_RE (trim raw)) as [msgMatch|]; cbn [bind] in H;
    [|discriminate].
  destruct (captured ENUM_RE (trim raw)) as [enumMatch|]; cbn [bind] in H;
    [|discriminate].
  destruct (enum_part n (trim raw) _ _ _) as [[[[ei bs] ce] b]|] eqn:Hp;
    cbn [bind] in H; [|discriminate].
  destruct (captured FIELD_RE (trim raw)) as [fieldMatch|]; cbn [bind] in H;
    [|discriminate].
  destruct (track_braces _ _) as [d2 s2]. injection H as <-. reflexivity.
Qed.

Lemma check_line_services (n : Z) (raw : str) (st st' : State) :
  check_line n raw st = Ok st' ->
  filter (rule_is "service-comment") (issues st')
  = filter (rule_is "service-comment") (issues st)
    ++ service_issues n (trim raw) (prevLineIsComment st).
Proof.
  intros H. destruct (check_line_explicit _ _ _ H)
    as (mm & em & fm & ei & bs & ce & b & Hp & Hi & _).
  destruct (enum_part_ok n (trim raw) (fst (enum_entry n em st))
              (snd (enum_entry n em st)) (enumBlocks st))
    as (ei' & bs' & ce' & b' & Hp' & Ho).
  rewrite Hp in Hp'. injection Hp' as <- _ _ _.
  rewrite Hi, !filter_app.
  rewrite (shaped_filter_nil (max_length_shape n raw)) by discriminate.
  rewrite (shaped_filter_nil (message_name_shape n mm)) by discriminate.
  rewrite (shaped_filter_nil (enum_name_shape n em)) by discriminate.
  rewrite (@only_filter_nil enum_rules "service-comment" ei Ho)
    by (simpl; intuition discriminate).
  rewrite (shaped_filter_nil (field_name_shape n fm b)) by discriminate.
  rewrite (shaped_filter_nil (rpc_shape n (trim raw) _ _)) by discriminate.
  cbn [app]. rewrite app_nil_r. f_equal.
  apply filter_all. eapply Forall_impl; [|apply service_shape].
  intros i (_ & _ & Hr & _). unfold rule_is. rewrite Hr. reflexivity.
Qed.

Lemma check_lines_services (lines : list str) :
  forall (n : Z) (st st' : State),
    check_lines n lines st = Ok st' ->
    filter (rule_is "service-comment") (issues st')
    = filter (rule_is "service-comment") (issues st)
      ++ map service_comment_issue
           (bare_services (prevLineIsComment st) n lines).
Proof.
  induction lines as [|raw rest IH]; intros n st st' H.
  - simpl in H. injection H as <-. simpl. rewrite app_nil_r. reflexivity.
  - cbn [check_lines] in H. destruct (check_line n raw st) as [st1|] eqn:E;
      cbn [bind] in H; [|discriminate].
    rewrite (IH _ _ _ H), (@check_line_services n raw st st1 E),
      (@check_line_prev n raw st st1 E).
    rewrite <- app_assoc. f_equal. cbn [bare_services]. rewrite map_app.
    f_equal. unfold service_issues, declares.
    destruct (startsWith (lit "service ") (trim raw)),
      (prevLineIsComment st); reflexivity.
Qed.

Lemma bare_services_from (lines : list str) :
  forall (prev : bool) (n : Z),
    Forall (fun l => n <= l)%Z (bare_services prev n lines).
Proof.
  induction lines as [|raw rest IH]; intros prev n; [constructor|].
  cbn [bare_services]. apply Forall_app. split.
  - destruct (_ && _); repeat constructor. lia.
  - eapply Forall_impl; [|apply IH]. simpl. intros; lia.
Qed.

Lemma bare_services_sorted (lines : list str) :
  forall (prev : bool) (n : Z),
    StronglySorted key_le
      (map service_comment_issue (bare_services prev n lines)).
Proof.
  induction lines as [|raw rest IH]; intros prev n; [constructor|].
  cbn [bare_services]. destruct (_ && _); cbn [app map]; [|apply IH].
  constructor; [apply IH|]. apply Forall_forall. intros i Hi.
  apply in_map_iff in Hi. destruct Hi as (l & <- & Hl).
  pose proof (bare_services_from rest (is_comment_line raw) (n + 1)) as F.
  rewrite Forall_forall in F. specialize (F l Hl). left. simpl. lia.
Qed.

Lemma emitted_services (content : str) :
  exists all,
    emitted content = Ok all
    /\ filter (rule_is "service-comment") all
       = map service_comment_issue
           (bare_services false 1 (split_lf content)).
Proof.
  unfold emitted. set (lines := split_lf content).
  destruct (check_lines_ok lines 1
              (init (trailing_newline_issues content lines)))
    as (st & new & H & _).
  rewrite H. cbn [bind].
  destruct (validateSyntax_ok lines) as (syn & Hs & Os). rewrite Hs.
  cbn [bind]. eexists. split; [reflexivity|].
  rewrite !filter_app, (@check_lines_services lines 1 _ st H).
  cbn [issues init].
  rewrite (shaped_filter_nil (trailing_newline_shape content lines))
    by discriminate.
  rewrite (only_filter_nil "service-comment" (structure_issues_only st))
    by (simpl; intuition discriminate).
  rewrite (only_filter_nil "service-comment"
             (import_issues_only (importLines st) false))
    by (simpl; intuition discriminate).
  rewrite (only_filter_nil "service-comment" Os)
    by (simpl; intuition discriminate).
  cbn [app prevLineIsComment]. rewrite !app_nil_r. reflexivity.
Qed.

End CommentFacts.

(* ================================================================== *)
(** ** The matcher finds a match when there is one *)
(* ================================================================== *)

Section MatcherComplete.

Lemma mt_star (R : Type) (a : re) (s : str) (c : caps)
    (k : str -> caps -> option R) :
  mt (Star a) s c k = star_loop (mt a) k (length s) s c.
Proof. reflexivity. Qed.

Lemma star_loop_S (R : Type)
    (step : str -> caps -> (str -> caps -> option R) -> option R)
    (k : str -> caps -> option R) (n : nat) (s : str) (c : caps) :
  star_loop step k (S n) s c
  = match step s c (fun s' c' =>
            if (length s' <? length s)%nat then star_loop step k n s' c'
            else None) with
    | Some x => Some x
    | None => k s c
    end.
Proof. reflexivity. Qed.

Lemma star_loop_mono (R : Type)
    (step : str -> caps -> (str -> caps -> option R) -> option R)
    (k1 k2 : str -> caps -> option R) :
  (forall s c j1 j2, above j1 j2 -> step s c j1 <> None -> step s c j2 <> None) ->
  above k1 k2 ->
  forall n, above (star_loop step k1 n) (star_loop step k2 n).
Proof.
  intros Hstep Hk n. induction n as [|n IH]; intros s c H; [apply Hk, H|].
  rewrite star_loop_S in *.
  match type of H with
  | match ?m with _ => _ end <> None => destruct m eqn:E
  end.
  - match goal with
    | |- match ?m with _ => _ end <> None =>
        assert (Hm : m <> None); [|destruct m; [discriminate | contradiction]]
    end.
    eapply Hstep; [|rewrite E; discriminate].
    intros s' c'. destruct (length s' <? length s)%nat; [apply IH | auto].
  - match goal with
    | |- match ?m with _ => _ end <> None => destruct m; [discriminate|]
    end.
    apply Hk, H.
Qed.

Lemma mt_mono (R : Type) (r : re) :
  forall (s : str) (c : caps) (k1 k2 : str -> caps -> option R),
    above k1 k2 -> mt r s c k1 <> None -> mt r s c k2 <> None.
Proof.
  induction r as [ | p | a IHa b IHb | a IHa b IHb | a IHa | j a IHa | ];
    intros s c k1 k2 Hk H.
  - apply Hk, H.
  - simpl in *. destruct s as [|x s]; [exact H|].
    destruct (p x); [apply Hk, H | exact H].
  - simpl in *. eapply IHa; [|exact H]. intros s' c'. apply IHb, Hk.
  - simpl in *. destruct (mt a s c k1) eqn:E.
    + assert (Hm : mt a s c k2 <> None)
        by (eapply IHa; [exact Hk | rewrite E; discriminate]).
      destruct (mt a s c k2); [discriminate | contradiction].
    + destruct (mt a s c k2); [discriminate|]. eapply IHb; eassumption.
  - rewrite mt_star in *. eapply star_loop_mono; [|exact Hk|exact H].
    intros s0 c0 j1 j2. apply IHa.
  - simpl in *. eapply IHa; [|exact H]. intros s' c'. apply Hk.
  - simpl in *. destruct s; [apply Hk, H | exact H].
Qed.

(** More rounds of the loop of a star find no less. *)
Lemma star_loop_fuel (R : Type) (a : re) (k : str -> caps -> option R) :
  forall n m, (n <= m)%nat ->
              above (star_loop (mt a) k n) (star_loop (mt a) k m).
Proof.
  assert (Hs : forall n, above (star_loop (mt a) k n)
                           (star_loop (mt a) k (S n))).
  { induction n as [|n IH]; intros s c H.
    - rewrite star_loop_S. simpl in H.
      destruct (mt a s c _); [discriminate | exact H].
    - rewrite star_loop_S in *.
      match type of H with
      | match ?m with _ => _ end <> None => destruct m eqn:E
      end.
      + match goal with
        | |- match ?m with _ => _ end <> None =>
            assert (Hm : m <> None);
            [|destruct m; [discriminate | contradiction]]
        end.
        eapply mt_mono; [|rewrite E; discriminate].
        intros s' c'. destruct (length s' <? length s)%nat; [apply IH | auto].
      + match goal with
        | |- match ?m with _ => _ end <> None => destruct m; [discriminate|]
        end.
        exact H. }
  intros n m Hle. induction Hle as [|m Hle IH]; [intros s c H; exact H|].
  intros s c H. apply Hs, IH, H.
Qed.

Lemma mt_complete (r : re) (s1 s2 : str) (c c' : caps) :
  matches r s1 s2 c c' ->
  forall (R : Type) (k : str -> caps -> option R),
    k s2 c' <> None -> mt r (s1 ++ s2) c k <> None.
Proof.
  induction 1 as [rest c | p x rest c Px
                 | a b s1 s2 rest c c1 c2 _ IHa _ IHb
                 | a b s rest c c' _ IH | a b s rest c c' _ IH
                 | a rest c
                 | a s1 s2 rest c c1 c2 Hne _ IHa _ IHs
                 | i a s rest c c' _ IH | c];
    intros R k Hk.
  - exact Hk.
  - simpl. rewrite Px. exact Hk.
  - simpl. rewrite <- app_assoc. apply IHa. apply IHb, Hk.
  - simpl. specialize (IH R k Hk).
    destruct (mt a (s ++ rest) c k); [discriminate | contradiction].
  - simpl. destruct (mt a (s ++ rest) c k); [discriminate | apply IH, Hk].
  - rewrite mt_star. simpl. destruct (length rest); [exact Hk|].
    rewrite star_loop_S. destruct (mt a rest c _); [discriminate | exact Hk].
  - rewrite mt_star. rewrite <- app_assoc.
    destruct (length (s1 ++ s2 ++ rest)) as [|n] eqn:En.
    { destruct s1; [contradiction | discriminate]. }
    rewrite star_loop_S.
    match goal with
    | |- match ?m with _ => _ end <> None =>
        assert (Hm : m <> None); [|destruct m; [discriminate | contradiction]]
    end.
    apply IHa.
    assert (L : (length (s2 ++ rest) <? length (s1 ++ s2 ++ rest))%nat = true).
    { apply Nat.ltb_lt. rewrite (length_app s1).
      destruct s1; [contradiction | simpl; lia]. }
    rewrite L. eapply star_loop_fuel; [|rewrite <- mt_star; apply IHs, Hk].
    apply Nat.ltb_lt in L. lia.
  - simpl. apply IH. rewrite firstn_app_length. exact Hk.
  - exact Hk.
Qed.

(** An anchored pattern accepts a text exactly when it matches a prefix. *)
Lemma test_anchored (r : re) (s : str) :
  test (at_start r) s = true
  <-> exists s1 s2 c', s = s1 ++ s2 /\ matches r s1 s2 no_caps c'.
Proof.
  split.
  - unfold test. destruct (exec (at_start r) s) as [m|] eqn:E; [|discriminate].
    intros _. apply exec_anchored_sound in E.
    destruct E as (s1 & s2 & -> & M). eauto.
  - intros (s1 & s2 & c' & -> & M). unfold test, exec. cbn [anchored body at_start].
    unfold match_here.
    pose proof (@mt_complete r s1 s2 no_caps c' M _
                  (fun s' c0 => Some ((length (s1 ++ s2) - length s')%nat, c0)))
      as H.
    destruct (mt r (s1 ++ s2) no_caps _) as [[n c0]|]; [reflexivity|].
    exfalso. apply H; [discriminate | reflexivity].
Qed.

End MatcherComplete.

(* ================================================================== *)
(** ** The names the patterns accept *)
(* ================================================================== *)

Module NameFacts.
Import Validator NameSpec.

Lemma matches_star_cls_intro (p : N -> bool) (s rest : str) (c : caps) :
  forallb p s = true -> matches (Star (Cls p)) s rest c c.
Proof.
  induction s as [|x s IH]; intros H; [constructor|].
  simpl in H. apply andb_prop in H. destruct H as [Px Ps].
  change (x :: s) with ([x] ++ s).
  eapply m_star_more; [discriminate | constructor; exact Px | apply IH, Ps].
Qed.

Lemma bool_eq_iff (a b : bool) : (a = true <-> b = true) -> a = b.
Proof.
  destruct a, b; intros [H1 H2]; try reflexivity;
    [symmetry; apply H1; reflexivity | apply H2; reflexivity].
Qed.

Lemma test_pascal (s : str) : test PASCAL_RE s = is_pascal s.
Proof.
  apply bool_eq_iff. unfold PASCAL_RE. rewrite test_anchored. split.
  - intros (s1 & s2 & c' & -> & M). unfold seqs in M. cbn [fold_right] in M.
    split_match.
    match goal with H : [] ++ s2 = [] |- _ => simpl in H; subst s2 end.
    rewrite !app_nil_r. simpl. apply andb_true_intro. split; assumption.
  - destruct s as [|x r]; [discriminate|]. simpl. intros H.
    apply andb_prop in H. destruct H as [Hx Hr].
    exists (x :: r), [], no_caps. split; [symmetry; apply app_nil_r|].
    unfold seqs. cbn [fold_right].
    change (x :: r) with ([x] ++ r).
    apply m_seq with (c1 := no_caps); [constructor; exact Hx|].
    rewrite <- (app_nil_r r).
    apply m_seq with (c1 := no_caps);
      [apply matches_star_cls_intro, Hr|].
    change (@nil N) with (@nil N ++ []).
    apply m_seq with (c1 := no_caps); constructor.
Qed.

Section Snake.

Variable f p : N -> bool.
Hypothesis p_underscore : p underscore = false.

Local Abbreviation segment :=
  (Grp 1 (seqs [chr "_"; Plus (Cls p)])).
Local Abbreviation snake :=
  (seqs [Cls f; Star (Cls p); Star segment; Eoi]).

Lemma segments_run (run t : str) :
  forallb p run = true -> segments p t = true -> segments p (run ++ t) = true.
Proof.
  induction run as [|x run IH]; intros Hr Ht; [exact Ht|].
  simpl in Hr. apply andb_prop in Hr. destruct Hr as [Px Hr].
  cbn [app segments].
  destruct (N.eqb_spec x underscore) as [->|_]; [congruence|].
  rewrite Px. apply IH; assumption.
Qed.

Lemma segments_underscore (y : N) (t : str) :
  p y = true -> segments p (y :: t) = true ->
  segments p (underscore :: y :: t) = true.
Proof.
  intros Py H. change (segments p (underscore :: y :: t))
    with (if (underscore =? underscore)%N
          then p y && segments p (y :: t)
          else p underscore && segments p (y :: t)).
  rewrite N.eqb_refl, Py, H. reflexivity.
Qed.

Lemma segments_star (t rest : str) (c c' : caps) :
  matches (Star segment) t rest c c' -> segments p t = true.
Proof.
  intros H. remember (Star segment) as r eqn:Hr. revert Hr.
  induction H; intros Hr; try discriminate; [reflexivity|].
  injection Hr as ->. specialize (IHmatches2 eq_refl).
  unfold Plus, chr in H0. split_match.
  match goal with
  | P : (N_of_ascii "_" =? ?x)%N = true |- _ => apply N.eqb_eq in P; subst x
  end.
  change (N_of_ascii "_") with underscore.
  rewrite !app_nil_r. cbn [app].
  match goal with
  | |- segments p (underscore :: ?y :: ?run ++ ?s2) = true =>
      apply segments_underscore; [assumption|];
      apply (@segments_run (y :: run) s2); [|assumption]
  end.
  simpl. apply andb_true_intro. split; assumption.
Qed.

Lemma segments_split (r : str) :
  segments p r = true ->
  forall c, exists run t c',
    r = run ++ t /\ forallb p run = true
    /\ matches (Star segment) t [] c c'
    /\ (t = [] \/ exists t', t = underscore :: t').
Proof.
  induction r as [|x r IH]; intros H c.
  - exists [], [], c. repeat split; [constructor | left; reflexivity].
  - cbn [segments] in H. destruct (N.eqb_spec x underscore) as [->|Hx].
    + destruct r as [|y r']; [discriminate|].
      apply andb_prop in H. destruct H as [Py Hs].
      destruct (IH Hs (set_cap 1 [] c)) as (run & t & c' & E & Hr & _ & Ht).
      destruct run as [|y0 run].
      { exfalso. simpl in E. subst t.
        destruct Ht as [Ht|(t' & Ht)]; [discriminate|].
        injection Ht as -> _. congruence. }
      simpl in E. injection E as <- ->. simpl in Hr.
      apply andb_prop in Hr. destruct Hr as [_ Hr].
      destruct (IH Hs (set_cap 1 (underscore :: y :: run) c))
        as (run2 & t2 & c2 & E2 & Hr2 & M2 & Ht2).
      assert (Erun : run2 = y :: run /\ t2 = t).
      { clear -E2 Hr Hr2 Ht Ht2 Py p_underscore.
        revert run2 E2 Hr2.
        assert (G : forall a b a' b' : str,
                   a ++ b = a' ++ b' -> forallb p a = true ->
                   forallb p a' = true ->
                   (b = [] \/ exists t', b = underscore :: t') ->
                   (b' = [] \/ exists t', b' = underscore :: t') ->
                   a' = a /\ b' = b).
        { induction a as [|u a IHa]; intros b [|u' a'] b' E Fa Fa' Hb Hb'.
          - simpl in E. auto.
          - simpl in E. subst b. simpl in Fa'. apply andb_prop in Fa'.
            destruct Hb as [Hb|(t' & Hb)]; [discriminate|].
            injection Hb as -> _. destruct Fa' as [Fa' _]. congruence.
          - simpl in E. subst b'. simpl in Fa. apply andb_prop in Fa.
            destruct Hb' as [Hb'|(t' & Hb')]; [discriminate|].
            injection Hb' as -> _. destruct Fa as [Fa _]. congruence.
          - simpl in E. injection E as <- E. simpl in Fa, Fa'.
            apply andb_prop in Fa, Fa'.
            destruct (IHa _ _ _ E (proj2 Fa) (proj2 Fa') Hb Hb') as [-> ->].
            auto. }
        intros run2 E2 Hr2.
        apply (G (y :: run) t run2 t2); auto.
        simpl. rewrite Py, Hr. reflexivity. }
      destruct Erun as [-> ->].
      exists [], (underscore :: y :: run ++ t), c2.
      split; [reflexivity|]. split; [reflexivity|].
      split; [|right; eexists; reflexivity].
      change (underscore :: y :: run ++ t)
        with ((underscore :: y :: run) ++ t).
      rewrite <- (app_nil_r t) at 1.
      eapply m_star_more; [discriminate| |rewrite app_nil_r; exact M2].
      rewrite app_nil_r.
      apply m_grp. unfold seqs, Plus, chr. cbn [fold_right].
      change (underscore :: y :: run) with ([underscore] ++ (y :: run)).
      apply m_seq with (c1 := c); [constructor; reflexivity|].
      rewrite <- (app_nil_r (y :: run)).
      apply m_seq with (c1 := c); [|constructor].
      change (y :: run) with ([y] ++ run).
      apply m_seq with (c1 := c); [constructor; exact Py|].
      apply matches_star_cls_intro, Hr.
    + apply andb_prop in H. destruct H as [Px Hs].
      destruct (IH Hs c) as (run & t & c' & -> & Hr & M & Ht).
      exists (x :: run), t, c'. split; [reflexivity|].
      split; [simpl; rewrite Px; exact Hr|]. split; assumption.
Qed.

Lemma test_snake (s : str) :
  test (at_start snake) s
  = match s with
    | c :: r => f c && segments p r
    | [] => false
    end.
Proof.
  apply bool_eq_iff. rewrite test_anchored. split.
  - intros (s1 & s2 & c' & -> & M). unfold seqs at 1 in M.
    cbn [fold_right] in M.
    apply matches_seq in M. destruct M as (a1 & a2 & c1 & -> & M1 & M).
    apply matches_cls in M1. destruct M1 as (x & -> & Fx & ->).
    apply matches_seq in M. destruct M as (b1 & b2 & c2 & -> & M1 & M).
    apply matches_star_cls in M1. destruct M1 as [Fr ->].
    apply matches_seq in M. destruct M as (d1 & d2 & c3 & -> & M1 & M).
    apply matches_seq in M. destruct M as (e1 & e2 & c4 & -> & M2 & M).
    apply matches_eoi in M2. destruct M2 as (-> & E & ->).
    apply matches_eps in M. destruct M as [-> ->].
    simpl in E. subst s2. rewrite !app_nil_r. cbn [app].
    rewrite Fx. cbn [andb]. apply segments_run; [exact Fr|].
    eapply segments_star, M1.
  - destruct s as [|x r]; [discriminate|]. intros H.
    apply andb_prop in H. destruct H as [Fx Hs].
    destruct (segments_split r Hs no_caps) as (run & t & c' & -> & Hr & M & _).
    exists (x :: run ++ t), [], c'. split; [symmetry; apply app_nil_r|].
    unfold seqs at 1. cbn [fold_right].
    change (x :: run ++ t) with ([x] ++ (run ++ t)).
    apply m_seq with (c1 := no_caps); [constructor; exact Fx|].
    apply m_seq with (c1 := no_caps);
      [apply matches_star_cls_intro, Hr|].
    rewrite <- (app_nil_r t).
    apply m_seq with (c1 := c'); [rewrite app_nil_r; exact M|].
    change (@nil N) with (@nil N ++ []).
    apply m_seq with (c1 := c'); constructor.
Qed.

End Snake.

Lemma test_snake_re (s : str) : test SNAKE_RE s = is_snake s.
Proof. apply test_snake. reflexivity. Qed.

Lemma test_upper_snake_re (s : str) : test UPPER_SNAKE_RE s = is_upper_snake s.
Proof. apply test_snake. reflexivity. Qed.

(** *** The name a pattern captures *)

Lemma star_loop_cls (R : Type) (p : N -> bool) (k : str -> caps -> option R) :
  forall (n : nat) (s : str) (c : caps),
    (length s <= n)%nat -> star_loop (mt (Cls p)) k n s c = greedy p k s c.
Proof.
  induction n as [|n IH]; intros s c Hn.
  - destruct s; [reflexivity | simpl in Hn; lia].
  - rewrite star_loop_S. destruct s as [|x s]; [reflexivity|].
    cbn [mt greedy]. destruct (p x); [|reflexivity].
    assert (L : (length s <? length (x :: s))%nat = true)
      by (apply Nat.ltb_lt; simpl; lia).
    rewrite L, IH by (simpl in Hn; lia). reflexivity.
Qed.

Lemma mt_star_cls (R : Type) (p : N -> bool) (s : str) (c : caps)
    (k : str -> caps -> option R) :
  mt (Star (Cls p)) s c k = greedy p k s c.
Proof. rewrite mt_star. apply star_loop_cls. lia. Qed.

(** The continuation succeeds after the longest run. *)
Lemma greedy_longest (R : Type) (p : N -> bool) (k : str -> caps -> option R)
    (s : str) (c : caps) (v : R) :
  k (dropWhile p s) c = Some v -> greedy p k s c = Some v.
Proof.
  induction s as [|x s IH]; simpl; [auto|].
  destruct (p x); [|auto]. intros H. rewrite (IH H). reflexivity.
Qed.

(** The continuation fails on what starts with a character of the class. *)
Lemma greedy_only_longest (R : Type) (p : N -> bool)
    (k : str -> caps -> option R) (s : str) (c : caps) :
  (forall x s', p x = true -> k (x :: s') c = None) ->
  greedy p k s c = k (dropWhile p s) c.
Proof.
  intros Hk. induction s as [|x s IH]; simpl; [reflexivity|].
  destruct (p x) eqn:Px; [|reflexivity].
  rewrite IH. destruct (k (dropWhile p s) c); [reflexivity|].
  apply Hk, Px.
Qed.

Lemma mt_seq (R : Type) (a b : re) (s : str) (c : caps)
    (k : str -> caps -> option R) :
  mt (Seq a b) s c k = mt a s c (fun s' c' => mt b s' c' k).
Proof. reflexivity. Qed.

Lemma mt_cls (R : Type) (p : N -> bool) (s : str) (c : caps)
    (k : str -> caps -> option R) :
  mt (Cls p) s c k
  = match s with
    | x :: s' => if p x then k s' c else None
    | [] => None
    end.
Proof. reflexivity. Qed.

Lemma mt_grp (R : Type) (i : nat) (a : re) (s : str) (c : caps)
    (k : str -> caps -> option R) :
  mt (Grp i a) s c k
  = mt a s c (fun s' c' =>
      k s' (set_cap i (firstn (length s - length s') s) c')).
Proof. reflexivity. Qed.

Lemma mt_kw (R : Type) (w : list ascii) :
  forall (s : str) (c : caps) (k : str -> caps -> option R),
    mt (seqs (map (fun a => Cls (N.eqb (N_of_ascii a))) w)) s c k
    = if startsWith (map N_of_ascii w) s then k (skipn (length w) s) c
      else None.
Proof.
  induction w as [|a w IH]; intros s c k; [reflexivity|].
  cbn [map seqs fold_right mt startsWith length skipn].
  destruct s as [|x s]; [reflexivity|].
  destruct (N_of_ascii a =? x)%N; [|reflexivity].
  cbn [andb]. apply IH.
Qed.

Lemma ws_not_word (x : N) : is_ws x = true -> is_word x = false.
Proof.
  unfold is_ws, is_word, is_upper, is_lower, is_digit. intros H.
  repeat match type of H with
         | (_ || _)%bool = true => apply orb_prop in H; destruct H as [H|H]
         | (_ && _)%bool = true => apply andb_prop in H; destruct H as [? ?]
         end;
    repeat match goal with
           | H : (_ <=? _)%N = true |- _ => apply N.leb_le in H
           | H : (_ =? _)%N = true |- _ => apply N.eqb_eq in H
           end;
    repeat match goal with
           | |- (_ || _)%bool = false => apply orb_false_intro
           | |- (_ && _)%bool = false => apply andb_false_iff
           end;
    try (apply N.eqb_neq; lia);
    try (destruct (N.leb_spec 65 x); [right|left]; apply N.leb_gt; lia);
    try (destruct (N.leb_spec 97 x); [right|left]; apply N.leb_gt; lia);
    try (destruct (N.leb_spec 48 x); [right|left]; apply N.leb_gt; lia).
Qed.

Lemma takeWhile_dropWhile (p : N -> bool) (s : str) :
  s = takeWhile p s ++ dropWhile p s.
Proof.
  induction s as [|x s IH]; [reflexivity|]. simpl.
  destruct (p x); [simpl; f_equal; exact IH | reflexivity].
Qed.

Lemma firstn_takeWhile (p : N -> bool) (s : str) :
  firstn (length s - length (dropWhile p s)) s = takeWhile p s.
Proof.
  rewrite (takeWhile_dropWhile p s) at 1 3. apply firstn_app_length.
Qed.

(** What a pattern made of a keyword, white space and a group of word
    characters captures. *)
Lemma captured_name (w : string) (t : str) :
  captured (at_start (seqs [kw w; Plus ws; Grp 1 (Plus word)])) t
  = Ok (name_after (lit w) t).
Proof.
  unfold captured, exec, match_here, name_after.
  cbn [anchored body at_start seqs fold_right]. unfold Plus, ws, word.
  rewrite mt_seq. unfold kw. rewrite mt_kw. fold (lit w).
  assert (El : length (lit w) = length (list_ascii_of_string w))
    by (unfold lit; apply length_map).
  rewrite <- El. destruct (startsWith (lit w) t); [|reflexivity].
  rewrite !mt_seq, mt_cls.
  destruct (skipn (length (lit w)) t) as [|x r]; [reflexivity|].
  destruct (is_ws x) eqn:Wx; [|reflexivity].
  rewrite mt_star_cls, greedy_only_longest.
  - rewrite mt_seq, mt_grp, mt_seq, mt_cls.
    destruct (dropWhile is_ws r) as [|y r3] eqn:E2; [reflexivity|].
    cbn [takeWhile]. destruct (is_word y) eqn:Wy; [|reflexivity].
    rewrite mt_star_cls.
    erewrite greedy_longest by reflexivity.
    unfold group. cbn [m_caps set_cap Nat.eqb bind]. do 2 f_equal.
    pose proof (firstn_takeWhile is_word (y :: r3)) as F.
    cbn [dropWhile takeWhile] in F. rewrite Wy in F. exact F.
  - intros x0 s' Hx. rewrite mt_seq, mt_grp, mt_seq, mt_cls.
    rewrite (ws_not_word _ Hx). reflexivity.
Qed.

End NameFacts.

(* ================================================================== *)
(** ** The rules on the names of messages and enums *)
(* ================================================================== *)

Module NameRuleFacts.
Import Validator ValidatorSpec ValidatorFacts ReportFacts ValidatorShape
       ShapeFacts PositionFacts StructureFacts CommentFacts NameSpec NameFacts.

Lemma message_name_issues_spec (n : Z) (m : option str) :
  message_name_issues n m
  = match m with
    | Some name =>
        if is_pascal name then []
        else [issue n 1 "message-name-pascal-case"
                (lit "Message name " ++ quoted name
                 ++ lit " should be PascalCase.") SevError]
    | None => []
    end.
Proof.
  unfold message_name_issues. destruct m as [name|]; [|reflexivity].
  rewrite test_pascal. destruct (is_pascal name); reflexivity.
Qed.

Lemma enum_name_issues_spec (n : Z) (m : option str) :
  enum_name_issues n m
  = match m with
    | Some name =>
        if is_pascal name then []
        else [issue n 1 "enum-name-pascal-case"
                (lit "Enum name " ++ quoted name
                 ++ lit " should be PascalCase.") SevError]
    | None => []
    end.
Proof.
  unfold enum_name_issues. destruct m as [name|]; [|reflexivity].
  rewrite test_pascal. destruct (is_pascal name); reflexivity.
Qed.

Lemma check_line_names (n : Z) (raw : str) (st st' : State) :
  check_line n raw st = Ok st' ->
  filter (rule_is "message-name-pascal-case") (issues st')
  = filter (rule_is "message-name-pascal-case") (issues st)
    ++ message_name_issues n (name_after (lit "message") (trim raw))
  /\ filter (rule_is "enum-name-pascal-case") (issues st')
     = filter (rule_is "enum-name-pascal-case") (issues st)
       ++ enum_name_issues n (name_after (lit "enum") (trim raw)).
Proof.
  unfold check_line. unfold MESSAGE_RE, ENUM_RE. rewrite !captured_name.
  cbn [bind]. intros H.
  destruct (enum_part_ok n (trim raw)
              (match name_after (lit "enum") (trim raw) with
               | Some _ => true
               | None => inEnum st
               end)
              (match name_after (lit "enum") (trim raw) with
               | Some name => Some (mkEnum name n [])
               | None => currentEnum st
               end) (enumBlocks st))
    as (ei & bs & ce & b & Hp & Ho).
  rewrite Hp in H. cbn [bind] in H.
  destruct (captured FIELD_RE (trim raw)) as [fieldMatch|]; cbn [bind] in H;
    [|discriminate].
  destruct (track_braces _ _) as [d2 s2]. injection H as <-. cbn [issues].
  rewrite !filter_app.
  rewrite !(shaped_filter_nil (max_length_shape n raw)) by discriminate.
  rewrite (@only_filter_nil enum_rules "message-name-pascal-case" ei Ho)
    by (simpl; intuition discriminate).
  rewrite (@only_filter_nil enum_rules "enum-name-pascal-case" ei Ho)
    by (simpl; intuition discriminate).
  rewrite !(shaped_filter_nil (field_name_shape n fieldMatch b))
    by discriminate.
  rewrite !(shaped_filter_nil (service_shape n (trim raw) _)) by discriminate.
  rewrite !(shaped_filter_nil (rpc_shape n (trim raw) _ _)) by discriminate.
  rewrite (shaped_filter_nil (message_name_shape n _)
             (r' := "enum-name-pascal-case")) by discriminate.
  rewrite (shaped_filter_nil (enum_name_shape n _)
             (r' := "message-name-pascal-case")) by discriminate.
  cbn [app]. rewrite !app_nil_r. split; f_equal; apply filter_all.
  - eapply Forall_impl; [|apply message_name_shape].
    intros i (_ & _ & Hr & _). unfold rule_is. rewrite Hr. reflexivity.
  - eapply Forall_impl; [|apply enum_name_shape].
    intros i (_ & _ & Hr & _). unfold rule_is. rewrite Hr. reflexivity.
Qed.

Lemma check_lines_names (lines : list str) :
  forall (n : Z) (st st' : State),
    check_lines n lines st = Ok st' ->
    filter (rule_is "message-name-pascal-case") (issues st')
    = filter (rule_is "message-name-pascal-case") (issues st)
      ++ name_errors "message" "message-name-pascal-case" "Message name "
           n lines
    /\ filter (rule_is "enum-name-pascal-case") (issues st')
       = filter (rule_is "enum-name-pascal-case") (issues st)
         ++ name_errors "enum" "enum-name-pascal-case" "Enum name " n lines.
Proof.
  induction lines as [|raw rest IH]; intros n st st' H.
  - simpl in H. injection H as <-. simpl. rewrite !app_nil_r. auto.
  - cbn [check_lines] in H. destruct (check_line n raw st) as [st1|] eqn:E;
      cbn [bind] in H; [|discriminate].
    destruct (IH _ _ _ H) as [I1 I2].
    destruct (@check_line_names n raw st st1 E) as [C1 C2].
    rewrite I1, I2, C1, C2, <- !app_assoc. cbn [name_errors].
    rewrite message_name_issues_spec, enum_name_issues_spec. auto.
Qed.

Lemma name_errors_from (kw rule label : string) (lines : list str) :
  forall n, Forall (fun i => n <= line i)%Z (name_errors kw rule label n lines).
Proof.
  induction lines as [|raw rest IH]; intros n; [constructor|].
  cbn [name_errors]. apply Forall_app. split.
  - destruct (name_after _ _) as [name|]; [|constructor].
    destruct (is_pascal name); repeat constructor. simpl. lia.
  - eapply Forall_impl; [|apply IH]. simpl. intros; lia.
Qed.

Lemma name_errors_sorted (kw rule label : string) (lines : list str) :
  forall n, StronglySorted key_le (name_errors kw rule label n lines).
Proof.
  induction lines as [|raw rest IH]; intros n; [constructor|].
  cbn [name_errors].
  destruct (name_after _ _) as [name|]; [|apply IH].
  destruct (is_pascal name); [apply IH|]. cbn [app].
  constructor; [apply IH|].
  eapply Forall_impl; [|apply (name_errors_from kw rule label rest (n + 1))].
  intros i Hi. left. simpl. simpl in Hi. lia.
Qed.

Lemma name_errors_shape (kw rule label : string) (lines : list str) :
  forall n,
    Forall (fun i => rule_is rule i = true /\ severity i = SevError)
      (name_errors kw rule label n lines).
Proof.
  induction lines as [|raw rest IH]; intros n; [constructor|].
  cbn [name_errors]. apply Forall_app. split; [|apply IH].
  destruct (name_after _ _) as [name|]; [|constructor].
  destruct (is_pascal name); repeat constructor.
  unfold rule_is. simpl. apply String.eqb_refl.
Qed.

Lemma emitted_names (content : str) :
  exists all,
    emitted content = Ok all
    /\ filter (rule_is "message-name-pascal-case") all
       = name_errors "message" "message-name-pascal-case" "Message name " 1
           (split_lf content)
    /\ filter (rule_is "enum-name-pascal-case") all
       = name_errors "enum" "enum-name-pascal-case" "Enum name " 1
           (split_lf content).
Proof.
  unfold emitted. set (lines := split_lf content).
  destruct (check_lines_ok lines 1
              (init (trailing_newline_issues content lines)))
    as (st & new & H & _).
  rewrite H. cbn [bind].
  destruct (validateSyntax_ok lines) as (syn & Hs & Os). rewrite Hs.
  cbn [bind]. eexists. split; [reflexivity|].
  destruct (@check_lines_names lines 1 _ st H) as [C1 C2].
  rewrite !filter_app, C1, C2. cbn [issues init].
  rewrite !(shaped_filter_nil (trailing_newline_shape content lines))
    by discriminate.
  rewrite !(only_filter_nil _ (structure_issues_only st))
    by (simpl; intuition discriminate).
  rewrite !(only_filter_nil _ (import_issues_only (importLines st) false))
    by (simpl; intuition discriminate).
  rewrite !(only_filter_nil _ Os) by (simpl; intuition discriminate).
  cbn [app]. rewrite !app_nil_r. split; reflexivity.
Qed.

(** *** The errors on the names of fields and of enum values *)

Lemma only_justified (rs : list string) (l : list Issue) :
  only rs l -> ~ In "field-name-snake-case"%string rs ->
  ~ In "enum-value-upper-snake-case"%string rs -> Forall justified l.
Proof.
  intros H H1 H2. eapply Forall_impl; [|exact H]. intros i Hi.
  cbv beta in Hi. split; intros E; rewrite E in Hi; contradiction.
Qed.

Lemma shaped_justified (n c : Z) (r : string) (s : Severity) (l : list Issue) :
  Forall (shaped n c r s) l ->
  r <> "field-name-snake-case"%string ->
  r <> "enum-value-upper-snake-case"%string -> Forall justified l.
Proof.
  intros H H1 H2. eapply only_justified; [eapply shaped_only, H| |];
    simpl; intuition congruence.
Qed.

Lemma field_name_justified (n : Z) (m : option str) (b : bool) :
  Forall justified (field_name_issues n m b).
Proof.
  unfold field_name_issues. destruct m as [name|]; [|constructor].
  destruct (negb b); [|constructor].
  destruct (negb (test SNAKE_RE name)) eqn:E; [|constructor].
  constructor; [|constructor]. split; [|discriminate].
  intros _. exists name. split; [reflexivity|].
  rewrite <- test_snake_re. apply negb_true_iff, E.
Qed.

Lemma enum_value_justified (n : Z) (t : str) (vals : list EnumValue)
    (vi : list Issue) :
  enum_value n t = Ok (vals, vi) -> Forall justified vi.
Proof.
  unfold enum_value. destruct (exec VALUE_RE t) as [m|];
    [|intros H; injection H as <- <-; constructor].
  destruct (group m 1) as [v1|]; cbn [bind]; [|discriminate].
  destruct (group m 2) as [v2|]; cbn [bind]; [|discriminate].
  intros H. injection H as _ <-.
  destruct (negb (test UPPER_SNAKE_RE v1)) eqn:E; [|constructor].
  constructor; [|constructor]. split; [discriminate|].
  intros _. exists v1. split; [reflexivity|].
  rewrite <- test_upper_snake_re. apply negb_true_iff, E.
Qed.

Lemma enum_part_justified (n : Z) (t : str) (b : bool) (ce : option EnumBlock)
    (bs : list EnumBlock) (iss : list Issue) (bs' : list EnumBlock)
    (ce' : option EnumBlock) (b' : bool) :
  enum_part n t b ce bs = Ok (iss, bs', ce', b') -> Forall justified iss.
Proof.
  unfold enum_part. intros H.
  assert (Hsame : Ok (@nil Issue, bs, ce, b) = Ok (iss, bs', ce', b') ->
                  Forall justified iss).
  { intros E. injection E as <- _ _ _. constructor. }
  destruct b; [|apply Hsame; destruct ce; exact H].
  destruct ce as [e|]; [|apply Hsame, H]. clear Hsame.
  destruct (enum_value n t) as [[vals vi]|] eqn:Hv; cbn [bind] in H;
    [|discriminate].
  pose proof (enum_value_justified _ _ Hv) as Hvi.
  destruct (includes (lit "}") t); injection H as <- _ _ _; [|exact Hvi].
  apply Forall_app. split; [exact Hvi|].
  eapply shaped_justified; [apply first_value_shape | |]; discriminate.
Qed.

Lemma check_line_justified (n : Z) (raw : str) (st st' : State) :
  check_line n raw st = Ok st' ->
  Forall justified (issues st) -> Forall justified (issues st').
Proof.
  intros H Hj. destruct (check_line_explicit _ _ _ H)
    as (mm & em & fm & ei & bs & ce & b & Hp & Hi & _).
  rewrite Hi. repeat (apply Forall_app; split); try exact Hj.
  - eapply shaped_justified; [apply max_length_shape | |]; discriminate.
  - eapply shaped_justified; [apply message_name_shape | |]; discriminate.
  - eapply shaped_justified; [apply enum_name_shape | |]; discriminate.
  - eapply enum_part_justified, Hp.
  - apply field_name_justified.
  - eapply shaped_justified; [apply service_shape | |]; discriminate.
  - eapply shaped_justified; [apply rpc_shape | |]; discriminate.
Qed.

Lemma check_lines_justified (lines : list str) :
  forall (n : Z) (st st' : State),
    check_lines n lines st = Ok st' ->
    Forall justified (issues st) -> Forall justified (issues st').
Proof.
  induction lines as [|raw rest IH]; intros n st st' H Hj.
  - simpl in H. injection H as <-. exact Hj.
  - cbn [check_lines] in H. destruct (check_line n raw st) as [st1|] eqn:E;
      cbn [bind] in H; [|discriminate].
    eapply IH; [exact H|]. eapply check_line_justified; eassumption.
Qed.

Lemma emitted_justified (content : str) :
  exists all, emitted content = Ok all /\ Forall justified all.
Proof.
  unfold emitted. set (lines := split_lf content).
  destruct (check_lines_ok lines 1
              (init (trailing_newline_issues content lines)))
    as (st & new & H & _).
  rewrite H. cbn [bind].
  destruct (validateSyntax_ok lines) as (syn & Hs & Os). rewrite Hs.
  cbn [bind]. eexists. split; [reflexivity|].
  apply Forall_app. split.
  - eapply check_lines_justified; [exact H|]. cbn [issues init].
    eapply shaped_justified; [apply trailing_newline_shape | |]; discriminate.
  - apply Forall_app. split;
      [eapply only_justified; [apply structure_issues_only | |];
       simpl; intuition discriminate|].
    apply Forall_app. split;
      [eapply only_justified; [apply import_issues_only | |];
       simpl; intuition discriminate|].
    eapply only_justified; [exact Os | |]; simpl; intuition discriminate.
Qed.

End NameRuleFacts.

(* ================================================================== *)
(** ** The block whose opening brace is missing *)
(* ================================================================== *)

Module ScanFacts.
Import Validator ValidatorSpec ValidatorFacts ReportFacts ScanSpec.

Lemma scan_app (a b : list str) :
  forall (n : Z) (st : Syntax.State),
    Syntax.scan n (a ++ b) st
    = (st' <- Syntax.scan n a st ;;
       Syntax.scan (n + Z.of_nat (length a)) b st').
Proof.
  induction a as [|x a IH]; intros n st.
  - simpl. rewrite Z.add_0_r. reflexivity.
  - cbn [app Syntax.scan]. destruct (Syntax.scan_line n x st) as [st1|];
      cbn [bind]; [|reflexivity].
    rewrite IH. cbn [length]. rewrite Nat2Z.inj_succ.
    replace (n + 1 + Z.of_nat (length a))%Z
      with (n + Z.succ (Z.of_nat (length a)))%Z by lia.
    reflexivity.
Qed.

Lemma scan_line_passed_over (n : Z) (raw : str) (st : Syntax.State) :
  passed_over raw = true -> Syntax.scan_line n raw st = Ok st.
Proof.
  unfold passed_over, Syntax.scan_line. fold (code_of raw). intros H.
  destruct (is_empty (trim raw) || startsWith (lit "//") (trim raw)
            || startsWith (lit "/*") (trim raw)
            || startsWith (lit "*") (trim raw)); [reflexivity|].
  simpl in H. rewrite H. reflexivity.
Qed.

Lemma scan_passed_over (lines : list str) :
  forall (n : Z) (st : Syntax.State),
    forallb passed_over lines = true -> Syntax.scan n lines st = Ok st.
Proof.
  induction lines as [|raw rest IH]; intros n st H; [reflexivity|].
  simpl in H. apply andb_prop in H. destruct H as [H1 H2].
  cbn [Syntax.scan]. rewrite (@scan_line_passed_over n raw st H1). cbn [bind].
  apply IH, H2.
Qed.

(** The line of a block without its brace: the scanner awaits the body. *)
Lemma scan_line_header (n : Z) (raw : str) (st : Syntax.State)
    (type name : str) :
  passed_over raw = false ->
  header (code_of raw) = Some (type, name) ->
  includes (lit "{") (code_of raw) = false ->
  exists st',
    Syntax.scan_line n raw st = Ok st'
    /\ Syntax.expectingBody st' = true
    /\ Syntax.expectingType st' = type
    /\ Syntax.expectingName st' = name
    /\ Syntax.expectingLine st' = n.
Proof.
  unfold passed_over, header, Syntax.scan_line. fold (code_of raw).
  intros Hp Hh Hi.
  destruct (is_empty (trim raw) || startsWith (lit "//") (trim raw)
            || startsWith (lit "/*") (trim raw)
            || startsWith (lit "*") (trim raw)); [discriminate|].
  simpl in Hp. rewrite Hp.
  destruct (exec Syntax.BLOCK_RE (code_of raw)) as [bm|] eqn:E;
    [|discriminate].
  unfold Syntax.detect_block.
  destruct (group bm 1) as [ty|]; [|discriminate].
  injection Hh as -> <-. cbn [bind]. rewrite Hi. cbn [bind].
  match goal with
  | |- context [Syntax.pop_close ?a ?b ?c] =>
      destruct (Syntax.pop_close a b c) as [iss3 stack3]
  end.
  destruct (syntax_value_issues_ok n (code_of raw)) as (syn & Hs & _).
  rewrite Hs. cbn [bind]. eexists. split; [reflexivity|].
  repeat split.
Qed.

(** The first line of code after it, when it neither opens a block nor
    starts with a brace: the missing brace is reported. *)
Lemma scan_line_missing_brace (n : Z) (raw : str) (st : Syntax.State) :
  passed_over raw = false ->
  header (code_of raw) = None ->
  startsWith (lit "{") (code_of raw) = false ->
  Syntax.expectingBody st = true ->
  exists st',
    Syntax.scan_line n raw st = Ok st'
    /\ In (missing_brace_issue (Syntax.expectingLine st)
             (Syntax.expectingType st) (Syntax.expectingName st))
          (Syntax.issues st').
Proof.
  unfold passed_over, header, Syntax.scan_line. fold (code_of raw).
  intros Hp Hh Hi Hb.
  destruct (is_empty (trim raw) || startsWith (lit "//") (trim raw)
            || startsWith (lit "/*") (trim raw)
            || startsWith (lit "*") (trim raw)); [discriminate|].
  simpl in Hp. rewrite Hp.
  destruct (exec Syntax.BLOCK_RE (code_of raw)) as [bm|] eqn:E.
  { destruct (group_ok Syntax.BLOCK_RE (code_of raw) 1 E eq_refl) as [ty H].
    rewrite H in Hh. discriminate. }
  unfold Syntax.detect_block. cbn [Syntax.expectingBody]. rewrite Hb.
  assert (Hc : str_eqb (code_of raw) (lit "{") = false).
  { unfold str_eqb.
    destruct (list_eq_dec N.eq_dec (code_of raw) (lit "{")) as [Eq|];
      [|reflexivity].
    rewrite Eq in Hi. discriminate. }
  rewrite Hi, Hc. cbn [orb bind].
  match goal with
  | |- context [Syntax.pop_close ?a ?b (?i, ?s)] =>
      destruct (pop_close_issues a b i s) as (new & Hn & _);
      destruct (Syntax.pop_close a b (i, s)) as [iss3 stack3]
  end.
  cbn [fst] in Hn. subst iss3.
  destruct (syntax_value_issues_ok n (code_of raw)) as (syn & Hs & _).
  rewrite Hs. cbn [bind]. eexists. split; [reflexivity|].
  cbn [Syntax.issues Syntax.expectingLine Syntax.expectingType
       Syntax.expectingName].
  apply in_or_app. left. apply in_or_app. left. apply in_or_app. right.
  left. reflexivity.
Qed.

Lemma extends_in (st st' : Syntax.State) (i : Issue) :
  extends st st' -> In i (Syntax.issues st) -> In i (Syntax.issues st').
Proof. intros (new & -> & _) H. apply in_or_app. left. exact H. Qed.

Lemma validateSyntax_missing_brace (pre mid post : list str) (h next : str)
    (type name : str) :
  passed_over h = false ->
  header (code_of h) = Some (type, name) ->
  includes (lit "{") (code_of h) = false ->
  forallb passed_over mid = true ->
  passed_over next = false ->
  header (code_of next) = None ->
  startsWith (lit "{") (code_of next) = false ->
  exists l,
    Syntax.validateSyntax (pre ++ h :: mid ++ next :: post) = Ok l
    /\ In (missing_brace_issue (Z.of_nat (length pre) + 1) type name) l.
Proof.
  intros Hh1 Hh2 Hh3 Hm Hn1 Hn2 Hn3. unfold Syntax.validateSyntax.
  rewrite scan_app.
  destruct (scan_ok pre 1 Syntax.init) as (st1 & E1 & _). rewrite E1.
  cbn [bind Syntax.scan].
  destruct (@scan_line_header (1 + Z.of_nat (length pre)) h st1 type name
              Hh1 Hh2 Hh3) as (st2 & E2 & B2 & T2 & N2 & L2).
  rewrite E2. cbn [bind]. rewrite scan_app.
  rewrite (@scan_passed_over mid _ st2 Hm).
  cbn [bind Syntax.scan].
  match goal with
  | |- context [Syntax.scan_line ?n next st2] =>
      destruct (@scan_line_missing_brace n next st2 Hn1 Hn2 Hn3 B2)
        as (st3 & E3 & I3)
  end.
  rewrite E3. cbn [bind].
  match goal with
  | |- context [Syntax.scan ?n post st3] =>
      destruct (scan_ok post n st3) as (st4 & E4 & X4)
  end.
  rewrite E4. cbn [bind]. eexists. split; [reflexivity|].
  apply in_or_app. left. apply (@extends_in st3 st4 _ X4).
  rewrite T2, N2, L2 in I3.
  replace (Z.of_nat (length pre) + 1)%Z with (1 + Z.of_nat (length pre))%Z
    by lia.
  exact I3.
Qed.

End ScanFacts.

(* ================================================================== *)
(** ** The blank lines of the text play no part in the formatter *)
(* ================================================================== *)

Module BlankFacts.
Import Formatter FormatterSpec FormatterFacts TrimFacts.

(** *** What [trim] leaves *)

Lemma dropWhile_all (p : N -> bool) (w s : str) :
  forallb p w = true -> dropWhile p (w ++ s) = dropWhile p s.
Proof.
  induction w as [|x w IH]; intros H; [reflexivity|].
  simpl in H. apply andb_prop in H. destruct H as [Hx Hw].
  simpl. rewrite Hx. apply IH, Hw.
Qed.

Lemma forallb_rev (p : N -> bool) (s : str) :
  forallb p (rev s) = forallb p s.
Proof.
  induction s as [|x s IH]; [reflexivity|]. simpl.
  rewrite forallb_app, IH. simpl. rewrite andb_true_r. apply andb_comm.
Qed.

Lemma trimEnd_core (a : str) (c : N) (w : str) :
  is_ws c = false -> forallb is_ws w = true ->
  trimEnd ((a ++ [c]) ++ w) = a ++ [c].
Proof.
  intros Hc Hw. unfold trimEnd. rewrite rev_app_distr.
  rewrite dropWhile_all by (rewrite forallb_rev; exact Hw).
  rewrite rev_app_distr. simpl. rewrite Hc. simpl.
  rewrite rev_involutive. reflexivity.
Qed.

Lemma trimStart_core (x : N) (s : str) :
  is_ws x = false -> trimStart (x :: s) = x :: s.
Proof. intros H. unfold trimStart. simpl. rewrite H. reflexivity. Qed.

(** A trimmed text is empty, or starts and ends with no white space. *)
Lemma trim_shape (s : str) :
  trim s = []
  \/ exists x r a c,
       trim s = x :: r /\ trim s = a ++ [c]
       /\ is_ws x = false /\ is_ws c = false.
Proof.
  destruct (trim s) as [|x r] eqn:E; [left; reflexivity|]. right.
  assert (Hx : is_ws x = false).
  { unfold trim, trimStart in E. eapply dropWhile_head, E. }
  assert (Hn : x :: r <> []) by discriminate.
  destruct (exists_last Hn) as (a & c & Ha).
  exists x, r, a, c. repeat split; [exact Ha | exact Hx|].
  unfold trim, trimStart in E.
  destruct (dropWhile_suffix is_ws (trimEnd s)) as (p & Ep).
  rewrite E, Ha, app_assoc in Ep. eapply trimEnd_last, Ep.
Qed.

Lemma trim_fixed (x : N) (r a : str) (c : N) :
  x :: r = a ++ [c] -> is_ws x = false -> is_ws c = false ->
  trim (x :: r) = x :: r.
Proof.
  intros E Hx Hc. unfold trim. rewrite E.
  rewrite <- (app_nil_r (a ++ [c])) at 1.
  rewrite trimEnd_core by auto. rewrite <- E. apply trimStart_core, Hx.
Qed.

Lemma trim_idem (s : str) : trim (trim s) = trim s.
Proof.
  destruct (trim_shape s) as [E|(x & r & a & c & E1 & E2 & Hx & Hc)].
  - rewrite E. reflexivity.
  - rewrite E1. apply trim_fixed with (a := a) (c := c); auto. congruence.
Qed.

(** *** The lines that are not blank *)

Lemma solid_app (a b : list str) : solid (a ++ b) = solid a ++ solid b.
Proof. unfold solid. rewrite map_app, filter_app. reflexivity. Qed.

Lemma solid_cons (raw : str) (rest : list str) :
  solid (raw :: rest)
  = (if is_empty (trim raw) then [] else [trim raw]) ++ solid rest.
Proof. unfold solid. simpl. destruct (is_empty (trim raw)); reflexivity. Qed.

Lemma solid_solid (l : list str) : solid (solid l) = solid l.
Proof.
  induction l as [|raw rest IH]; [reflexivity|].
  rewrite solid_cons. destruct (is_empty (trim raw)) eqn:E; [exact IH|].
  cbn [app]. rewrite solid_cons, trim_idem, E, IH. reflexivity.
Qed.

Lemma presplit_line_solid (raw : str) (ls : list str) :
  presplit_line raw = Ok ls -> solid ls = solid_pieces (trim raw).
Proof.
  unfold solid_pieces, presplit_line. rewrite trim_idem.
  destruct (exec SPLIT_RE (trim raw)) as [m|].
  - destruct (negb _).
    + intros H. rewrite H. reflexivity.
    + intros H. injection H as <-. rewrite !solid_cons, trim_idem.
      reflexivity.
  - intros H. injection H as <-. rewrite !solid_cons, trim_idem.
    reflexivity.
Qed.

Lemma solid_pieces_nil : solid_pieces [] = [].
Proof. reflexivity. Qed.

Lemma presplit_solid (raws : list str) :
  forall ls, presplit raws = Ok ls ->
             solid ls = concat (map solid_pieces (solid raws)).
Proof.
  induction raws as [|raw rest IH]; intros ls H; simpl in H.
  - injection H as <-. reflexivity.
  - destruct (presplit_line raw) as [here|] eqn:Eh; cbn [bind] in H;
      [|discriminate].
    destruct (presplit rest) as [more|]; cbn [bind] in H; [|discriminate].
    injection H as <-. rewrite solid_app, (IH more eq_refl), solid_cons.
    rewrite (presplit_line_solid _ Eh).
    destruct (is_empty (trim raw)) eqn:E.
    + destruct (trim raw); [|discriminate]. reflexivity.
    + cbn [app map concat]. reflexivity.
Qed.

(** *** The pieces of a split line start no block comment *)

Lemma startsWith_block_comment (x : N) (s t u : str) (c : N) :
  c <> 42%N ->
  startsWith (lit "/*") (x :: s ++ [c]) = startsWith (lit "/*") (x :: s ++ c :: t ++ u).
Proof.
  intros Hc. change (lit "/*") with [47%N; 42%N]. cbn [startsWith].
  destruct s as [|y s]; cbn [app startsWith].
  - assert (E : (42 =? c)%N = false) by (apply N.eqb_neq; congruence).
    rewrite E. reflexivity.
  - rewrite !andb_true_r. reflexivity.
Qed.

Lemma presplit_line_comment (raw : str) (ls : list str) :
  presplit_line raw = Ok ls ->
  startsWith (lit "/*") (trim raw) = false ->
  no_block_comment ls = true.
Proof.
  unfold presplit_line. intros H Hc.
  assert (Hraw : no_block_comment [raw] = true)
    by (unfold no_block_comment; cbn [forallb]; rewrite Hc; reflexivity).
  destruct (exec SPLIT_RE (trim raw)) as [m|] eqn:E;
    [|injection H as <-; exact Hraw].
  destruct (negb _); [|injection H as <-; exact Hraw].
  apply exec_anchored_sound in E. destruct E as (s1 & s2 & Et & M).
  destruct m as [mi me cf]. unfold group in H. cbn [m_caps] in *.
  unfold Plus, ws, chr, dot, seqs in M. cbn [fold_right] in M.
  split_match. cbn [set_cap Nat.eqb bind] in H. injection H as <-.
  match goal with H : [] ++ s2 = [] |- _ => simpl in H; subst s2 end.
  repeat match goal with
         | P : (N_of_ascii _ =? ?x)%N = true |- _ =>
             apply N.eqb_eq in P; subst x
         end.
  rewrite !app_nil_r in *. cbn [app] in *.
  match goal with
  | |- no_block_comment [trim (?x :: ?a ++ ?c :: ?w); trim (?b :: ?w')] = _ =>
      assert (Hx : is_ws x = false);
      [destruct (trim_shape raw) as [E0|(x' & r' & _ & _ & E1 & _ & Hx' & _)];
       [rewrite E0 in Et; discriminate
       |rewrite E1 in Et; injection Et as -> _; exact Hx']|];
      assert (T1 : trim (x :: a ++ c :: w) = x :: a ++ [c]);
      [unfold trim;
       replace (x :: a ++ c :: w) with (((x :: a) ++ [c]) ++ w)
         by (cbn [app]; rewrite <- app_assoc; reflexivity);
       rewrite trimEnd_core by (auto; reflexivity);
       apply trimStart_core, Hx|];
      assert (T2 : trim (b :: w') = [b]);
      [unfold trim; change (b :: w') with (([] ++ [b]) ++ w');
       rewrite trimEnd_core by (auto; reflexivity); reflexivity|];
      unfold no_block_comment; cbn [forallb]; rewrite T1, T2;
      rewrite (@trim_fixed b [] [] b) by reflexivity;
      rewrite (@trim_fixed x (a ++ [c]) (x :: a) c) by (auto; reflexivity);
      rewrite Et, <- app_assoc in Hc; cbn [app] in Hc;
      rewrite (@startsWith_block_comment x a w (b :: w') c) by discriminate;
      rewrite Hc; reflexivity
  end.
Qed.

Lemma no_block_comment_app (a b : list str) :
  no_block_comment (a ++ b) = no_block_comment a && no_block_comment b.
Proof. apply forallb_app. Qed.

Lemma presplit_comment (raws : list str) :
  forall ls, presplit raws = Ok ls -> no_block_comment raws = true ->
             no_block_comment ls = true.
Proof.
  induction raws as [|raw rest IH]; intros ls H Hc; simpl in H.
  - injection H as <-. reflexivity.
  - destruct (presplit_line raw) as [here|] eqn:Eh; cbn [bind] in H;
      [|discriminate].
    destruct (presplit rest) as [more|]; cbn [bind] in H; [|discriminate].
    injection H as <-. unfold no_block_comment in Hc. cbn [forallb] in Hc.
    apply andb_prop in Hc. destruct Hc as [H1 H2].
    rewrite no_block_comment_app, (IH more eq_refl H2), andb_true_r.
    apply (presplit_line_comment _ Eh).
    destruct (startsWith (lit "/*") (trim raw)); [discriminate | reflexivity].
Qed.

(** *** The first loop *)

Lemma first_pass_skip (lines : list str) :
  forall (k : nat) (st : State),
    first_pass lines k st = first_pass (skipn k lines) 0 st.
Proof.
  induction lines as [|line rest IH]; intros k st.
  - destruct k; reflexivity.
  - destruct k as [|k]; [reflexivity|]. cbn [first_pass skipn]. apply IH.
Qed.

(** The look-ahead of a merge on the lines and on the lines that are not
    blank. *)
Lemma brace_ahead_solid (rest : list str) :
  match brace_ahead rest with
  | Some k =>
      brace_ahead (solid rest) = Some 1%nat
      /\ solid (skipn k rest) = skipn 1 (solid rest)
  | None => brace_ahead (solid rest) = None
  end.
Proof.
  induction rest as [|l rest IH]; [reflexivity|].
  cbn [brace_ahead]. rewrite solid_cons.
  destruct (is_empty (trim l)) eqn:E.
  - cbn [app]. destruct (brace_ahead rest) as [k|]; cbn [option_map skipn];
      exact IH.
  - cbn [app brace_ahead]. rewrite trim_idem, E.
    destruct (str_eqb (trim l) (lit "{")); [|reflexivity].
    split; reflexivity.
Qed.

Lemma no_block_comment_skipn (k : nat) (lines : list str) :
  no_block_comment lines = true -> no_block_comment (skipn k lines) = true.
Proof.
  intros H. rewrite <- (firstn_skipn k lines), no_block_comment_app in H.
  apply andb_prop in H. apply H.
Qed.

Lemma first_pass_line_trim (line : str) (rest : list str) (st : State) :
  first_pass_line (trim line) rest st = first_pass_line line rest st.
Proof.
  unfold first_pass_line. rewrite !trim_trimEnd, trim_idem. reflexivity.
Qed.

(** One iteration, on the lines and on the lines that are not blank: the
    same lines are recorded, and the iterations go on from the same
    place. *)
Lemma first_pass_line_solid (line : str) (rest : list str) (st : State) :
  fst (first_pass_line line (solid rest) st) = fst (first_pass_line line rest st)
  /\ solid (skipn (snd (first_pass_line line rest st)) rest)
     = skipn (snd (first_pass_line line (solid rest) st)) (solid rest).
Proof.
  unfold first_pass_line.
  destruct (inBlockComment st); [split; reflexivity|].
  destruct (startsWith (lit "/*") _); [split; reflexivity|].
  destruct (is_empty _); [split; reflexivity|].
  destruct (_ || _); [split; reflexivity|].
  destruct (classify _) as [text0 type0].
  destruct (test BLOCK_OPENERS text0 && negb (includes (lit "{") text0));
    [|split; reflexivity].
  pose proof (brace_ahead_solid rest) as H.
  destruct (brace_ahead rest) as [k|].
  - destruct H as [H1 H2]. rewrite H1. split; [reflexivity | exact H2].
  - rewrite H. split; reflexivity.
Qed.

Lemma first_pass_line_open (line : str) (rest : list str) (st : State) :
  inBlockComment st = false ->
  startsWith (lit "/*") (trim line) = false ->
  inBlockComment (fst (first_pass_line line rest st)) = false.
Proof.
  intros Hb Hc. unfold first_pass_line. rewrite Hb, trim_trimEnd, Hc.
  destruct (is_empty _); [exact Hb|].
  destruct (_ || _); [reflexivity|].
  destruct (classify _) as [text0 type0].
  match goal with
  | |- context [let '(_, _) := ?p in _] => destruct p as [text' skip]
  end.
  reflexivity.
Qed.

Lemma first_pass_line_blank (line : str) (rest : list str) (st : State) :
  inBlockComment st = false -> is_empty (trim line) = true ->
  first_pass_line line rest st = (st, 0%nat).
Proof.
  intros Hb He. unfold first_pass_line. rewrite Hb, trim_trimEnd.
  destruct (trim line); [reflexivity | discriminate].
Qed.

Lemma first_pass_solid_bounded (n : nat) :
  forall (lines : list str) (st : State),
    (length lines <= n)%nat ->
    no_block_comment lines = true -> inBlockComment st = false ->
    first_pass lines 0 st = first_pass (solid lines) 0 st.
Proof.
  induction n as [|n IH]; intros lines st Hn Hc Hb.
  - destruct lines; [reflexivity | simpl in Hn; lia].
  - destruct lines as [|line rest]; [reflexivity|].
    unfold no_block_comment in Hc. cbn [forallb] in Hc.
    apply andb_prop in Hc. destruct Hc as [Hl Hr].
    apply negb_true_iff in Hl. fold (no_block_comment rest) in Hr.
    simpl in Hn. rewrite solid_cons. cbn [first_pass].
    destruct (is_empty (trim line)) eqn:E.
    + rewrite (@first_pass_line_blank line rest st Hb E). cbn [app].
      apply IH; [lia | exact Hr | exact Hb].
    + cbn [app first_pass]. rewrite first_pass_line_trim.
      destruct (first_pass_line_solid line rest st) as [H1 H2].
      pose proof (@first_pass_line_open line rest st Hb Hl) as Ho.
      destruct (first_pass_line line rest st) as [st1 k1].
      destruct (first_pass_line line (solid rest) st) as [st2 k2].
      cbn [fst snd] in *. subst st2.
      rewrite (first_pass_skip rest k1), (first_pass_skip (solid rest) k2).
      rewrite <- H2.
      apply IH; [|apply no_block_comment_skipn, Hr | exact Ho].
      rewrite length_skipn. lia.
Qed.

Lemma first_pass_solid (lines : list str) :
  no_block_comment lines = true ->
  first_pass lines 0 init = first_pass (solid lines) 0 init.
Proof.
  intros H. apply (@first_pass_solid_bounded (length lines));
    [lia | exact H | reflexivity].
Qed.

Lemma no_block_comment_solid (lines : list str) :
  no_block_comment lines = true -> no_block_comment (solid lines) = true.
Proof.
  induction lines as [|x l IH]; intros H; [reflexivity|].
  unfold no_block_comment in H. cbn [forallb] in H.
  apply andb_prop in H. destruct H as [Hx Hl]. rewrite solid_cons.
  destruct (is_empty (trim x)); [apply IH, Hl|].
  unfold no_block_comment. cbn [app forallb]. rewrite trim_idem, Hx.
  apply IH, Hl.
Qed.

(** The lines of the first loop are those of the lines that are not blank. *)
Lemma lines_of_solid (content : str) (ls : list Line) :
  no_block_comment (split_lf content) = true ->
  lines_of content = Ok ls ->
  ls = formatted
         (first_pass (concat (map solid_pieces (solid (split_lf content))))
            0 init).
Proof.
  intros Hc. unfold lines_of.
  destruct (presplit (split_lf content)) as [pl|] eqn:Ep; cbn [bind];
    [|discriminate].
  intros H. injection H as <-.
  rewrite (@first_pass_solid pl (@presplit_comment _ pl Ep Hc)).
  rewrite (@presplit_solid _ pl Ep). reflexivity.
Qed.

Lemma format_solid (c1 c2 : str) :
  no_block_comment (split_lf c1) = true ->
  no_block_comment (split_lf c2) = true ->
  solid (split_lf c1) = solid (split_lf c2) ->
  format c1 = format c2.
Proof.
  intros H1 H2 E. unfold format.
  destruct (lines_of_ok c1) as (l1 & E1 & _).
  destruct (lines_of_ok c2) as (l2 & E2 & _).
  rewrite E1, E2. cbn [bind].
  rewrite (@lines_of_solid c1 l1 H1 E1), (@lines_of_solid c2 l2 H2 E2), E.
  reflexivity.
Qed.

End BlankFacts.

(* ================================================================== *)
(** ** The first version of the formatter collapses the blank lines *)
(* ================================================================== *)

Module CollapseFacts.
Import FormatterSpec FormatterFacts TrimFacts BlankFacts DepthFacts.
Import FormatterV1 FormatterV1Facts.

(** *** No line feed inside the lines *)

Lemma nolf_app (a b : str) : nolf a -> nolf b -> nolf (a ++ b).
Proof. intros Ha Hb. apply Forall_app. split; assumption. Qed.

Lemma nolf_app_inv (a b : str) : nolf (a ++ b) -> nolf a /\ nolf b.
Proof. apply Forall_app. Qed.

Lemma nolf_lit (s : string) :
  forallb (fun c => negb (c =? lf)%N) (lit s) = true -> nolf (lit s).
Proof.
  intros H. apply Forall_forall. intros c Hc.
  rewrite forallb_forall in H. specialize (H c Hc).
  apply negb_true_iff, N.eqb_neq in H. exact H.
Qed.

Ltac nolf_literal := apply nolf_lit; reflexivity.

Lemma nolf_dropWhile (p : N -> bool) (s : str) : nolf s -> nolf (dropWhile p s).
Proof.
  intros H. destruct (dropWhile_suffix p s) as (q & E).
  rewrite E in H. apply nolf_app_inv in H. apply H.
Qed.

Lemma nolf_rev (s : str) : nolf s -> nolf (rev s).
Proof. intros H. apply Forall_rev, H. Qed.

Lemma nolf_trimEnd (s : str) : nolf s -> nolf (trimEnd s).
Proof. intros H. apply nolf_rev, nolf_dropWhile, nolf_rev, H. Qed.

Lemma nolf_trim (s : str) : nolf s -> nolf (trim s).
Proof. intros H. apply nolf_dropWhile, nolf_trimEnd, H. Qed.

Lemma nolf_split_lf (s : str) : Forall nolf (split_lf s).
Proof.
  induction s as [|c s IH]; [repeat constructor|]. cbn [split_lf].
  destruct (N.eqb_spec c lf) as [->|Hc]; [constructor; [constructor | exact IH]|].
  destruct (split_lf s) as [|l ls]; [repeat constructor; exact Hc|].
  inversion IH; subst. constructor; [constructor; assumption | assumption].
Qed.

Lemma split_join_lf (ls : list str) :
  ls <> [] -> Forall nolf ls -> split_lf (join_lf ls) = ls.
Proof.
  induction ls as [|l ls IH]; intros Hn Hl; [contradiction|].
  inversion Hl as [|? ? H1 H2]; subst.
  destruct ls as [|l' ls].
  - cbn [join_lf]. clear -H1. induction l as [|c l IHl]; [reflexivity|].
    inversion H1; subst. cbn [split_lf].
    destruct (N.eqb_spec c lf); [contradiction|]. rewrite IHl by assumption.
    reflexivity.
  - change (join_lf (l :: l' :: ls)) with (l ++ lf :: join_lf (l' :: ls)).
    specialize (IH ltac:(discriminate) H2). clear -H1 IH.
    induction l as [|c l IHl].
    + cbn [app split_lf]. rewrite N.eqb_refl, IH. reflexivity.
    + inversion H1; subst. cbn [app split_lf].
      destruct (N.eqb_spec c lf); [contradiction|].
      rewrite IHl by assumption. reflexivity.
Qed.

Lemma replace_nolf (rx : regex) (rep : Match -> str) (s : str) :
  nolf s ->
  (forall m mid post,
      matches (body rx) mid post no_caps (m_caps m) -> nolf mid ->
      nolf (rep m)) ->
  nolf (replace rx rep s).
Proof.
  intros Hs Hr. destruct (replace_place rx rep s)
    as [->|(m & pre & mid & post & -> & -> & M)]; [exact Hs|].
  apply nolf_app_inv in Hs. destruct Hs as [H1 H2].
  apply nolf_app_inv in H2. destruct H2 as [H2 H3].
  apply nolf_app; [exact H1|]. apply nolf_app; [|exact H3].
  eapply Hr; eassumption.
Qed.

Lemma nolf_skipn (n : nat) (s : str) : nolf s -> nolf (skipn n s).
Proof.
  intros H. rewrite <- (firstn_skipn n s) in H. apply nolf_app_inv in H.
  apply H.
Qed.

Lemma nolf_firstn (n : nat) (s : str) : nolf s -> nolf (firstn n s).
Proof.
  intros H. rewrite <- (firstn_skipn n s) in H. apply nolf_app_inv in H.
  apply H.
Qed.

Lemma replace_all_from_nolf (r : re) (rep : str) :
  nolf rep ->
  forall (fuel : nat) (s : str), nolf s -> nolf (replace_all_from r rep fuel s).
Proof.
  intros Hr fuel. induction fuel as [|fuel IH]; intros s Hs; [exact Hs|].
  simpl. destruct (search_from r 0 s) as [m|]; [|exact Hs].
  destruct (m_index m <? m_end m)%nat.
  - apply nolf_app; [apply nolf_firstn, Hs|].
    apply nolf_app; [exact Hr | apply IH, nolf_skipn, Hs].
  - pose proof (nolf_skipn (m_index m) Hs) as Hk.
    destruct (skipn (m_index m) s) as [|x s'].
    + apply nolf_app; [apply nolf_firstn, Hs | exact Hr].
    + inversion Hk; subst.
      apply nolf_app; [apply nolf_firstn, Hs|].
      apply nolf_app; [exact Hr|]. constructor; [assumption | apply IH; assumption].
Qed.

Lemma normalize_nolf (trimmed : str) : nolf trimmed -> nolf (normalize trimmed).
Proof.
  intros H. unfold normalize.
  repeat match goal with
         | |- context [if ?b then _ else _] => destruct b
         end;
    repeat first
      [ exact H
      | apply replace_all_from_nolf; [nolf_literal|]
      | apply replace_nolf;
        [|intros m mid post M Hm; first
            [ nolf_literal
            | destruct m as [mi me cf];
              cbn [m_caps body anywhere at_start Formatter.BLOCK_OPENERS] in M;
              unfold Plus, ws, chr, kw, seqs, alts in M;
              cbn [fold_right map list_ascii_of_string] in M;
              split_match; unfold group_or_empty;
              cbn [m_caps set_cap Nat.eqb];
              (apply nolf_app; [|nolf_literal]);
              apply nolf_app_inv in Hm; apply Hm ]] ].
Qed.

(** *** The blank lines of the result *)

Lemma blank_chain_snoc (l : list str) :
  forall (p x : str),
    blank_chain p l -> (last l p = [] -> x <> []) -> blank_chain p (l ++ [x]).
Proof.
  induction l as [|y l IH]; intros p x Hc Hx; simpl.
  - split; [exact Hx | exact I].
  - destruct Hc as [Hy Hc]. split; [exact Hy|]. apply IH; [exact Hc|].
    rewrite last_cons in Hx. exact Hx.
Qed.

Lemma blank_chain_app (a b : list str) :
  forall p, blank_chain p (a ++ b) -> blank_chain p a.
Proof.
  induction a as [|y a IH]; intros p H; simpl; [exact I|].
  destruct H as [Hy H]. split; [exact Hy | apply IH, H].
Qed.

(** A line is pushed; [blank] tells that it is the empty line of a run of
    blank lines. *)
Lemma push_collapse_inv (st : State) (x : str) (d : Z) (blank : bool) :
  collapse_inv st -> nolf x ->
  (if blank then x = [] /\ prevWasBlank st = false /\ result st <> []
   else x <> []) ->
  collapse_inv (mkState (result st ++ [x]) d blank false).
Proof.
  intros (Hb & Hl & Hr) Hx Hc. split; [reflexivity|].
  split; [apply Forall_app; split; [exact Hl | repeat constructor; exact Hx]|].
  cbn [result prevWasBlank]. destruct (result st) as [|hd tl] eqn:E.
  - destruct blank; [destruct Hc as (_ & _ & Hn); contradiction|].
    cbn [app last]. repeat split; [exact Hc | contradiction].
  - destruct Hr as (Hh & Hch & Hp). cbn [app]. split; [exact Hh|].
    rewrite last_last. split.
    + apply blank_chain_snoc; [exact Hch|]. intros El.
      destruct blank; [|exact Hc].
      destruct Hc as (_ & Hf & _). rewrite (Hp El) in Hf. discriminate.
    + intros Ex. destruct blank; [reflexivity | contradiction].
Qed.

Lemma indent_nolf (d : Z) (ind : str) : indent d = Ok ind -> nolf ind.
Proof.
  unfold indent, js_repeat. destruct (d <? 0)%Z; [discriminate|].
  intros H. injection H as <-.
  induction (Z.to_nat d) as [|n IH]; [constructor|].
  cbn [repeat concat]. apply nolf_app; [nolf_literal | exact IH].
Qed.

Lemma trim_squeeze_nonempty (s : str) :
  is_empty (trim s) = false -> squeeze (trim s) <> [].
Proof.
  intros H. destruct (trim_shape s) as [E|(x & r & _ & _ & E & _ & Hx & _)].
  - rewrite E in H. discriminate.
  - rewrite E. unfold squeeze. simpl. rewrite Hx. discriminate.
Qed.

Lemma format_line_collapse (line : str) (rest : list str) (st : State)
    (step : State * nat) :
  collapse_inv st -> nolf line ->
  startsWith (lit "/*") (trim line) = false ->
  format_line line rest st = Ok step ->
  collapse_inv (fst step).
Proof.
  intros Hv Hl Hc. pose proof Hv as (Hb & Hres & Hr).
  unfold format_line. rewrite Hb, trim_trimEnd, Hc.
  assert (Ht : nolf (trim line)) by apply nolf_trim, Hl.
  assert (Hpush : forall d t d' n (s : State * nat),
            nolf t -> squeeze t <> [] ->
            (ind <- indent d ;;
             Ok (mkState (result st ++ [ind ++ t]) d' false false, n)) = Ok s ->
            collapse_inv (fst s)).
  { intros d t d' n s Nt St H. destruct (indent d) as [ind|] eqn:Ei;
      cbn [bind] in H; [|discriminate].
    injection H as <-. cbn [fst].
    apply push_collapse_inv;
      [exact Hv | apply nolf_app; [eapply indent_nolf, Ei | exact Nt]|].
    intros E. apply app_eq_nil in E. destruct E as [_ ->]. apply St.
    reflexivity. }
  destruct (is_empty (trim line)) eqn:E.
  { intros H. injection H as <-. cbn [fst].
    destruct (negb (prevWasBlank st) && (0 <? length (result st))%nat) eqn:C.
    - apply andb_prop in C. destruct C as [C1 C2].
      apply negb_true_iff in C1. apply Nat.ltb_lt in C2.
      apply (@push_collapse_inv st [] (depth st) true Hv); [constructor|].
      repeat split; [exact C1|]. intros E0. rewrite E0 in C2. simpl in C2. lia.
    - split; [reflexivity|]. split; [exact Hres|]. cbn [result prevWasBlank].
      destruct (result st) as [|hd tl]; [exact I|].
      destruct Hr as (Hh & Hch & _). repeat split; assumption. }
  pose proof (trim_squeeze_nonempty line E) as Sq.
  destruct (_ || _); [apply Hpush; assumption|].
  match goal with
  | |- context [match ?o with Some _ => _ | None => _ end] => destruct o
  end.
  - apply Hpush; [apply nolf_app; [exact Ht | nolf_literal]|].
    unfold squeeze in *. rewrite filter_app. intros E0.
    apply app_eq_nil in E0. destruct E0 as [E0 _]. contradiction.
  - apply Hpush; [apply normalize_nolf, Ht|].
    rewrite normalize_squeeze. exact Sq.
Qed.

Lemma format_lines_collapse (lines : list str) :
  forall (skip : nat) (st st' : State),
    collapse_inv st -> Forall nolf lines ->
    no_block_comment lines = true ->
    format_lines lines skip st = Ok st' -> collapse_inv st'.
Proof.
  induction lines as [|line rest IH]; intros skip st st' Hv Hl Hc H.
  - simpl in H. injection H as <-. exact Hv.
  - inversion Hl as [|? ? Hl1 Hl2]; subst.
    unfold no_block_comment in Hc. cbn [forallb] in Hc.
    apply andb_prop in Hc. destruct Hc as [Hc1 Hc2].
    apply negb_true_iff in Hc1.
    cbn [format_lines] in H.
    destruct skip as [|skip]; [|eapply IH; eassumption].
    destruct (format_line line rest st) as [step|] eqn:E; cbn [bind] in H;
      [|discriminate].
    eapply IH; [|exact Hl2|exact Hc2|exact H].
    eapply format_line_collapse; eassumption.
Qed.

Lemma pop_blank_prefix (l : list str) :
  exists k, l = Formatter.pop_blank l ++ repeat [] k.
Proof.
  unfold Formatter.pop_blank.
  destruct (drop_blank_spec (rev l)) as (k & E & _). exists k.
  apply (f_equal (@rev str)) in E. rewrite rev_involutive, rev_app_distr in E.
  rewrite E at 1. f_equal. clear.
  induction k as [|k IH]; [reflexivity|]. simpl. rewrite IH.
  clear. induction k as [|k IH]; [reflexivity|]. simpl. rewrite <- IH.
  reflexivity.
Qed.

Lemma format_v1_lines (content out : str) :
  no_block_comment (split_lf content) = true ->
  format content = Ok out ->
  no_two_blank (split_lf out)
  /\ forall hd tl, split_lf out = hd :: tl -> tl <> [] -> hd <> [].
Proof.
  intros Hc. unfold format.
  destruct (format_lines (split_lf content) 0 init) as [st|] eqn:E;
    cbn [bind]; [|discriminate].
  intros H. injection H as <-.
  assert (Hv : collapse_inv st).
  { eapply format_lines_collapse; [|apply nolf_split_lf|exact Hc|exact E].
    split; [reflexivity|]. split; [constructor | exact I]. }
  destruct Hv as (_ & Hl & Hr).
  destruct (pop_blank_spec (result st)) as (P1 & _ & P3).
  destruct (pop_blank_prefix (result st)) as (k & Ek).
  rewrite split_join_lf.
  - destruct P3 as [P|(a & x & P & Hx)].
    + rewrite P. split; [exact I|]. intros hd tl H. injection H as <- <-.
      contradiction.
    + rewrite P in Ek. rewrite P.
      destruct (result st) as [|hd tl] eqn:Er;
        [destruct a; discriminate|].
      destruct Hr as (Hh & Hch & _).
      destruct a as [|y a].
      * cbn [app] in *. injection Ek as <- Ek.
        split; [cbn; split; [intros E0; contradiction | exact I]|].
        intros hd' tl' H _. injection H as <- _. exact Hx.
      * cbn [app] in *. injection Ek as <- Ek. rewrite Ek in Hch.
        apply blank_chain_app in Hch.
        split.
        -- cbn [no_two_blank]. apply blank_chain_snoc; [exact Hch|].
           rewrite last_last. intros E0. contradiction.
        -- intros hd' tl' H _. injection H as <- _. exact Hh.
  - destruct (Formatter.pop_blank (result st)); discriminate.
  - apply Forall_app. split; [|repeat constructor].
    rewrite Forall_forall in *. intros x Hx. apply Hl, P1, Hx.
Qed.

End CollapseFacts.

(* ================================================================== *)
(** ** The lines of the formatted text *)
(* ================================================================== *)

Module LineFacts.
Import Formatter FormatterSpec FormatterFacts TrimFacts BlankFacts DepthFacts
       WhitespaceFacts CollapseFacts.

Lemma classify_nolf (trimmed : str) :
  nolf trimmed -> nolf (fst (classify trimmed)).
Proof.
  intros H. unfold classify.
  repeat match goal with
         | |- context [if ?b then _ else _] => destruct b
         end; cbn [fst];
    repeat first
      [ exact H
      | apply replace_all_from_nolf; [nolf_literal|]
      | apply replace_nolf;
        [|intros m mid post M Hm; first
            [ nolf_literal
            | destruct m as [mi me cf];
              cbn [m_caps body anywhere at_start BLOCK_OPENERS] in M;
              unfold Plus, ws, chr, kw, seqs, alts in M;
              cbn [fold_right map list_ascii_of_string] in M;
              split_match; unfold group_or_empty;
              cbn [m_caps set_cap Nat.eqb];
              (apply nolf_app; [|nolf_literal]);
              apply nolf_app_inv in Hm; apply Hm ]] ].
Qed.

Lemma presplit_line_nolf (raw : str) (ls : list str) :
  nolf raw -> presplit_line raw = Ok ls -> Forall nolf ls.
Proof.
  intros Hr. unfold presplit_line.
  destruct (exec SPLIT_RE (trim raw)) as [m|] eqn:E;
    [|intros H; injection H as <-; repeat constructor; exact Hr].
  destruct (negb _);
    [|intros H; injection H as <-; repeat constructor; exact Hr].
  apply exec_anchored_sound in E. destruct E as (s1 & s2 & Et & M).
  destruct m as [mi me cf]. unfold group. cbn [m_caps] in *.
  unfold Plus, ws, chr, dot, seqs in M. cbn [fold_right] in M.
  split_match. cbn [set_cap Nat.eqb bind].
  intros H. injection H as <-.
  pose proof (nolf_trim Hr) as Ht. rewrite Et in Ht.
  apply nolf_app_inv in Ht. destruct Ht as [Ht _].
  apply nolf_app_inv in Ht. destruct Ht as [Ga Gb].
  apply nolf_app_inv in Gb. destruct Gb as [Gb _].
  repeat constructor; apply nolf_trim; assumption.
Qed.

Lemma presplit_nolf (raws : list str) :
  forall ls, Forall nolf raws -> presplit raws = Ok ls -> Forall nolf ls.
Proof.
  induction raws as [|raw rest IH]; intros ls Hr H; simpl in H.
  - injection H as <-. constructor.
  - inversion Hr; subst.
    destruct (presplit_line raw) as [here|] eqn:Eh; cbn [bind] in H;
      [|discriminate].
    destruct (presplit rest) as [more|]; cbn [bind] in H; [|discriminate].
    injection H as <-. apply Forall_app. split.
    + eapply presplit_line_nolf; eassumption.
    + apply IH; [assumption | reflexivity].
Qed.

Lemma first_pass_line_plain (line : str) (rest : list str) (st : State) :
  plain_inv st -> nolf line ->
  startsWith (lit "/*") (trim line) = false ->
  plain_inv (fst (first_pass_line line rest st)).
Proof.
  intros [Hb Hf] Hl Hc. unfold first_pass_line.
  rewrite Hb, trim_trimEnd, Hc.
  assert (Ht : nolf (trim line)) by apply nolf_trim, Hl.
  assert (Hpush : forall t d ty d' b,
            nolf t -> squeeze t <> [] ->
            plain_inv (mkState (formatted st ++ [mkLine t d ty]) d' false)
            \/ b = true).
  { intros t d ty d' b Nt St. left. split; [reflexivity|].
    apply Forall_app. split; [exact Hf|].
    repeat constructor; assumption. }
  destruct (is_empty (trim line)) eqn:E; [split; assumption|].
  pose proof (@trim_squeeze_nonempty line E) as Sq.
  destruct (_ || _).
  { cbn [fst].
    destruct (Hpush (trim line) (Z.max 0 (cur_depth st - 1)) close
                (Z.max 0 (cur_depth st - 1)) false Ht Sq) as [H|H];
      [exact H | discriminate]. }
  pose proof (classify_nolf Ht) as Nc.
  pose proof (classify_squeeze (trim line)) as Sc.
  destruct (classify (trim line)) as [text0 type0]. cbn [fst] in Nc, Sc.
  assert (Sq0 : squeeze text0 <> []) by (rewrite Sc; exact Sq).
  assert (Sq1 : squeeze (text0 ++ lit " {") <> []).
  { rewrite squeeze_app. intros E0. apply app_eq_nil in E0.
    destruct E0 as [E0 _]. contradiction. }
  destruct (test BLOCK_OPENERS text0 && negb (includes (lit "{") text0));
    [destruct (brace_ahead rest)|]; cbn [fst];
    match goal with
    | |- plain_inv (mkState (_ ++ [mkLine ?t ?d ?ty]) ?d' _) =>
        destruct (Hpush t d ty d' false) as [H|H];
        [| |exact H | discriminate]
    end; try assumption.
  apply nolf_app; [exact Nc | nolf_literal].
Qed.

Lemma first_pass_plain (lines : list str) :
  forall (skip : nat) (st : State),
    plain_inv st -> Forall nolf lines -> no_block_comment lines = true ->
    plain_inv (first_pass lines skip st).
Proof.
  induction lines as [|line rest IH]; intros skip st Hv Hl Hc; [exact Hv|].
  inversion Hl as [|? ? Hl1 Hl2]; subst.
  unfold no_block_comment in Hc. cbn [forallb] in Hc.
  apply andb_prop in Hc. destruct Hc as [Hc1 Hc2].
  apply negb_true_iff in Hc1. cbn [first_pass].
  destruct skip as [|skip]; [|apply IH; assumption].
  pose proof (@first_pass_line_plain line rest st Hv Hl1 Hc1) as H.
  destruct (first_pass_line line rest st) as [st' skip'].
  apply IH; assumption.
Qed.

(** The second loop on such lines: no line of the result holds a line
    feed, no two blank lines follow one another, and the last line is not
    blank. *)
Lemma second_pass_plain (lines : list Line) :
  Forall plain_line lines ->
  forall (prev : option Line) (result : list str),
    second_pass prev lines = Ok result ->
    Forall nolf result
    /\ (forall p, p <> [] -> blank_chain p result)
    /\ (forall d, d <> [] -> last result d <> [])
    /\ (prev = None ->
        match result with
        | [] => True
        | hd :: _ => hd <> []
        end).
Proof.
  induction 1 as [|curr rest [Nc Sc] Hr IH]; intros prev result H;
    simpl in H.
  - injection H as <-. repeat split; auto; constructor.
  - destruct (indent (depth curr)) as [ind|] eqn:Ei; cbn [bind] in H;
      [|discriminate].
    destruct (second_pass (Some curr) rest) as [more|] eqn:Em;
      cbn [bind] in H; [|discriminate].
    injection H as <-.
    destruct (IH _ _ Em) as (Nm & Cm & Lm & _).
    assert (Nx : nolf (ind ++ text curr)).
    { apply nolf_app; [apply (indent_nolf _ Ei) | exact Nc]. }
    assert (Hx : ind ++ text curr <> []).
    { intros E0. apply app_eq_nil in E0. destruct E0 as [_ E0].
      rewrite E0 in Sc. apply Sc. reflexivity. }
    assert (Hlast : forall d, last ((ind ++ text curr) :: more) d <> []).
    { intros d. rewrite last_cons. apply Lm, Hx. }
    split; [|split; [|split]].
    + apply Forall_app. split.
      * destruct prev as [p|]; [destruct (shouldInsertBlankLine p curr)|];
          repeat constructor.
      * constructor; assumption.
    + intros p Hp.
      destruct prev as [q|]; [destruct (shouldInsertBlankLine q curr)|];
        cbn [app blank_chain]; repeat split; auto; intros; auto.
    + intros d Hd.
      destruct prev as [q|]; [destruct (shouldInsertBlankLine q curr)|];
        cbn [app]; first [apply Hlast | rewrite last_cons; apply Hlast].
    + intros ->. cbn [app]. exact Hx.
Qed.

Lemma pop_blank_fixed (l : list str) :
  (forall d, d <> [] -> last l d <> []) -> pop_blank l = l.
Proof.
  intros H. destruct (pop_blank_prefix l) as (k & E).
  destruct k as [|k]; [simpl in E; rewrite app_nil_r in E; auto|].
  exfalso. apply (H (lit "x")); [discriminate|]. rewrite E.
  replace (repeat (@nil N) (S k)) with (repeat (@nil N) k ++ [[]]).
  - rewrite app_assoc. apply last_last.
  - clear. induction k as [|k IH]; [reflexivity|]. simpl. rewrite IH.
    reflexivity.
Qed.

Lemma format_lines_plain (content out : str) :
  no_block_comment (split_lf content) = true ->
  format content = Ok out ->
  no_two_blank (split_lf out)
  /\ forall hd tl, split_lf out = hd :: tl -> tl <> [] -> hd <> [].
Proof.
  intros Hc. unfold format, lines_of.
  destruct (presplit (split_lf content)) as [pl|] eqn:Ep; cbn [bind];
    [|discriminate].
  destruct (second_pass None _) as [result|] eqn:Es; cbn [bind];
    [|discriminate].
  intros H. injection H as <-.
  assert (Hv : plain_inv (first_pass pl 0 init)).
  { apply first_pass_plain.
    - split; [reflexivity | constructor].
    - eapply presplit_nolf; [apply nolf_split_lf | exact Ep].
    - eapply presplit_comment; eassumption. }
  destruct Hv as [_ Hf].
  destruct (second_pass_plain Hf _ Es) as (Nr & Cr & Lr & Hh).
  specialize (Hh eq_refl). rewrite (@pop_blank_fixed result Lr).
  rewrite split_join_lf.
  - destruct result as [|hd tl].
    + split; [exact I|]. intros hd tl H. injection H as <- <-. contradiction.
    + split.
      * cbn [app no_two_blank]. apply blank_chain_snoc.
        -- specialize (Cr hd Hh). destruct Cr as [_ Cr]. exact Cr.
        -- intros E0. exfalso. apply (Lr hd Hh). rewrite last_cons.
           exact E0.
      * intros hd' tl' H _. injection H as <- _. exact Hh.
  - destruct result; discriminate.
  - apply Forall_app. split; [exact Nr | repeat constructor].
Qed.

End LineFacts.

(* ================================================================== *)
(** ** The account of the braces *)
(* ================================================================== *)

Module BraceFacts.
Import Validator ValidatorSpec ValidatorFacts ReportFacts ValidatorShape
       PositionFacts ScanSpec ScanFacts BraceSpec.

Lemma count_if_app (f : Issue -> bool) (a b : list Issue) :
  count_if f (a ++ b) = (count_if f a + count_if f b)%nat.
Proof. unfold count_if. rewrite filter_app, length_app. reflexivity. Qed.

Lemma count_if_one (f : Issue -> bool) (i : Issue) :
  count_if f [i] = if f i then 1%nat else 0%nat.
Proof. unfold count_if. cbn [filter]. destruct (f i); reflexivity. Qed.

Lemma quiet_count (l : list Issue) :
  quiet l ->
  count_if is_unexpected_close l = 0%nat /\ count_if is_unclosed l = 0%nat.
Proof.
  unfold count_if. induction 1 as [|i l [H1 H2] _ [IH1 IH2]];
    [split; reflexivity|].
  simpl. rewrite H1, H2. split; assumption.
Qed.

Lemma quiet_app (a b : list Issue) : quiet a -> quiet b -> quiet (a ++ b).
Proof. intros Ha Hb. apply Forall_app. split; assumption. Qed.

Ltac quiet_cases :=
  repeat match goal with
         | |- context [if ?b then _ else _] => destruct b
         end;
  repeat constructor.

Lemma field_issues_quiet (n : Z) (ctx code : str) :
  quiet (Syntax.field_issues n ctx code).
Proof. unfold Syntax.field_issues. quiet_cases. Qed.

Lemma enum_issues_quiet (n : Z) (ctx code : str) :
  quiet (Syntax.enum_issues n ctx code).
Proof. unfold Syntax.enum_issues. quiet_cases. Qed.

Lemma rpc_issues_quiet (n : Z) (ctx code : str) :
  quiet (Syntax.rpc_issues n ctx code).
Proof. unfold Syntax.rpc_issues. quiet_cases. Qed.

Lemma junk_issues_quiet (n : Z) (code : str) :
  quiet (Syntax.junk_issues n code).
Proof. unfold Syntax.junk_issues. quiet_cases. Qed.

Lemma unrecognized_issues_quiet (n : Z) (ctx code : str) (b : bool) :
  quiet (Syntax.unrecognized_issues n ctx code b).
Proof. unfold Syntax.unrecognized_issues. quiet_cases. Qed.

Lemma semicolon_issues_quiet (n : Z) (code : str) :
  quiet (Syntax.semicolon_issues n code).
Proof. unfold Syntax.semicolon_issues. quiet_cases. Qed.

Lemma syntax_value_issues_quiet (n : Z) (code : str) (l : list Issue) :
  Syntax.syntax_value_issues n code = Ok l -> quiet l.
Proof.
  unfold Syntax.syntax_value_issues.
  destruct (exec Syntax.SYNTAX_RE code) as [m|];
    [|intros H; injection H as <-; constructor].
  destruct (group m 1) as [v|]; cbn [bind]; [|discriminate].
  destruct (_ && _); intros H; injection H as <-; repeat constructor.
Qed.

Lemma named_quiet (n : Z) (ty : str) :
  In ty [lit "message"; lit "enum"; lit "service"; lit "oneof"] ->
  quiet [Syntax.syntax_error n 1 (ty ++ lit " declaration is missing a name.")].
Proof.
  intros H. simpl in H.
  destruct H as [<-|[<-|[<-|[<-|[]]]]]; repeat constructor.
Qed.

Lemma unexpected_counts (n : Z) :
  is_unexpected_close
    (Syntax.syntax_error n 1
       (lit "Unexpected closing brace " ++ quoted (lit "}") ++ lit "."))
  = true
  /\ is_unclosed
       (Syntax.syntax_error n 1
          (lit "Unexpected closing brace " ++ quoted (lit "}") ++ lit "."))
     = false.
Proof. split; reflexivity. Qed.

Lemma unclosed_counts (stack : list Syntax.Context) :
  count_if is_unclosed (map Syntax.unclosed_issue stack) = length stack
  /\ count_if is_unexpected_close (map Syntax.unclosed_issue stack) = 0%nat.
Proof.
  unfold count_if. induction stack as [|c r [IH1 IH2]];
    [split; reflexivity|].
  cbn [map filter].
  change (is_unclosed (Syntax.unclosed_issue c)) with true.
  change (is_unexpected_close (Syntax.unclosed_issue c)) with false.
  cbn [length]. rewrite IH1. split; [reflexivity | exact IH2].
Qed.

(** *** The counts of the two loops over the braces of a line *)

Lemma includes_count (c : N) (s : str) :
  includes [c] s = true -> (1 <= count_char c s)%nat.
Proof.
  unfold count_char. induction s as [|x s IH]; [discriminate|].
  cbn [includes startsWith filter].
  destruct (c =? x)%N; cbn [length]; [lia|].
  cbn [andb orb]. exact IH.
Qed.

Lemma push_fold_length (n : Z) (hb : bool) (js : list nat) :
  forall stack,
    length (fold_left (fun stk j =>
                         if negb hb || (0 <? j)%nat
                         then stk ++ [Syntax.mkContext (lit "block") [] n]
                         else stk) js stack)
    = (length stack
       + length (filter (fun j => negb hb || (0 <? j)%nat) js))%nat.
Proof.
  induction js as [|j js IH]; intros stack; cbn [fold_left filter];
    [cbn [length]; lia|].
  rewrite IH. destruct (negb hb || (0 <? j)%nat); cbn [length];
    [rewrite length_app; cbn [length]; lia | reflexivity].
Qed.

Lemma filter_all_length (A : Type) (f : A -> bool) (l : list A) :
  Forall (fun x => f x = true) l -> length (filter f l) = length l.
Proof.
  induction 1 as [|x l Hx _ IH]; [reflexivity|].
  cbn [filter]. rewrite Hx. cbn [length]. rewrite IH. reflexivity.
Qed.

Lemma push_open_length (n : Z) (hb : bool) (k : nat)
    (stack : list Syntax.Context) :
  length (Syntax.push_open n hb k stack)
  = (length stack + (if hb then pred k else k))%nat.
Proof.
  unfold Syntax.push_open. rewrite push_fold_length. f_equal.
  destruct hb; cbn [negb orb].
  - destruct k as [|k]; [reflexivity|].
    cbn [seq filter Nat.ltb Nat.leb pred].
    rewrite filter_all_length; [apply length_seq|].
    apply Forall_forall. intros j Hj. apply in_seq in Hj.
    destruct j; [lia | reflexivity].
  - rewrite filter_all_length; [apply length_seq|].
    apply Forall_forall. intros j _. reflexivity.
Qed.

Lemma pop_close_account (n : Z) (k : nat) :
  forall (iss : list Issue) (stack : list Syntax.Context),
    (length (snd (Syntax.pop_close n k (iss, stack))) + k
     + count_if is_unexpected_close iss
     = length stack
       + count_if is_unexpected_close
           (fst (Syntax.pop_close n k (iss, stack))))%nat
    /\ count_if is_unclosed (fst (Syntax.pop_close n k (iss, stack)))
       = count_if is_unclosed iss.
Proof.
  induction k as [|k IH]; intros iss stack; cbn [Syntax.pop_close];
    [cbn [fst snd]; split; [lia | reflexivity]|].
  destruct stack as [|c stack].
  - destruct (IH (iss ++ [Syntax.syntax_error n 1
                            (lit "Unexpected closing brace "
                             ++ quoted (lit "}") ++ lit ".")]) [])
      as [H1 H2].
    rewrite count_if_app, count_if_one in H1, H2.
    destruct (unexpected_counts n) as [U1 U2].
    rewrite U1 in H1. rewrite U2 in H2. cbn [length] in H1 |- *. split; lia.
  - destruct (IH iss (removelast (c :: stack))) as [H1 H2].
    split; [|exact H2].
    assert (Hl : (length (removelast (c :: stack)) = length stack)%nat).
    { rewrite (@removelast_firstn_len _ (c :: stack)), length_firstn.
      cbn [length]. lia. }
    rewrite Hl in H1. cbn [length]. lia.
Qed.

(** *** The invariant of the scan *)

Lemma brace_inv_step (o c : nat) (n : Z) (raw : str)
    (st st' : Syntax.State) :
  brace_inv o c st ->
  opener_has_brace raw = true ->
  passed_over raw = false ->
  Syntax.scan_line n raw st = Ok st' ->
  brace_inv (o + count_char 123 (code_of raw))
            (c + count_char 125 (code_of raw)) st'.
Proof.
  intros (He & Hu & Hc) Ho Hp. unfold opener_has_brace in Ho.
  rewrite Hp in Ho. cbn [orb] in Ho. revert Ho Hp.
  unfold passed_over, header, Syntax.scan_line. fold (code_of raw).
  intros Ho Hp.
  destruct (is_empty (trim raw) || startsWith (lit "//") (trim raw)
            || startsWith (lit "/*") (trim raw)
            || startsWith (lit "*") (trim raw)); [discriminate|].
  cbn [orb] in Hp. rewrite Hp.
  set (code := code_of raw) in *.
  set (ctx := Syntax.currentContext_of (Syntax.braceStack st)).
  pose proof (quiet_count (field_issues_quiet n ctx code)) as [F1 F2].
  pose proof (quiet_count (enum_issues_quiet n ctx code)) as [E1 E2].
  pose proof (quiet_count (rpc_issues_quiet n ctx code)) as [R1 R2].
  pose proof (quiet_count (junk_issues_quiet n code)) as [J1 J2].
  pose proof (quiet_count (semicolon_issues_quiet n code)) as [S1 S2].
  unfold Syntax.detect_block. cbn [Syntax.expectingBody Syntax.issues
    Syntax.braceStack Syntax.expectingType Syntax.expectingName
    Syntax.expectingLine].
  destruct (exec Syntax.BLOCK_RE code) as [bm|] eqn:B.
  - destruct (group bm 1) as [ty|] eqn:G; cbn [bind]; [|discriminate].
    rewrite Ho. cbn [bind Syntax.expectingBody Syntax.issues
      Syntax.braceStack Syntax.expectingType Syntax.expectingName
      Syntax.expectingLine].
    assert (Hn : count_if is_unexpected_close
                   (if is_empty (group_or_empty bm 2)
                    then [Syntax.syntax_error n 1
                            (ty ++ lit " declaration is missing a name.")]
                    else []) = 0%nat
                 /\ count_if is_unclosed
                      (if is_empty (group_or_empty bm 2)
                       then [Syntax.syntax_error n 1
                               (ty ++ lit " declaration is missing a name.")]
                       else []) = 0%nat).
    { destruct (is_empty (group_or_empty bm 2));
        [|split; reflexivity].
      apply quiet_count, named_quiet. eapply block_kinds; eassumption. }
    destruct Hn as [N1 N2].
    match goal with
    | |- context [Syntax.pop_close ?a ?k (?i, ?s)] =>
        destruct (pop_close_account a k i s) as [P1 P2];
        destruct (Syntax.pop_close a k (i, s)) as [iss3 stack3]
    end.
    cbn [fst snd] in P1, P2.
    destruct (Syntax.syntax_value_issues n code) as [syn|] eqn:V;
      cbn [bind]; [|discriminate].
    pose proof (quiet_count (syntax_value_issues_quiet n code V)) as [V1 V2].
    intros H. injection H as <-.
    pose proof (quiet_count
                  (unrecognized_issues_quiet n ctx code
                     (Syntax.expectingBody st))) as [X1 X2].
    unfold brace_inv. cbn [Syntax.expectingBody Syntax.issues
      Syntax.braceStack].
    rewrite !count_if_app in *.
    rewrite push_open_length, length_app in P1. cbn [length] in P1.
    pose proof (includes_count 123 code Ho) as Hk.
    split; [exact He|]. split; lia.
  - rewrite He. cbn [bind Syntax.expectingBody Syntax.issues
      Syntax.braceStack Syntax.expectingType Syntax.expectingName
      Syntax.expectingLine].
    match goal with
    | |- context [Syntax.pop_close ?a ?k (?i, ?s)] =>
        destruct (pop_close_account a k i s) as [P1 P2];
        destruct (Syntax.pop_close a k (i, s)) as [iss3 stack3]
    end.
    cbn [fst snd] in P1, P2.
    destruct (Syntax.syntax_value_issues n code) as [syn|] eqn:V;
      cbn [bind]; [|discriminate].
    pose proof (quiet_count (syntax_value_issues_quiet n code V)) as [V1 V2].
    intros H. injection H as <-.
    pose proof (quiet_count
                  (unrecognized_issues_quiet n ctx code false)) as [X1 X2].
    unfold brace_inv. cbn [Syntax.expectingBody Syntax.issues
      Syntax.braceStack].
    rewrite !count_if_app in *.
    rewrite push_open_length in P1.
    split; [reflexivity|]. split; lia.
Qed.

Lemma scanned_cons (raw : str) (rest : list str) :
  scanned (raw :: rest)
  = if passed_over raw then scanned rest else code_of raw :: scanned rest.
Proof. unfold scanned. cbn [filter]. destruct (passed_over raw); reflexivity. Qed.

Lemma braces_cons (c : N) (code : str) (codes : list str) :
  braces c (code :: codes) = (count_char c code + braces c codes)%nat.
Proof. reflexivity. Qed.

Lemma brace_inv_lines (lines : list str) :
  forall (o c : nat) (n : Z) (st st' : Syntax.State),
    brace_inv o c st ->
    forallb opener_has_brace lines = true ->
    Syntax.scan n lines st = Ok st' ->
    brace_inv (o + braces 123 (scanned lines))
              (c + braces 125 (scanned lines)) st'.
Proof.
  induction lines as [|raw rest IH]; intros o c n st st' Hv Ho H.
  - injection H as <-. change (scanned []) with (@nil str).
    change (braces 123 []) with 0%nat. change (braces 125 []) with 0%nat.
    rewrite !Nat.add_0_r. exact Hv.
  - cbn [forallb] in Ho. apply andb_prop in Ho. destruct Ho as [Ho1 Ho2].
    cbn [Syntax.scan] in H.
    destruct (Syntax.scan_line n raw st) as [st1|] eqn:E; cbn [bind] in H;
      [|discriminate].
    rewrite scanned_cons. destruct (passed_over raw) eqn:Hp.
    + rewrite (@scan_line_passed_over n raw st Hp) in E. injection E as <-.
      eapply IH; eassumption.
    + rewrite !braces_cons, !Nat.add_assoc.
      eapply IH; [|exact Ho2 | exact H].
      eapply brace_inv_step; eassumption.
Qed.

Lemma brace_inv_init : brace_inv 0 0 Syntax.init.
Proof. repeat split. Qed.

(** The account of [validateSyntax]. *)
Lemma validateSyntax_braces (lines : list str) :
  forallb opener_has_brace lines = true ->
  exists l,
    Syntax.validateSyntax lines = Ok l
    /\ (braces 123 (scanned lines) + count_if is_unexpected_close l
        = braces 125 (scanned lines) + count_if is_unclosed l)%nat.
Proof.
  intros Ho. unfold Syntax.validateSyntax.
  destruct (scan_ok lines 1 Syntax.init) as (st & H & _).
  rewrite H. cbn [bind]. eexists. split; [reflexivity|].
  destruct (@brace_inv_lines lines 0 0 1%Z Syntax.init st brace_inv_init Ho H)
    as (_ & Hu & Hc).
  destruct (unclosed_counts (Syntax.braceStack st)) as [U1 U2].
  rewrite !count_if_app, U1, U2, Hu. cbn [Nat.add] in Hc. lia.
Qed.

(** *** The report keeps the counts *)

Lemma only_quiet (rs : list string) (l : list Issue) :
  only rs l -> ~ In "syntax-error"%string rs -> quiet l.
Proof.
  intros Ho Hn. eapply Forall_impl; [|exact Ho].
  intros i Hi. cbv beta in Hi.
  unfold is_unexpected_close, is_unclosed, rule_is.
  destruct (String.eqb (rule i) "syntax-error") eqn:E;
    [|split; reflexivity].
  apply String.eqb_eq in E. rewrite E in Hi. contradiction.
Qed.

Lemma trailing_newline_issues_quiet (content : str) (lines : list str) :
  quiet (trailing_newline_issues content lines).
Proof. unfold trailing_newline_issues. quiet_cases. Qed.

Lemma structure_issues_quiet (st : State) : quiet (structure_issues st).
Proof.
  unfold structure_issues. repeat apply quiet_app; quiet_cases.
Qed.

Lemma import_issues_quiet (imports : list ImportLine) :
  forall seen, quiet (import_issues seen imports).
Proof.
  induction imports as [|imp rest IH]; intros seen; cbn [import_issues];
    [constructor|].
  apply quiet_app; [|apply IH].
  destruct (isPublic imp && _); repeat constructor.
Qed.

Lemma filter_filter_length (f g : Issue -> bool) (l : list Issue) :
  length (filter f (filter g l))
  = length (filter (fun i => g i && f i) l).
Proof.
  induction l as [|a l IH]; [reflexivity|].
  cbn [filter]. destruct (g a); cbn [andb filter];
    [destruct (f a); cbn [length]; rewrite IH; reflexivity | exact IH].
Qed.

(** A count of syntax errors is the same in the errors of the report. *)
Lemma count_if_report (f : Issue -> bool) (all : list Issue) :
  Forall (fun i => f i = true -> severity i = SevError) all ->
  count_if f (errors (report all)) = count_if f all.
Proof.
  intros H. unfold report, count_if. cbn [errors].
  rewrite filter_filter_length.
  rewrite (filter_perm_length _ (sort_perm all)).
  f_equal. apply filter_ext_in. intros i Hi.
  rewrite Forall_forall in H. specialize (H i Hi).
  destruct (f i); [|apply andb_false_r].
  unfold has_severity. rewrite (H eq_refl). reflexivity.
Qed.

End BraceFacts.

(* ================================================================== *)
(** ** Further properties of the validator *)
(* ================================================================== *)

Module ValidatorCoverage.
Import Validator ValidatorSpec ValidatorFacts ReportFacts ValidatorShape
       ShapeFacts PositionFacts StructureSpec StructureFacts CommentFacts
       NameSpec NameFacts NameRuleFacts ScanSpec ScanFacts BraceSpec
       BraceFacts.

(** X1 ([validate], [issue]).  Every rule has one severity: an issue of the
    report has the severity that the table [severity_of] gives to its rule,
    and, no rule being informative, the [info] part of every report is
    empty. *)
Theorem validate_severity_by_rule (content : str) :
  exists r,
    validate content = Ok r
    /\ info r = []
    /\ forall i, In i (errors r ++ warnings r) ->
                 severity_of (rule i) = Some (severity i).
Proof.
  destruct (emitted_issues_ok content) as (all & He & Hall).
  exists (report all). split; [unfold validate; rewrite He; reflexivity|].
  rewrite Forall_forall in Hall. split.
  - unfold report. cbn [info].
    destruct (filter (has_severity SevInfo) (sort all)) as [|i rest] eqn:E;
      [reflexivity|].
    assert (Hi : In i (filter (has_severity SevInfo) (sort all)))
      by (rewrite E; left; reflexivity).
    apply in_report in Hi. destruct Hi as [Hi Hs].
    destruct (Hall i Hi) as (_ & _ & Hr). rewrite Hs in Hr.
    destruct (severity_of_not_info _ Hr).
  - intros i Hi. apply Hall. unfold report in Hi. cbn [errors warnings] in Hi.
    apply in_app_or in Hi. destruct Hi as [Hi|Hi]; apply in_report in Hi;
      apply Hi.
Qed.

(** X2 ([validate], [validateSyntax]).  Every issue of the report points
    into the text: its line is between 1 and the number of lines of the
    content, and its column is at least 1. *)
Theorem validate_positions_in_range (content : str) :
  exists r,
    validate content = Ok r
    /\ forall i, In i (errors r ++ warnings r ++ info r) ->
                 (1 <= line i <= Z.of_nat (length (split_lf content)))%Z
                 /\ (1 <= column i)%Z.
Proof.
  destruct (emitted_issues_ok content) as (all & He & Hall).
  exists (report all). split; [unfold validate; rewrite He; reflexivity|].
  rewrite Forall_forall in Hall. intros i Hi.
  assert (Hin : In i all).
  { unfold report in Hi. cbn [errors warnings info] in Hi.
    apply in_app_or in Hi. destruct Hi as [Hi|Hi];
      [apply in_report in Hi; apply Hi|].
    apply in_app_or in Hi. destruct Hi as [Hi|Hi]; apply in_report in Hi;
      apply Hi. }
  destruct (Hall i Hin) as (Hl & Hc & _). split; assumption.
Qed.

(** X3 ([validateSyntax]).  The scan of the lines ends, and every context it
    leaves on the brace stack has one of the five kinds of [BraceContext]
    (the cast of the first group of [BLOCK_RE] is sound) and was opened at a
    line of the text. *)
Theorem brace_stack_contexts (lines : list str) :
  exists st,
    Syntax.scan 1 lines Syntax.init = Ok st
    /\ Forall (context_ok (Z.of_nat (length lines))) (Syntax.braceStack st).
Proof.
  destruct (scan_ok lines 1 Syntax.init) as (st & H & _).
  exists st. split; [exact H|].
  assert (Hv : scan_inv (Z.of_nat (length lines)) st).
  { eapply scan_inv_lines with (n := 1%Z) (lines := lines);
      [apply scan_inv_init | lia | lia | exact H]. }
  apply Hv.
Qed.

Lemma whole_file_report (content : str) :
  exists st all,
    check_lines 1 (split_lf content)
      (init (trailing_newline_issues content (split_lf content))) = Ok st
    /\ validate content = Ok (report all)
    /\ forall c s, In c whole_file_rules ->
         filter (rule_is c) (filter (has_severity s) (sort all))
         = sort (filter (has_severity s)
                   (filter (rule_is c) (structure_issues st)
                    ++ filter (rule_is c)
                         (import_issues false (importLines st)))).
Proof.
  destruct (emitted_whole_file content) as (st & all & H & He & Hf).
  exists st, all. split; [exact H|].
  split; [unfold validate; rewrite He; reflexivity|].
  intros c s Hc. rewrite report_rule, (Hf c Hc). reflexivity.
Qed.

Lemma init_structure (issues0 : list Issue) (lines : list str) (st : State) :
  check_lines 1 lines (init issues0) = Ok st ->
  hasSyntax st = existsb (declares (lit "syntax")) lines
  /\ hasPackage st = existsb (declares (lit "package ")) lines
  /\ syntaxLine st = last_line (declares (lit "syntax")) 1 lines (-1)
  /\ packageLine st = last_line (declares (lit "package ")) 1 lines (-1)
  /\ importLines st = imports_of 1 lines.
Proof. intros H. apply check_lines_structure in H. exact H. Qed.

(** X4 ([validate]).  The report holds the error of the rule
    syntax-declaration exactly when no line, trimmed, starts with
    [syntax], and the warning of the rule package-declaration exactly when
    no line, trimmed, starts with [package ] and a blank; both are placed
    at line 1, column 1.  So a text that is reported valid has a line that
    starts with [syntax]. *)
Theorem missing_declarations_reported (content : str) :
  exists r,
    validate content = Ok r
    /\ filter (rule_is "syntax-declaration") (errors r)
       = (if existsb (declares (lit "syntax")) (split_lf content) then []
          else [syntax_declaration_issue])
    /\ filter (rule_is "package-declaration") (warnings r)
       = (if existsb (declares (lit "package ")) (split_lf content) then []
          else [package_declaration_issue])
    /\ (valid r = true ->
        existsb (declares (lit "syntax")) (split_lf content) = true).
Proof.
  destruct (whole_file_report content) as (st & all & H & Hv & Hf).
  exists (report all). split; [exact Hv|].
  destruct (init_structure _ _ H) as (Hs & Hp & _).
  assert (Hi : forall c, c <> "import-ordering"%string ->
                 filter (rule_is c) (import_issues false (importLines st))
                 = []).
  { intros c Hc. eapply only_filter_nil; [apply import_issues_rule|].
    simpl. intuition congruence. }
  assert (E1 : filter (rule_is "syntax-declaration") (errors (report all))
               = (if existsb (declares (lit "syntax")) (split_lf content)
                  then [] else [syntax_declaration_issue])).
  { unfold report. cbn [errors]. rewrite Hf by (simpl; tauto).
    rewrite Hi by discriminate. unfold structure_issues. rewrite <- Hs.
    destruct (hasSyntax st), (hasPackage st), (_ <? _)%Z; reflexivity. }
  split; [exact E1|]. split.
  - unfold report. cbn [warnings]. rewrite Hf by (simpl; tauto).
    rewrite Hi by discriminate. unfold structure_issues. rewrite <- Hp.
    destruct (hasSyntax st), (hasPackage st), (_ <? _)%Z; reflexivity.
  - intros Hvalid. unfold report in Hvalid, E1. cbn [valid errors] in Hvalid, E1.
    apply Nat.eqb_eq in Hvalid.
    destruct (filter (has_severity SevError) (sort all)); [|discriminate].
    destruct (existsb _ _); [reflexivity | discriminate].
Qed.

(** X5 ([validate]).  The error of the rule file-structure is reported
    exactly when a line starts with [syntax], a line starts with [package ]
    and the last of the package lines comes before the last of the syntax
    lines; it is placed at that last package line. *)
Theorem file_structure_reported (content : str) :
  exists r,
    validate content = Ok r
    /\ filter (rule_is "file-structure") (errors r)
       = (let lines := split_lf content in
          let package := last_line (declares (lit "package ")) 1 lines (-1) in
          let syntax := last_line (declares (lit "syntax")) 1 lines (-1) in
          if existsb (declares (lit "syntax")) lines
             && existsb (declares (lit "package ")) lines
             && (package <? syntax)%Z
          then [file_structure_issue package] else []).
Proof.
  destruct (whole_file_report content) as (st & all & H & Hv & Hf).
  exists (report all). split; [exact Hv|].
  destruct (init_structure _ _ H) as (Hs & Hp & Hsl & Hpl & _).
  unfold report. cbn [errors]. rewrite Hf by (simpl; tauto).
  rewrite (@only_filter_nil ["import-ordering"%string] "file-structure"
             (import_issues false (importLines st)))
    by (try apply import_issues_rule; simpl; intuition discriminate).
  unfold structure_issues. cbv zeta. rewrite <- Hs, <- Hp, <- Hsl, <- Hpl.
  destruct (hasSyntax st), (hasPackage st), (_ <? _)%Z; reflexivity.
Qed.

(** X6 ([validate]).  The warnings of the rule import-ordering are, in the
    order of the lines, one for each line that starts with [import public ]
    and comes after a line that starts with [import ] but not with
    [import public ]. *)
Theorem import_ordering_reported (content : str) :
  exists r,
    validate content = Ok r
    /\ filter (rule_is "import-ordering") (warnings r)
       = map import_ordering_issue (late_public false 1 (split_lf content)).
Proof.
  destruct (whole_file_report content) as (st & all & H & Hv & Hf).
  exists (report all). split; [exact Hv|].
  destruct (init_structure _ _ H) as (_ & _ & _ & _ & Him).
  unfold report. cbn [warnings]. rewrite Hf by (simpl; tauto).
  assert (E : filter (rule_is "import-ordering") (structure_issues st) = []).
  { unfold structure_issues.
    destruct (hasSyntax st), (hasPackage st), (_ <? _)%Z; reflexivity. }
  rewrite E, Him, import_issues_late. cbn [app].
  rewrite !filter_all.
  - apply sort_sorted_id, late_public_sorted.
  - apply Forall_forall. intros i Hi. apply in_map_iff in Hi.
    destruct Hi as (l & <- & _). reflexivity.
  - apply Forall_forall. intros i Hi. apply filter_In in Hi.
    destruct Hi as [Hi _]. apply in_map_iff in Hi.
    destruct Hi as (l & <- & _). reflexivity.
Qed.

(** X12 ([validate]).  The warnings of the rule service-comment are, in
    the order of the lines, one for each line that, trimmed, starts with
    [service ] and is the first line or comes right after a line that is no
    comment line (a line that, trimmed, starts with two slashes, with a
    slash and a star, or with a star). *)
Theorem service_comment_reported (content : str) :
  exists r,
    validate content = Ok r
    /\ filter (rule_is "service-comment") (warnings r)
       = map service_comment_issue
           (bare_services false 1 (split_lf content)).
Proof.
  destruct (emitted_services content) as (all & He & Hf).
  exists (report all). split; [unfold validate; rewrite He; reflexivity|].
  unfold report. cbn [warnings]. rewrite report_rule, Hf.
  rewrite filter_all.
  - apply sort_sorted_id, bare_services_sorted.
  - apply Forall_forall. intros i Hi. apply in_map_iff in Hi.
    destruct Hi as (l & <- & _). reflexivity.
Qed.

(** X14 ([PASCAL_RE], [SNAKE_RE], [UPPER_SNAKE_RE]).  What the three
    patterns accept.  PascalCase: an upper-case letter, then letters and
    digits.  snake_case: a lower-case letter, then lower-case letters,
    digits and underscores, each underscore being followed by a lower-case
    letter or a digit (so none is doubled, none is last).
    UPPER_SNAKE_CASE: the same with upper-case letters. *)
Theorem name_patterns (s : str) :
  test PASCAL_RE s = is_pascal s
  /\ test SNAKE_RE s = is_snake s
  /\ test UPPER_SNAKE_RE s = is_upper_snake s.
Proof.
  split; [apply test_pascal|].
  split; [apply test_snake_re | apply test_upper_snake_re].
Qed.

(** X15 ([validate]).  The errors of the rules message-name-pascal-case
    and enum-name-pascal-case are, in the order of the lines, one for each
    line that, trimmed, starts with the keyword ([message], [enum]), white
    space and a name (the longest run of word characters) that is not in
    PascalCase; the message quotes that name. *)
Theorem type_names_reported (content : str) :
  exists r,
    validate content = Ok r
    /\ filter (rule_is "message-name-pascal-case") (errors r)
       = name_errors "message" "message-name-pascal-case" "Message name " 1
           (split_lf content)
    /\ filter (rule_is "enum-name-pascal-case") (errors r)
       = name_errors "enum" "enum-name-pascal-case" "Enum name " 1
           (split_lf content).
Proof.
  destruct (emitted_names content) as (all & He & Hm & Hn).
  exists (report all). split; [unfold validate; rewrite He; reflexivity|].
  unfold report. cbn [errors]. rewrite !report_rule, Hm, Hn.
  assert (Hs : forall kw rule label,
            sort (filter (has_severity SevError)
                    (name_errors kw rule label 1 (split_lf content)))
            = name_errors kw rule label 1 (split_lf content)).
  { intros kw rule label. rewrite filter_all.
    - apply sort_sorted_id, name_errors_sorted.
    - eapply Forall_impl; [|apply name_errors_shape].
      intros i [_ Hi]. unfold has_severity. rewrite Hi. reflexivity. }
  rewrite !Hs. split; reflexivity.
Qed.

(** X16 ([validateSyntax], [validate]).  A block whose opening brace is
    missing is reported when a line of code follows.  When a line of code
    opens a block ([message], [enum], [service] or [oneof]) and holds no
    opening brace, and the next line of code (the lines between them being
    blank lines or comments) neither opens a block nor starts with an
    opening brace, the report has the error that names the type and the
    name of the block, at the line of its opening. *)
Theorem missing_opening_brace_reported (content : str)
    (pre mid post : list str) (h next : str) (type name : str) :
  split_lf content = pre ++ h :: mid ++ next :: post ->
  passed_over h = false ->
  header (code_of h) = Some (type, name) ->
  includes (lit "{") (code_of h) = false ->
  forallb passed_over mid = true ->
  passed_over next = false ->
  header (code_of next) = None ->
  startsWith (lit "{") (code_of next) = false ->
  exists r,
    validate content = Ok r
    /\ In (missing_brace_issue (Z.of_nat (length pre) + 1) type name)
          (errors r).
Proof.
  intros Hl Hh1 Hh2 Hh3 Hm Hn1 Hn2 Hn3.
  destruct (@validateSyntax_missing_brace pre mid post h next type name
              Hh1 Hh2 Hh3 Hm Hn1 Hn2 Hn3) as (syn & Hs & Hin).
  unfold validate, emitted.
  destruct (check_lines_ok (split_lf content) 1
              (init (trailing_newline_issues content (split_lf content))))
    as (st & new & H & _).
  rewrite H. cbn [bind]. rewrite Hl, Hs. cbn [bind].
  eexists. split; [reflexivity|].
  unfold report. cbn [errors]. apply in_report. split; [|reflexivity].
  apply in_or_app. right. apply in_or_app. right. apply in_or_app. right.
  exact Hin.
Qed.

Lemma missing_opening_brace_reported_witness :
  split_lf Samples.headless_message
  = [] ++ lit "message Foo" :: [[]] ++ lit "int32 a = 1;" :: [[]]
  /\ exists r,
       validate Samples.headless_message = Ok r
       /\ In (missing_brace_issue 1 (lit "message") (lit "Foo")) (errors r).
Proof.
  split; [reflexivity|].
  apply (@missing_opening_brace_reported Samples.headless_message
           [] [[]] [[]] (lit "message Foo") (lit "int32 a = 1;")
           (lit "message") (lit "Foo"));
    vm_compute; reflexivity.
Defined.

(** X20 ([validate]).  A name is reported only when its pattern refuses
    it: every error of the rule field-name-snake-case quotes a name that is
    not in snake_case, and every error of the rule
    enum-value-upper-snake-case quotes a name that is not in
    UPPER_SNAKE_CASE, in the sense made explicit by [is_snake] and
    [is_upper_snake]. *)
Theorem reported_names_break_their_pattern (content : str) :
  exists r,
    validate content = Ok r
    /\ forall i, In i (errors r ++ warnings r ++ info r) -> justified i.
Proof.
  destruct (emitted_justified content) as (all & He & Hall).
  exists (report all). split; [unfold validate; rewrite He; reflexivity|].
  rewrite Forall_forall in Hall. intros i Hi. apply Hall.
  unfold report in Hi. cbn [errors warnings info] in Hi.
  apply in_app_or in Hi. destruct Hi as [Hi|Hi];
    [apply in_report in Hi; apply Hi|].
  apply in_app_or in Hi. destruct Hi as [Hi|Hi]; apply in_report in Hi;
    apply Hi.
Qed.

(** X23 ([validateSyntax], [validate]).  The account of the braces.  When
    every line of code that opens a block ([message], [enum], [service] or
    [oneof]) holds an opening brace, the braces of the lines of code (blank
    lines and comment lines apart, inline comments removed) and the errors
    of the report balance: the number of opening braces plus the number of
    errors for an unexpected closing brace is the number of closing braces
    plus the number of errors for an unclosed block. *)
Theorem braces_accounted (content : str) :
  forallb opener_has_brace (split_lf content) = true ->
  exists r,
    validate content = Ok r
    /\ (braces 123 (scanned (split_lf content))
        + count_if is_unexpected_close (errors r)
        = braces 125 (scanned (split_lf content))
          + count_if is_unclosed (errors r))%nat.
Proof.
  intros Ho.
  destruct (emitted_issues_ok content) as (all & He & Hall).
  exists (report all). split; [unfold validate; rewrite He; reflexivity|].
  assert (Hsev : forall f : Issue -> bool,
             (forall i, f i = true -> rule i = "syntax-error"%string) ->
             count_if f (errors (report all)) = count_if f all).
  { intros f Hf. apply count_if_report. eapply Forall_impl; [|exact Hall].
    intros i (_ & _ & Hs) Hi. rewrite (Hf i Hi) in Hs.
    injection Hs as <-. reflexivity. }
  rewrite !Hsev.
  2: { intros i Hi. unfold is_unclosed in Hi. apply andb_prop in Hi.
       apply String.eqb_eq, Hi. }
  2: { intros i Hi. unfold is_unexpected_close in Hi. apply andb_prop in Hi.
       apply String.eqb_eq, Hi. }
  unfold emitted in He.
  destruct (check_lines_ok (split_lf content) 1
              (init (trailing_newline_issues content (split_lf content))))
    as (st & new & H & Hi & Hn & _).
  rewrite H in He. cbn [bind] in He.
  destruct (validateSyntax_braces (split_lf content) Ho) as (syn & Hs & Hc).
  rewrite Hs in He. cbn [bind] in He. injection He as <-.
  cbn [issues init] in Hi. rewrite Hi.
  destruct (quiet_count
              (trailing_newline_issues_quiet content (split_lf content)))
    as [T1 T2].
  destruct (quiet_count
              (only_quiet Hn ltac:(simpl; intuition discriminate)))
    as [L1 L2].
  destruct (quiet_count (structure_issues_quiet st)) as [S1 S2].
  destruct (quiet_count (import_issues_quiet (importLines st) false))
    as [I1 I2].
  rewrite !count_if_app. lia.
Qed.

Lemma braces_accounted_witness :
  forallb opener_has_brace (split_lf Samples.stray_braces) = true
  /\ exists r,
       validate Samples.stray_braces = Ok r
       /\ (braces 123 (scanned (split_lf Samples.stray_braces))
           + count_if is_unexpected_close (errors r)
           = braces 125 (scanned (split_lf Samples.stray_braces))
             + count_if is_unclosed (errors r))%nat.
Proof.
  split; [reflexivity|].
  apply braces_accounted. reflexivity.
Defined.

End ValidatorCoverage.

(* ================================================================== *)
(** ** Further properties of the formatter *)
(* ================================================================== *)

Module FormatterCoverage.
Import Formatter FormatterSpec FormatterFacts FormatterShape DepthFacts
       WhitespaceFacts TrimFacts BlankFacts LineFacts.


(** X8 ([format] of [formatter.ts]).  The depths of the lines of the first
    loop: none is negative, the first line is at depth 0, and from a line
    to the next the depth moves by one level at most, grows only after a
    line whose text ends with an opening brace and falls only at a line
    that is a closing brace. *)
Theorem indentation_steps (content : str) :
  exists ls,
    lines_of content = Ok ls
    /\ Forall (fun l => 0 <= depth l)%Z ls
    /\ steps_ok ls.
Proof. apply lines_of_steps. Qed.

Lemma format_end (content out : str) :
  format content = Ok out -> out = [] \/ endsWith [lf] out = true.
Proof.
  unfold format, lines_of.
  destruct (presplit (split_lf content)) as [lines|] eqn:Hp; cbn [bind];
    [|discriminate].
  pose proof (first_pass_texts lines 0 init_texts) as (Ht & _ & Hh).
  destruct (second_pass None _) as [result|] eqn:Hr; cbn [bind];
    [|discriminate].
  intros H. injection H as <-.
  destruct (second_pass_texts Ht _ Hr) as [Ho _].
  destruct (pop_blank_spec result) as (P1 & _ & [P|(a & x & P & Hx)]);
    rewrite P in *; [left; reflexivity|].
  right. destruct (join_lf_last a x) as [p ->].
  rewrite Forall_forall in Ho.
  destruct (Ho x) as [E0|(a0 & c & -> & Hc)]; [|contradiction|].
  - apply P1, in_or_app. right. left. reflexivity.
  - apply ends_with_one_newline, Hc.
Qed.

(** X9 ([format] of [formatter.ts], then [validate]).  The validator has
    no trailing-newline warning for a text that comes out of the
    formatter. *)
Theorem formatted_text_ends_as_validator_asks (content : str) :
  exists out r,
    format content = Ok out
    /\ Validator.validate out = Ok r
    /\ forall i,
         In i (Validator.errors r ++ Validator.warnings r ++ Validator.info r) ->
         Validator.rule i <> "trailing-newline"%string.
Proof.
  destruct (format_ok content) as [out H]. exists out.
  destruct (ValidatorFacts.emitted_ok out)
    as (loop & final & He & Hl & _ & _ & Hf).
  exists (Validator.report
            (Validator.trailing_newline_issues out (split_lf out)
             ++ loop ++ final)).
  split; [exact H|].
  split; [unfold Validator.validate; rewrite He; reflexivity|].
  intros i Hi E.
  assert (Hin : In i (Validator.trailing_newline_issues out (split_lf out)
                      ++ loop ++ final)).
  { unfold Validator.report in Hi.
    cbn [Validator.errors Validator.warnings Validator.info] in Hi.
    apply in_app_or in Hi. destruct Hi as [Hi|Hi];
      [apply ReportFacts.in_report in Hi; apply Hi|].
    apply in_app_or in Hi.
    destruct Hi as [Hi|Hi]; apply ReportFacts.in_report in Hi; apply Hi. }
  assert (Et : Validator.trailing_newline_issues out (split_lf out) = []).
  { unfold Validator.trailing_newline_issues.
    destruct (@format_end content out H) as [->|Hn]; [reflexivity|].
    rewrite Hn, andb_false_r. reflexivity. }
  rewrite Et in Hin. cbn [app] in Hin. apply in_app_or in Hin.
  unfold ValidatorSpec.only in Hl, Hf. rewrite Forall_forall in Hl, Hf.
  destruct Hin as [Hin|Hin]; [apply Hl in Hin | apply Hf in Hin];
    rewrite E in Hin; unfold ValidatorSpec.loop_rules in Hin; simpl in Hin;
    intuition discriminate.
Qed.

(** X13 ([format] of [formatter.ts]).  The white space at the two ends of
    the lines of the text plays no part: two texts whose lines are the same
    once trimmed are formatted alike. *)
Theorem format_ignores_white_space_around_lines (c1 c2 : str) :
  same_trimmed (split_lf c1) (split_lf c2) -> format c1 = format c2.
Proof. apply format_same. Qed.

Lemma format_ignores_white_space_around_lines_witness :
  same_trimmed (split_lf Samples.flush_message)
    (split_lf Samples.ragged_message)
  /\ format Samples.flush_message = format Samples.ragged_message.
Proof.
  split; [reflexivity|].
  apply format_ignores_white_space_around_lines. reflexivity.
Defined.

(** X17 ([format] of [formatter.ts]).  Outside block comments the blank
    lines of the text play no part: two texts, none of whose lines starts a
    block comment, that have the same lines once the lines are trimmed and
    the blank ones left out, are formatted alike. *)
Theorem format_ignores_blank_lines (c1 c2 : str) :
  no_block_comment (split_lf c1) = true ->
  no_block_comment (split_lf c2) = true ->
  solid (split_lf c1) = solid (split_lf c2) ->
  format c1 = format c2.
Proof. apply format_solid. Qed.

Lemma format_ignores_blank_lines_witness :
  (no_block_comment (split_lf Samples.airy_message) = true
   /\ no_block_comment (split_lf Samples.dense_message) = true
   /\ solid (split_lf Samples.airy_message)
      = solid (split_lf Samples.dense_message))
  /\ format Samples.airy_message = format Samples.dense_message.
Proof.
  split; [repeat split|].
  apply format_ignores_blank_lines; reflexivity.
Defined.

(** X19 ([format] of [formatter.ts], [shouldInsertBlankLine]).  When no
    line of the text starts a block comment, no two blank lines follow one
    another in the formatted text, and the first line of a result of more
    than one line is not blank. *)
Theorem format_never_doubles_blank_lines (content : str) :
  no_block_comment (split_lf content) = true ->
  exists out,
    format content = Ok out
    /\ no_two_blank (split_lf out)
    /\ forall hd tl, split_lf out = hd :: tl -> tl <> [] -> hd <> [].
Proof.
  intros Hc. destruct (format_ok content) as [out H]. exists out.
  split; [exact H | eapply format_lines_plain; eassumption].
Qed.

Lemma format_never_doubles_blank_lines_witness :
  no_block_comment (split_lf Samples.blank_runs) = true
  /\ exists out,
       format Samples.blank_runs = Ok out
       /\ no_two_blank (split_lf out)
       /\ forall hd tl, split_lf out = hd :: tl -> tl <> [] -> hd <> [].
Proof.
  split; [reflexivity|].
  apply format_never_doubles_blank_lines. reflexivity.
Defined.

End FormatterCoverage.

(* ================================================================== *)
(** ** Properties of the first version of the formatter *)
(* ================================================================== *)

Module FormatterV1Coverage.
Import FormatterV1 FormatterV1Facts CollapseFacts.



(** X18 ([format] beside the validator).  The first version of the
    formatter collapses the blank lines: when no line of the text starts a
    block comment, no two blank lines follow one another in what it
    returns, and the first line of a result of more than one line is not
    blank. *)
Theorem format_v1_collapses_blank_lines (content : str) :
  no_block_comment (split_lf content) = true ->
  exists out,
    format content = Ok out
    /\ no_two_blank (split_lf out)
    /\ forall hd tl, split_lf out = hd :: tl -> tl <> [] -> hd <> [].
Proof.
  intros Hc. destruct (format_v1_ok content) as [out H]. exists out.
  split; [exact H | eapply format_v1_lines; eassumption].
Qed.

Lemma format_v1_collapses_blank_lines_witness :
  no_block_comment (split_lf Samples.blank_runs) = true
  /\ exists out,
       format Samples.blank_runs = Ok out
       /\ no_two_blank (split_lf out)
       /\ forall hd tl, split_lf out = hd :: tl -> tl <> [] -> hd <> [].
Proof.
  split; [reflexivity|].
  apply format_v1_collapses_blank_lines. reflexivity.
Defined.

End FormatterV1Coverage.

(* ================================================================== *)
(** ** The two routes *)
(* ================================================================== *)

Module RouteCoverage.
Import Routes.



End RouteCoverage.
